(** * Enhanced Neon Rhythm Game: gameplay core and chart generator

    A shallow embedding of the gameplay core of [main.py]
    ([RhythmGame.update_notes], [RhythmGame.hit_note_in_lane],
    [RhythmGame.update], [PerformanceMonitor.update]) and of the chart
    generator ([ChartGenerator.generate_chart],
    [ChartGenerator.choose_lane_musically],
    [ChartGenerator.remove_duplicate_notes]).

    Numbers.  Python [int] values (score, combo, lane) are [Z].  Python
    [float] values are binary64 numbers, the primitive [float], wherever a
    property depends on what the arithmetic of the doubles gives: the
    positions of the notes ([Game64]), the averages of the quality
    controller ([Perf64]), the times of a chart ([Chart64]), the particles
    and the clock of the background ([Fx]), the numbers of a configuration
    ([Config]).  Every arithmetic operation of the source is kept, in the
    order of the source, and rounds to the nearest double; an integer
    operand stands as the double it converts to; a NaN and the infinities
    are values like the others.  The modules [Game], [Perf], [Chart] and
    [Menu] follow the same code over exact rationals [Q], without rounding,
    for the properties of the integer state (score, combo, multiplier,
    cooldown), of the flags and of the order of the lists.

    Effects.  Mutation of [self] is explicit state passing.  The wall clock
    ([time.time()], [pygame.time.get_ticks()]), the keyboard and the random
    generator are inputs of the functions that read them.  An exception is a
    value of [exn]. *)

From Stdlib Require Import ZArith QArith Qabs Qround List Bool Lia Lqa.
From Stdlib Require Import Permutation Sorted String Ascii DecimalString.
From Stdlib Require Floats.
Import ListNotations.

Set Warnings "-inexact-float".

Local Open Scope Q_scope.

(** ** Python helpers *)

Inductive exn : Type :=
  | ZeroDivisionError
  | IndexError
  | OverflowError
  | ValueError.

(** [a < b] on exact numbers, as a boolean. *)
Definition Qlt_bool (a b : Q) : bool := negb (Qle_bool b a).

(** [int(x)] on an exact number: truncation towards zero. *)
Definition py_int (x : Q) : Z := Z.quot (Qnum x) (Zpos (Qden x)).

(** [l[i]] with Python's negative indices; [None] stands for [IndexError]. *)
Definition py_index {A : Type} (l : list A) (i : Z) : option A :=
  let len := Z.of_nat (List.length l) in
  if (0 <=? i)%Z then nth_error l (Z.to_nat i)
  else if (- len <=? i)%Z then nth_error l (Z.to_nat (len + i))
  else None.

(** The sum of a list of exact numbers. *)
Definition Qsum (l : list Q) : Q := fold_left Qplus l 0.

(** ** Binary64 numbers: Python's [float] *)

Module Float64.
Import Floats.
Local Open Scope float_scope.

(** [float(z)] for an integer: the nearest double, ties to even. *)
Definition of_Z (z : Z) : float := SF2Prim (binary_normalize prec emax z 0 false).

(** [int(x)]: truncation towards zero; an infinity raises
    [OverflowError] and a NaN [ValueError]. *)
Definition py_int (x : float) : Z + exn :=
  match Prim2SF x with
  | S754_zero _ => inl 0%Z
  | S754_finite s m e => inl (cond_Zopp s (Z.shiftl (Zpos m) e))
  | S754_infinity _ => inr OverflowError
  | S754_nan => inr ValueError
  end.

(** The rational number a finite double stands for (0 for the others). *)
Definition to_Q (x : float) : Q :=
  match Prim2SF x with
  | S754_finite s m e =>
      let n := cond_Zopp s (Zpos m) in
      match e with
      | Z0 => inject_Z n
      | Zpos p => inject_Z (n * 2 ^ Zpos p)
      | Zneg p => Qmake n (2 ^ p)
      end
  | _ => 0%Q
  end.

(** [sum(l)]: the additions are made from left to right, from the integer
    0, each rounding, as CPython does before version 3.12 (later versions
    carry a compensation term along). *)
Definition sum (l : list float) : float := fold_left add l 0.

(** *** The doubles by their specification *)

(** [x <= y] and [x < y] in the sense of [SFcompare]. *)
Definition SFle (x y : spec_float) : Prop :=
  SFcompare x y = Some Lt \/ SFcompare x y = Some Eq.

Definition SFlt (x y : spec_float) : Prop := SFcompare x y = Some Lt.

(** [x] is a zero, a finite number or an infinity of sign [s]. *)
Definition signed (s : bool) (x : spec_float) : Prop :=
  match x with
  | S754_zero s' | S754_infinity s' | S754_finite s' _ _ => s' = s
  | S754_nan => False
  end.

(** A NaN, a zero, or a positive number: what is not below zero. *)
Definition SFnn (x : spec_float) : Prop :=
  match x with
  | S754_finite true _ _ | S754_infinity true => False
  | _ => True
  end.

(** A zero or a negative number: what is at most zero. *)
Definition SFle0 (x : spec_float) : Prop :=
  match x with
  | S754_zero _ | S754_finite true _ _ | S754_infinity true => True
  | _ => False
  end.

(** A positive finite number. *)
Definition SFposfin (x : spec_float) : Prop :=
  match x with
  | S754_finite false _ _ => True
  | _ => False
  end.

End Float64.

(** ** Game constants *)

Definition WINDOW_WIDTH : Z := 1200.
Definition WINDOW_HEIGHT : Z := 800.
Definition NUM_LANES : Z := 4.
Definition NOTE_SPEED : Q := 2.5.
Definition HIT_ZONE_Y : Z := WINDOW_HEIGHT - 100.
Definition HIT_TOLERANCE : Z := 50.

(** ** The note field and the combo state over exact positions:
    [class RhythmGame] *)

Module Game.

(** [@dataclass class Note]. *)
Record Note : Type := mkNote {
  lane : Z;
  y : Q;
  hit : bool;
  missed : bool
}.

(** The fields of [RhythmGame] that the gameplay core reads and writes.
    [note_speed] is [self.settings.settings["note_speed"]]. *)
Record RhythmGame : Type := mkGame {
  note_speed : Q;
  notes : list Note;
  score : Z;
  combo : Z;
  combo_multiplier : Z;
  last_note_spawn : Z;
  note_spawn_interval : Z
}.

(** [RhythmGame.__init__], for a given [note_speed] setting. *)
Definition init (speed : Q) : RhythmGame :=
  mkGame speed [] 1 0 1 0 1000.

Definition set_notes (g : RhythmGame) (ns : list Note) : RhythmGame :=
  mkGame (note_speed g) ns (score g) (combo g) (combo_multiplier g)
         (last_note_spawn g) (note_spawn_interval g).

(** [not note.hit and not note.missed] *)
Definition active (n : Note) : bool := negb (hit n) && negb (missed n).

(** [spawn_note], the lane being the value drawn by [random.randint]. *)
Definition spawn_note (l : Z) (g : RhythmGame) : RhythmGame :=
  set_notes g (notes g ++ [mkNote l 0 false false]).

(** The body of the loop of [update_notes] for one note.  [c] and [m] are
    [self.combo] and [self.combo_multiplier] before the iteration. *)
Definition update_note (v : Q) (n : Note) (c m : Z) : Note * Z * Z :=
  if active n then
    let y' := y n + v in
    if Qlt_bool (inject_Z (HIT_ZONE_Y + HIT_TOLERANCE)) y'
    then (mkNote (lane n) y' (hit n) true, 0%Z, 1%Z)
    else (mkNote (lane n) y' (hit n) (missed n), c, m)
  else (n, c, m).

(** [for note in self.notes[:]: ...] *)
Fixpoint update_notes_loop (v : Q) (ns : list Note) (c m : Z)
  : list Note * Z * Z :=
  match ns with
  | [] => ([], c, m)
  | n :: rest =>
      let '(n', c1, m1) := update_note v n c m in
      let '(rest', c2, m2) := update_notes_loop v rest c1 m1 in
      (n' :: rest', c2, m2)
  end.

(** [update_notes(self, dt)] *)
Definition update_notes (dt : Q) (g : RhythmGame) : RhythmGame :=
  let v := note_speed g * dt * 60 in
  let '(ns, c, m) := update_notes_loop v (notes g) (combo g) (combo_multiplier g) in
  mkGame (note_speed g) ns (score g) c m
         (last_note_spawn g) (note_spawn_interval g).

(** The condition of the [if] in [hit_note_in_lane]. *)
Definition hittable (l : Z) (n : Note) : bool :=
  (lane n =? l)%Z && negb (hit n) && negb (missed n)
  && Qle_bool (Qabs (y n - inject_Z HIT_ZONE_Y)) (inject_Z HIT_TOLERANCE).

(** The combo and score update inside the [if] of [hit_note_in_lane]. *)
Definition on_hit (g : RhythmGame) (ns : list Note) : RhythmGame :=
  let c := (combo g + 1)%Z in
  let m := if (30 <=? c)%Z then 4%Z
           else if (20 <=? c)%Z then 3%Z
           else if (10 <=? c)%Z then 2%Z
           else 1%Z in
  let points := (100 * m)%Z in
  mkGame (note_speed g) ns (Z.max 1 (score g + points)) c m
         (last_note_spawn g) (note_spawn_interval g).

(** [note.hit = True] *)
Definition mark_hit (n : Note) : Note := mkNote (lane n) (y n) true (missed n).

(** [for note in self.notes: if ...: note.hit = True; ...; break].  The
    result is the new list and whether the [if] was entered. *)
Fixpoint hit_loop (l : Z) (ns : list Note) : list Note * bool :=
  match ns with
  | [] => ([], false)
  | n :: rest =>
      if hittable l n
      then (mark_hit n :: rest, true)
      else let '(rest', b) := hit_loop l rest in (n :: rest', b)
  end.

(** [hit_note_in_lane(self, lane)] *)
Definition hit_note_in_lane (l : Z) (g : RhythmGame) : RhythmGame :=
  let '(ns, b) := hit_loop l (notes g) in
  if b then on_hit g ns else g.

(** [handle_input]: [keys] lists, in order, the lanes [i] of [lane_keys]
    whose key is down; [pressed k] is that list for a keyboard state [k]. *)
Definition pressed (k : Z -> bool) : list Z :=
  filter k [0; 1; 2; 3]%Z.

Definition handle_input (k : Z -> bool) (g : RhythmGame) : RhythmGame :=
  fold_left (fun g i => hit_note_in_lane i g) (pressed k) g.

(** [self.notes = [note for note in self.notes if note.y < WINDOW_HEIGHT + 100]] *)
Definition remove_old_notes (g : RhythmGame) : RhythmGame :=
  set_notes g
    (filter (fun n => Qlt_bool (y n) (inject_Z (WINDOW_HEIGHT + 100))) (notes g)).

(** What one call of [update] reads from outside: the frame duration, the
    value of [pygame.time.get_ticks()], the lane that [random.randint] would
    return, and the keyboard state. *)
Record Frame : Type := mkFrame {
  frame_dt : Q;
  frame_ticks : Z;
  frame_lane : Z;
  frame_keys : Z -> bool
}.

(** [update(self, dt)], restricted to the note field and the combo state
    (the performance monitor, the particles and the background do not read
    or write them; a frame in which the monitor raises ends the game loop
    before the notes are touched, so that the session is the frames before
    it). *)
Definition update (f : Frame) (g : RhythmGame) : RhythmGame :=
  let g1 :=
    if (note_spawn_interval g <? frame_ticks f - last_note_spawn g)%Z
    then let g' := spawn_note (frame_lane f) g in
         mkGame (note_speed g') (notes g') (score g') (combo g')
                (combo_multiplier g') (frame_ticks f) (note_spawn_interval g')
    else g in
  let g2 := update_notes (frame_dt f) g1 in
  let g3 := handle_input (frame_keys f) g2 in
  remove_old_notes g3.

(** A session: the frames in the order they happen. *)
Definition run (fs : list Frame) (g : RhythmGame) : RhythmGame :=
  fold_left (fun g f => update f g) fs g.

(** The two nested conditions under which [update_notes] executes
    [note.missed = True] for a note, [v] being the step of this tick. *)
Definition miss_fires (v : Q) (n : Note) : bool :=
  active n && Qlt_bool (inject_Z (HIT_ZONE_Y + HIT_TOLERANCE)) (y n + v).

(** [note_speed] of [update_notes]: the distance covered in this tick. *)
Definition step_of (g : RhythmGame) (dt : Q) : Q := note_speed g * dt * 60.

(** What one iteration of the loop of [update_notes] leaves of a note. *)
Definition moved (v : Q) (n : Note) : Note :=
  fst (fst (update_note v n 0%Z 1%Z)).

(** The session seen as the sequence of the calls that [update] makes. *)
Inductive Call : Type :=
  | CallSpawn (ticks l : Z)
  | CallUpdateNotes (dt : Q)
  | CallHit (l : Z)
  | CallRemoveOld.

Definition call (c : Call) (g : RhythmGame) : RhythmGame :=
  match c with
  | CallSpawn ticks l =>
      if (note_spawn_interval g <? ticks - last_note_spawn g)%Z
      then let g' := spawn_note l g in
           mkGame (note_speed g') (notes g') (score g') (combo g')
                  (combo_multiplier g') ticks (note_spawn_interval g')
      else g
  | CallUpdateNotes dt => update_notes dt g
  | CallHit l => hit_note_in_lane l g
  | CallRemoveOld => remove_old_notes g
  end.

Definition calls (cs : list Call) (g : RhythmGame) : RhythmGame :=
  fold_left (fun g c => call c g) cs g.

Definition frame_calls (f : Frame) : list Call :=
  CallSpawn (frame_ticks f) (frame_lane f)
  :: CallUpdateNotes (frame_dt f)
  :: map CallHit (pressed (frame_keys f)) ++ [CallRemoveOld].

(** The step function of the combo: 4 from 30, 3 from 20, 2 from 10, else 1. *)
Definition multiplier_for (c : Z) : Z :=
  if (30 <=? c)%Z then 4%Z
  else if (20 <=? c)%Z then 3%Z
  else if (10 <=? c)%Z then 2%Z
  else 1%Z.

(** The invariant of the combo state. *)
Definition combo_ok (g : RhythmGame) : Prop :=
  (1 <= score g)%Z /\ (0 <= combo g)%Z /\
  combo_multiplier g = multiplier_for (combo g).

(** What holds of every note of a session: a note that is not missed is
    not below the miss line, and a hit note is not missed. *)
Definition note_ok (n : Note) : Prop :=
  (missed n = false -> y n <= 750) /\ (hit n = true -> missed n = false).

(** A note is settled once one of its two flags is set. *)
Definition settled (n : Note) : bool := hit n || missed n.

(** *** Concrete states *)

(** No key is down. *)
Definition no_keys : Z -> bool := fun _ => false.

(** A session at [note_speed = 0.5]: two frames, each spawning a note in
    lane 0; afterwards the first note is at 740 and the second at 700. *)
Definition stacked_game : RhythmGame :=
  run [mkFrame (4 # 3) 1001 0 no_keys; mkFrame (70 # 3) 3000 0 no_keys]
      (init 0.5).

(** The calls of that session, followed by a key press in lane 0. *)
Definition c5_calls : list Call :=
  flat_map frame_calls
    [mkFrame (4 # 3) 1001 0 no_keys; mkFrame (70 # 3) 3000 0 no_keys]
  ++ [CallHit 0].

(** The number of notes of a list whose [hit] flag is set. *)
Definition hits (ns : list Note) : Z := Z.of_nat (List.length (filter hit ns)).

End Game.

(** ** The note field in binary64: [class RhythmGame] *)

Module Game64.
Import Floats Float64.
Local Open Scope float_scope.

(** [@dataclass class Note]; [y] is a double. *)
Record Note : Type := mkNote {
  lane : Z;
  y : float;
  hit : bool;
  missed : bool
}.

(** The fields of [RhythmGame] that the gameplay core reads and writes.
    [note_speed] is [self.settings.settings["note_speed"]]. *)
Record RhythmGame : Type := mkGame {
  note_speed : float;
  notes : list Note;
  score : Z;
  combo : Z;
  combo_multiplier : Z;
  last_note_spawn : Z;
  note_spawn_interval : Z
}.

(** [RhythmGame.__init__], for a given [note_speed] setting. *)
Definition init (speed : float) : RhythmGame :=
  mkGame speed [] 1 0 1 0 1000.

Definition set_notes (g : RhythmGame) (ns : list Note) : RhythmGame :=
  mkGame (note_speed g) ns (score g) (combo g) (combo_multiplier g)
         (last_note_spawn g) (note_spawn_interval g).

(** [not note.hit and not note.missed] *)
Definition active (n : Note) : bool := negb (hit n) && negb (missed n).

(** [spawn_note], the lane being the value drawn by [random.randint]. *)
Definition spawn_note (l : Z) (g : RhythmGame) : RhythmGame :=
  set_notes g (notes g ++ [mkNote l 0 false false]).

(** The body of the loop of [update_notes] for one note: [note.y +=
    note_speed] rounds to the nearest double, and [note.y > HIT_ZONE_Y +
    HIT_TOLERANCE] compares that double with 750. *)
Definition update_note (v : float) (n : Note) (c m : Z) : Note * Z * Z :=
  if active n then
    let y' := y n + v in
    if of_Z (HIT_ZONE_Y + HIT_TOLERANCE) <? y'
    then (mkNote (lane n) y' (hit n) true, 0%Z, 1%Z)
    else (mkNote (lane n) y' (hit n) (missed n), c, m)
  else (n, c, m).

(** [for note in self.notes[:]: ...] *)
Fixpoint update_notes_loop (v : float) (ns : list Note) (c m : Z)
  : list Note * Z * Z :=
  match ns with
  | [] => ([], c, m)
  | n :: rest =>
      let '(n', c1, m1) := update_note v n c m in
      let '(rest', c2, m2) := update_notes_loop v rest c1 m1 in
      (n' :: rest', c2, m2)
  end.

(** [update_notes(self, dt)]: [note_speed * dt * 60] is two rounded
    products, from left to right. *)
Definition update_notes (dt : float) (g : RhythmGame) : RhythmGame :=
  let v := note_speed g * dt * 60 in
  let '(ns, c, m) := update_notes_loop v (notes g) (combo g) (combo_multiplier g) in
  mkGame (note_speed g) ns (score g) c m
         (last_note_spawn g) (note_spawn_interval g).

(** The condition of the [if] in [hit_note_in_lane]. *)
Definition hittable (l : Z) (n : Note) : bool :=
  (lane n =? l)%Z && negb (hit n) && negb (missed n)
  && (abs (y n - of_Z HIT_ZONE_Y) <=? of_Z HIT_TOLERANCE).

(** The combo and score update inside the [if] of [hit_note_in_lane]. *)
Definition on_hit (g : RhythmGame) (ns : list Note) : RhythmGame :=
  let c := (combo g + 1)%Z in
  let m := if (30 <=? c)%Z then 4%Z
           else if (20 <=? c)%Z then 3%Z
           else if (10 <=? c)%Z then 2%Z
           else 1%Z in
  let points := (100 * m)%Z in
  mkGame (note_speed g) ns (Z.max 1 (score g + points)) c m
         (last_note_spawn g) (note_spawn_interval g).

(** [note.hit = True] *)
Definition mark_hit (n : Note) : Note := mkNote (lane n) (y n) true (missed n).

(** [for note in self.notes: if ...: note.hit = True; ...; break] *)
Fixpoint hit_loop (l : Z) (ns : list Note) : list Note * bool :=
  match ns with
  | [] => ([], false)
  | n :: rest =>
      if hittable l n
      then (mark_hit n :: rest, true)
      else let '(rest', b) := hit_loop l rest in (n :: rest', b)
  end.

(** [hit_note_in_lane(self, lane)] *)
Definition hit_note_in_lane (l : Z) (g : RhythmGame) : RhythmGame :=
  let '(ns, b) := hit_loop l (notes g) in
  if b then on_hit g ns else g.

(** The condition of the filter at the end of [update]:
    [note.y < WINDOW_HEIGHT + 100]. *)
Definition on_screen (n : Note) : bool := y n <? of_Z (WINDOW_HEIGHT + 100).

(** [self.notes = [note for note in self.notes if note.y < WINDOW_HEIGHT + 100]] *)
Definition remove_old_notes (g : RhythmGame) : RhythmGame :=
  set_notes g (filter on_screen (notes g)).

(** Successive calls of [update_notes] alone. *)
Definition run_updates (dts : list float) (g : RhythmGame) : RhythmGame :=
  fold_left (fun g dt => update_notes dt g) dts g.

(** The two nested conditions under which [update_notes] executes
    [note.missed = True] for a note, [v] being the step of this tick. *)
Definition miss_fires (v : float) (n : Note) : bool :=
  active n && (of_Z (HIT_ZONE_Y + HIT_TOLERANCE) <? y n + v).

(** [note_speed] of [update_notes]: the distance covered in this tick. *)
Definition step_of (g : RhythmGame) (dt : float) : float :=
  note_speed g * dt * 60.

(** What one iteration of the loop of [update_notes] leaves of a note. *)
Definition moved (v : float) (n : Note) : Note :=
  fst (fst (update_note v n 0%Z 1%Z)).

(** The session seen as the sequence of the calls that [update] makes:
    the timed [spawn_note], [update_notes], one [hit_note_in_lane] per
    key that is down, and the filter of the notes. *)
Inductive Call : Type :=
  | CallSpawn (ticks l : Z)
  | CallUpdateNotes (dt : float)
  | CallHit (l : Z)
  | CallRemoveOld.

Definition call (c : Call) (g : RhythmGame) : RhythmGame :=
  match c with
  | CallSpawn ticks l =>
      if (note_spawn_interval g <? ticks - last_note_spawn g)%Z
      then let g' := spawn_note l g in
           mkGame (note_speed g') (notes g') (score g') (combo g')
                  (combo_multiplier g') ticks (note_spawn_interval g')
      else g
  | CallUpdateNotes dt => update_notes dt g
  | CallHit l => hit_note_in_lane l g
  | CallRemoveOld => remove_old_notes g
  end.

Definition calls (cs : list Call) (g : RhythmGame) : RhythmGame :=
  fold_left (fun g c => call c g) cs g.

(** [handle_input]: one [hit_note_in_lane] per lane whose key is down, in
    the order of [lane_keys]. *)
Definition handle_input (k : Z -> bool) (g : RhythmGame) : RhythmGame :=
  fold_left (fun g i => hit_note_in_lane i g) (Game.pressed k) g.

(** What one call of [update] reads from outside: the frame duration, the
    value of [pygame.time.get_ticks()], the lane that [random.randint] would
    return, and the keyboard state. *)
Record Frame : Type := mkFrame {
  frame_dt : float;
  frame_ticks : Z;
  frame_lane : Z;
  frame_keys : Z -> bool
}.

(** [update(self, dt)], restricted to the note field and the combo state. *)
Definition update (f : Frame) (g : RhythmGame) : RhythmGame :=
  let g1 :=
    if (note_spawn_interval g <? frame_ticks f - last_note_spawn g)%Z
    then let g' := spawn_note (frame_lane f) g in
         mkGame (note_speed g') (notes g') (score g') (combo g')
                (combo_multiplier g') (frame_ticks f) (note_spawn_interval g')
    else g in
  let g2 := update_notes (frame_dt f) g1 in
  let g3 := handle_input (frame_keys f) g2 in
  remove_old_notes g3.

(** The calls of [update(dt)] on the note field, in their order. *)
Definition frame_calls (f : Frame) : list Call :=
  CallSpawn (frame_ticks f) (frame_lane f)
  :: CallUpdateNotes (frame_dt f)
  :: map CallHit (Game.pressed (frame_keys f)) ++ [CallRemoveOld].

(** A session: the frames in the order they happen. *)
Definition run (fs : list Frame) (g : RhythmGame) : RhythmGame :=
  fold_left (fun g f => update f g) fs g.

(** Where the note at index [i] of [ns] is after the filter: [None] when
    the filter removes it. *)
Fixpoint index_after_filter (ns : list Note) (i : nat) : option nat :=
  match ns, i with
  | [], _ => None
  | n :: _, O => if on_screen n then Some O else None
  | n :: rest, S i' =>
      match index_after_filter rest i' with
      | Some j => Some (if on_screen n then S j else j)
      | None => None
      end
  end.

(** Where the note at index [i] of [self.notes] is after a call, and after
    a sequence of calls. *)
Definition follow_call (c : Call) (g : RhythmGame) (i : nat) : option nat :=
  match c with
  | CallRemoveOld => index_after_filter (notes g) i
  | _ => Some i
  end.

Fixpoint follow (cs : list Call) (g : RhythmGame) (i : nat) : option nat :=
  match cs with
  | [] => Some i
  | c :: rest =>
      match follow_call c g i with
      | Some j => follow rest (call c g) j
      | None => None
      end
  end.

(** The positions a note at [p] takes in successive ticks as long as it
    stays active. *)
Fixpoint positions (speed p : float) (dts : list float) : list float :=
  match dts with
  | [] => []
  | dt :: rest =>
      let p' := p + speed * dt * 60 in
      p' :: positions speed p' rest
  end.


(** What holds of every note of a session: a note that is not missed has
    not crossed the miss line. *)
Definition note_ok (n : Note) : Prop :=
  missed n = false -> (of_Z (HIT_ZONE_Y + HIT_TOLERANCE) <? y n) = false.

(** *** Concrete states *)

(** One note in flight at the default speed. *)
Definition c1_game : RhythmGame :=
  mkGame 2.5 [mkNote 2 100 false false] 1 0 1 0 1000.

(** A combo of 12 and a note of lane 1 five units above the miss line. *)
Definition c4_game : RhythmGame :=
  mkGame 2.5 [mkNote 1 745 false false] 501 12 2 0 1000.

(** A note six units above the miss line. *)
Definition edge_game : RhythmGame :=
  mkGame 2.5 [mkNote 1 744 false false] 501 12 2 0 1000.

End Game64.

(** ** The quality controller over exact durations:
    [class PerformanceMonitor] *)

Module Perf.

(** [self.quality_level], one of ["high"], ["medium"], ["low"]. *)
Inductive Quality : Type := high | medium | low.

Definition Quality_eqb (a b : Quality) : bool :=
  match a, b with
  | high, high | medium, medium | low, low => true
  | _, _ => false
  end.

Record PerformanceMonitor : Type := mkMonitor {
  frame_times : list Q;
  quality_level : Quality;
  last_adjustment : Q
}.

(** [PerformanceMonitor.__init__] *)
Definition init : PerformanceMonitor := mkMonitor [] high 0.

(** [self.frame_times.append(dt)], then one [pop(0)] when more than 60
    durations are held. *)
Definition push_frame (dt : Q) (ft : list Q) : list Q :=
  let ft' := ft ++ [dt] in
  if (60 <? List.length ft')%nat then tl ft' else ft'.

(** [sum(self.frame_times) / len(self.frame_times)] *)
Definition mean (ft : list Q) : Q :=
  Qsum ft / inject_Z (Z.of_nat (List.length ft)).

(** [update(self, dt)]; [now] is the value of [time.time()].  The result is
    the monitor after the call and the exception raised, if any: [1.0 / x]
    raises when [x] is zero. *)
Definition update (now dt : Q) (pm : PerformanceMonitor)
  : PerformanceMonitor * option exn :=
  let ft := push_frame dt (frame_times pm) in
  let q := quality_level pm in
  let keep := mkMonitor ft q (last_adjustment pm) in
  if Qlt_bool 2 (now - last_adjustment pm) then
    if Qeq_bool (mean ft) 0 then (keep, Some ZeroDivisionError)
    else
      let avg_fps := 1 / mean ft in
      if Qlt_bool avg_fps 45 && Quality_eqb q high
      then (mkMonitor ft medium now, None)
      else if Qlt_bool avg_fps 30 && Quality_eqb q medium
      then (mkMonitor ft low now, None)
      else if Qlt_bool 55 avg_fps && Quality_eqb q medium
      then (mkMonitor ft high now, None)
      else (keep, None)
  else (keep, None).

(** Successive calls, each with its clock value and its frame duration; an
    exception ends the game loop. *)
Fixpoint run (inputs : list (Q * Q)) (pm : PerformanceMonitor)
  : PerformanceMonitor :=
  match inputs with
  | [] => pm
  | (now, dt) :: rest =>
      match update now dt pm with
      | (pm', None) => run rest pm'
      | (pm', Some _) => pm'
      end
  end.

(** The average the evaluation of a call is made on. *)
Definition avg_fps_of (dt : Q) (pm : PerformanceMonitor) : Q :=
  1 / mean (push_frame dt (frame_times pm)).

(** 60 buffered frames of 0.04 s, as the test of the monitor builds them. *)
Definition slow_monitor (q : Quality) (last : Q) : PerformanceMonitor :=
  mkMonitor (repeat 0.04 60) q last.

(** The last 60 elements of a list: [l[-60:]]. *)
Definition window (l : list Q) : list Q := skipn (List.length l - 60) l.

(** The frame durations of a sequence of calls. *)
Definition durations (inputs : list (Q * Q)) : list Q := map snd inputs.

End Perf.

(** ** The quality controller in binary64: [class PerformanceMonitor] *)

Module Perf64.
Import Floats Float64.
Export Perf(Quality, high, medium, low, Quality_eqb).
Local Open Scope float_scope.

Record PerformanceMonitor : Type := mkMonitor {
  frame_times : list float;
  quality_level : Quality;
  last_adjustment : float
}.

(** [PerformanceMonitor.__init__] *)
Definition init : PerformanceMonitor := mkMonitor [] high 0.

(** [self.frame_times.append(dt)], then one [pop(0)] when more than 60
    durations are held. *)
Definition push_frame (dt : float) (ft : list float) : list float :=
  let ft' := ft ++ [dt] in
  if (60 <? List.length ft')%nat then tl ft' else ft'.

(** [sum(self.frame_times) / len(self.frame_times)]: the sum adds the
    durations one by one from the left, each addition rounding; the length
    converts to a double. *)
Definition mean (ft : list float) : float :=
  sum ft / of_Z (Z.of_nat (List.length ft)).

(** [update(self, dt)]; [now] is the value of [time.time()].  The result is
    the monitor after the call and the exception raised, if any: [1.0 / x]
    raises when [x] is a zero. *)
Definition update (now dt : float) (pm : PerformanceMonitor)
  : PerformanceMonitor * option exn :=
  let ft := push_frame dt (frame_times pm) in
  let q := quality_level pm in
  let keep := mkMonitor ft q (last_adjustment pm) in
  if 2 <? now - last_adjustment pm then
    if mean ft =? 0 then (keep, Some ZeroDivisionError)
    else
      let avg_fps := 1 / mean ft in
      if (avg_fps <? 45) && Quality_eqb q high
      then (mkMonitor ft medium now, None)
      else if (avg_fps <? 30) && Quality_eqb q medium
      then (mkMonitor ft low now, None)
      else if (55 <? avg_fps) && Quality_eqb q medium
      then (mkMonitor ft high now, None)
      else (keep, None)
  else (keep, None).

(** Successive calls, each with its clock value and its frame duration; an
    exception ends the game loop. *)
Fixpoint run (inputs : list (float * float)) (pm : PerformanceMonitor)
  : PerformanceMonitor :=
  match inputs with
  | [] => pm
  | (now, dt) :: rest =>
      match update now dt pm with
      | (pm', None) => run rest pm'
      | (pm', Some _) => pm'
      end
  end.

(** The average the evaluation of a call is made on. *)
Definition avg_fps_of (dt : float) (pm : PerformanceMonitor) : float :=
  1 / mean (push_frame dt (frame_times pm)).

(** 60 buffered frames of 0.04 s, as the test of the monitor builds them. *)
Definition slow_monitor (q : Quality) (last : float) : PerformanceMonitor :=
  mkMonitor (repeat 0.04 60) q last.

(** Five buffered frames whose computed average is just below 30 fps,
    while the real average of the six doubles is just above. *)
Definition uneven_monitor : PerformanceMonitor :=
  mkMonitor [0.019; 0.045; 0.036; 0.047; 0.014] medium 0.

End Perf64.

(** ** The deduplication of a chart over exact times:
    [ChartGenerator.remove_duplicate_notes] *)

Module Chart.

(** A note of a chart: the keys ["time"] and ["lane"], and ["energy"] when
    the note comes from [generate_chart] (its ["type"] is then ["normal"]). *)
Record ChartNote : Type := mkChartNote {
  time : Q;
  lane : Z;
  energy : option Q
}.

(** [l[-n:]] *)
Definition last_n {A : Type} (n : nat) (l : list A) : list A :=
  skipn (List.length l - n) l.

(** The stable sort of [notes.sort(key=lambda n: n["time"])]. *)
Fixpoint insert_by_time (n : ChartNote) (l : list ChartNote) : list ChartNote :=
  match l with
  | [] => [n]
  | h :: t =>
      if Qle_bool (time n) (time h) then n :: l else h :: insert_by_time n t
  end.

Definition sort_by_time (l : list ChartNote) : list ChartNote :=
  fold_right insert_by_time [] l.

(** The body of the loop of [remove_duplicate_notes]; [first] only stands
    for [filtered_notes[-1]] of an empty list, which does not occur. *)
Definition keep_step (min_gap : Q) (first : ChartNote)
    (filtered_notes : list ChartNote) (note : ChartNote) : list ChartNote :=
  let time_gap := time note - time (last filtered_notes first) in
  if Qle_bool min_gap time_gap then
    if Qle_bool (min_gap * 2) time_gap
       || negb (lane note =? lane (last filtered_notes first))%Z
    then filtered_notes ++ [note]
    else filtered_notes
  else filtered_notes.

(** The order of the sorted list. *)
Definition by_time (a b : ChartNote) : Prop := time a <= time b.

(** [remove_duplicate_notes(self, notes, min_gap)] *)
Definition remove_duplicate_notes (notes : list ChartNote) (min_gap : Q)
  : list ChartNote :=
  if (List.length notes <=? 1)%nat then notes
  else
    match sort_by_time notes with
    | [] => []
    | first :: rest => fold_left (keep_step min_gap first) rest [first]
    end.

(** What a call returns: a value, an exception, or nothing when the fuel
    given to a loop is used up. *)
Inductive result (A : Type) : Type :=
  | Ok (a : A)
  | Raise (e : exn)
  | OutOfFuel.
Arguments Ok {A} a.
Arguments Raise {A} e.
Arguments OutOfFuel {A}.

(** *** The deduplication rule in the words of the specification *)

(** After the note [prev] has been kept, a note [n] is kept if and only if
    its gap to [prev] is at least [min_gap] and either it is at least twice
    [min_gap] or the lanes differ. *)
Definition keeps (min_gap : Q) (prev n : ChartNote) : bool :=
  Qle_bool min_gap (time n - time prev)
  && (Qle_bool (2 * min_gap) (time n - time prev)
      || negb (lane n =? lane prev)%Z).

Fixpoint keep_after (min_gap : Q) (prev : ChartNote) (rest : list ChartNote)
  : list ChartNote :=
  match rest with
  | [] => []
  | n :: rest' =>
      if keeps min_gap prev n
      then n :: keep_after min_gap n rest'
      else keep_after min_gap prev rest'
  end.

(** Always keep the first note of the sorted list, then apply the rule. *)
Definition dedup (min_gap : Q) (sorted : list ChartNote) : list ChartNote :=
  match sorted with
  | [] => []
  | first :: rest => first :: keep_after min_gap first rest
  end.

(** *** Concrete inputs *)

Definition at_lane (t : Q) (l : Z) : ChartNote := mkChartNote t l None.

(** *** What a chart looks like *)

(** The rule of the loop, as a relation between a kept note and the next
    kept one. *)
Definition spaced (min_gap : Q) (a b : ChartNote) : Prop :=
  keeps min_gap a b = true.

(** [subseq l m]: [l] is [m] with some of its elements left out. *)
Inductive subseq {A : Type} : list A -> list A -> Prop :=
  | subseq_nil : subseq [] []
  | subseq_skip (x : A) (l m : list A) : subseq l m -> subseq l (x :: m)
  | subseq_keep (x : A) (l m : list A) : subseq l m -> subseq (x :: l) (x :: m).

(** A lane that [lane_weights[lane]] accepts: Python reads a negative index
    from the end. *)
Definition lane_indexable (l : Z) : Prop := (- NUM_LANES <= l < NUM_LANES)%Z.

End Chart.

(** ** The chart generator in binary64: [class ChartGenerator] *)

Module Chart64.
Import Floats Float64.
Export Chart(result, Ok, Raise, OutOfFuel, last_n, subseq, lane_indexable).
Local Open Scope float_scope.

(** The keys of an analysis that [generate_chart] reads, and [peak_times];
    a number that the analysis holds as an integer stands here as the
    double it converts to in the first operation with a double. *)
Record Analysis : Type := mkAnalysis {
  duration : float;
  bpm : float;
  energy_levels : list float;
  peak_times : list float
}.

(** A note of a chart: the keys ["time"] and ["lane"], and ["energy"] when
    the note comes from [generate_chart] (its ["type"] is then ["normal"]). *)
Record ChartNote : Type := mkChartNote {
  time : float;
  lane : Z;
  energy : option float
}.

(** [get_default_analysis] *)
Definition get_default_analysis : Analysis :=
  mkAnalysis 180 120 (repeat 0.7 180)
             (map (fun i => of_Z (Z.of_nat i * 2)) (seq 0 90)).

(** The source of randomness, by the number of the call made to it:
    [random r k] is what the [k]-th call returns when it is
    [random.random()], a double of [[0, 1)], and [randint r k] what it
    returns when it is [random.randint(0, NUM_LANES - 1)]. *)
Record Rng : Type := mkRng {
  random : nat -> float;
  randint : nat -> Z
}.

(** [random.uniform(a, b)] is [a + (b - a) * random()]. *)
Definition uniform (a b u : float) : float := a + (b - a) * u.

(** [l[i] *= f], with Python's negative indices; [None] is [IndexError]. *)
Definition scale_at (l : list float) (i : Z) (f : float) : option (list float) :=
  let len := Z.of_nat (List.length l) in
  let j := if (0 <=? i)%Z then i else (len + i)%Z in
  if (0 <=? j)%Z && (j <? len)%Z
  then Some (firstn (Z.to_nat j) l
             ++ match nth_error l (Z.to_nat j) with
                | Some x => [x * f]
                | None => []
                end
             ++ skipn (S (Z.to_nat j)) l)
  else None.

(** [for lane in recent_lanes: lane_weights[lane] *= 0.3] *)
Fixpoint penalise (lanes : list Z) (w : list float) : option (list float) :=
  match lanes with
  | [] => Some w
  | l :: rest =>
      match scale_at w l 0.3 with
      | Some w' => penalise rest w'
      | None => None
      end
  end.

(** [for i in range(NUM_LANES): if abs(i - last_lane) == 1 or
    abs(i - last_lane) == 3: lane_weights[i] *= 1.5] *)
Definition encourage (last_lane : Z) (w : list float) : list float :=
  map (fun '(i, x) =>
         if (Z.abs (i - last_lane) =? 1)%Z || (Z.abs (i - last_lane) =? 3)%Z
         then x * 1.5 else x)
      (combine [0; 1; 2; 3]%Z w).

(** The cumulative draw: the first [i] with [rand_val <= cumulative]. *)
Fixpoint pick (rand_val cumulative : float) (i : Z) (w : list float) : Z :=
  match w with
  | [] => (NUM_LANES - 1)%Z
  | x :: rest =>
      let c := cumulative + x in
      if rand_val <=? c then i else pick rand_val c (i + 1)%Z rest
  end.

(** [recent_notes] of [choose_lane_musically]: the recency test is made
    on the double [current_time - n["time"]]. *)
Definition recent_notes (current_time : float) (existing_notes : list ChartNote)
  : list ChartNote :=
  filter (fun n => current_time - time n <? 2) existing_notes.

(** [recent_lanes] of [choose_lane_musically]. *)
Definition recent_lanes (current_time : float) (existing_notes : list ChartNote)
  : list Z :=
  map lane (last_n 4 (recent_notes current_time existing_notes)).

(** [choose_lane_musically]; it makes one call to the generator: [u] is
    what it returns when the call is the [random()] of [random.uniform],
    [i] when it is [random.randint]. *)
Definition choose_lane_musically
    (current_time bpm : float) (existing_notes : list ChartNote)
    (u : float) (i : Z) : option Z :=
  let recent := recent_notes current_time existing_notes in
  match penalise (map lane (last_n 4 recent)) (repeat 1 (Z.to_nat NUM_LANES)) with
  | None => None
  | Some w =>
      let w :=
        match rev recent with
        | [] => w
        | n :: _ => encourage (lane n) w
        end in
      let total_weight := sum w in
      if total_weight =? 0
      then Some i
      else Some (pick (uniform 0 total_weight u) 0 0%Z w)
  end.

(** [notes.sort(key=lambda n: n["time"])] compares the keys with [<].
    When no key is a NaN the order is total and the result is the stable
    sorted permutation, which insertion gives; the order that the sort
    leaves when a key is a NaN is not modelled. *)
Fixpoint insert_by_time (n : ChartNote) (l : list ChartNote) : list ChartNote :=
  match l with
  | [] => [n]
  | h :: t =>
      if time h <? time n then h :: insert_by_time n t else n :: l
  end.

Definition sort_by_time (l : list ChartNote) : list ChartNote :=
  fold_right insert_by_time [] l.

(** No key of the sort is a NaN. *)
Definition no_nan (l : list ChartNote) : Prop :=
  Forall (fun n => is_nan (time n) = false) l.

(** The body of the loop of [remove_duplicate_notes]; [first] only stands
    for [filtered_notes[-1]] of an empty list, which does not occur.  The
    gap is the double [note["time"] - filtered_notes[-1]["time"]]. *)
Definition keep_step (min_gap : float) (first : ChartNote)
    (filtered_notes : list ChartNote) (note : ChartNote) : list ChartNote :=
  let time_gap := time note - time (last filtered_notes first) in
  if min_gap <=? time_gap then
    if (min_gap * 2 <=? time_gap)
       || negb (lane note =? lane (last filtered_notes first))%Z
    then filtered_notes ++ [note]
    else filtered_notes
  else filtered_notes.

(** The notes of a list whose time equals [t], in the order of the list. *)
Definition at_time (t : float) (l : list ChartNote) : list ChartNote :=
  filter (fun n => time n =? t) l.

(** The order of the sorted list. *)
Definition by_time (a b : ChartNote) : Prop := (time a <=? time b) = true.

(** [remove_duplicate_notes(self, notes, min_gap)] *)
Definition remove_duplicate_notes (notes : list ChartNote) (min_gap : float)
  : list ChartNote :=
  if (List.length notes <=? 1)%nat then notes
  else
    match sort_by_time notes with
    | [] => []
    | first :: rest => fold_left (keep_step min_gap first) rest [first]
    end.

(** [density_multipliers.get(difficulty, 0.6)] *)
Definition base_density (difficulty : string) : float :=
  if (difficulty =? "Easy")%string then 0.3
  else if (difficulty =? "Normal")%string then 0.6
  else if (difficulty =? "Hard")%string then 0.9
  else if (difficulty =? "Expert")%string then 1.2
  else 0.6.

(** [time_advance], from the draw [u] of [random.uniform(0, 0.5)]. *)
Definition time_advance (beat_interval : float) (difficulty : string) (u : float)
  : float :=
  let t := beat_interval * (0.5 + uniform 0 0.5 u) in
  if (difficulty =? "Expert")%string then t * 0.7
  else if (difficulty =? "Easy")%string then t * 1.5
  else t.

(** [while current_time < duration: ...], then the final
    [remove_duplicate_notes(notes)].  [k] counts the calls made to the
    generator so far. *)
Fixpoint chart_loop (fuel : nat) (a : Analysis) (difficulty : string)
    (beat_interval : float) (r : Rng) (k : nat) (current_time : float)
    (notes : list ChartNote) : result (list ChartNote) :=
  match fuel with
  | O => OutOfFuel
  | S fuel' =>
      if current_time <? duration a then
        match py_int current_time with
        | inr e => Raise e
        | inl z =>
            let energy_index :=
              Z.min z (Z.of_nat (List.length (energy_levels a)) - 1) in
            match py_index (energy_levels a) energy_index with
            | None => Raise IndexError
            | Some e =>
                let note_probability := base_density difficulty * e in
                if random r k <? note_probability then
                  match choose_lane_musically current_time (bpm a) notes
                          (random r (S k)) (randint r (S k)) with
                  | None => Raise IndexError
                  | Some l =>
                      chart_loop fuel' a difficulty beat_interval r (3 + k)
                        (current_time
                         + time_advance beat_interval difficulty (random r (2 + k)%nat))
                        (notes ++ [mkChartNote current_time l (Some e)])
                  end
                else
                  chart_loop fuel' a difficulty beat_interval r (2 + k)
                    (current_time
                     + time_advance beat_interval difficulty (random r (S k)))
                    notes
            end
        end
      else Ok (remove_duplicate_notes notes 0.1)
  end.

(** [generate_chart(self, analysis, difficulty)]: [60.0 / bpm] raises when
    [bpm] is a zero. *)
Definition generate_chart (fuel : nat) (a : Analysis) (difficulty : string)
    (r : Rng) : result (list ChartNote) :=
  if bpm a =? 0 then Raise ZeroDivisionError
  else chart_loop fuel a difficulty (60 / bpm a) r 0 0 [].

(** *** The deduplication rule in the words of the specification *)

(** After the note [prev] has been kept, a note [n] is kept if and only if
    its gap to [prev], the double [n.time - prev.time], is at least
    [min_gap] and either it is at least twice [min_gap] or the lanes
    differ. *)
Definition keeps (min_gap : float) (prev n : ChartNote) : bool :=
  (min_gap <=? time n - time prev)
  && ((min_gap * 2 <=? time n - time prev)
      || negb (lane n =? lane prev)%Z).

Fixpoint keep_after (min_gap : float) (prev : ChartNote) (rest : list ChartNote)
  : list ChartNote :=
  match rest with
  | [] => []
  | n :: rest' =>
      if keeps min_gap prev n
      then n :: keep_after min_gap n rest'
      else keep_after min_gap prev rest'
  end.

(** Always keep the first note of the sorted list, then apply the rule. *)
Definition dedup (min_gap : float) (sorted : list ChartNote) : list ChartNote :=
  match sorted with
  | [] => []
  | first :: rest => first :: keep_after min_gap first rest
  end.

(** The rule of the loop, as a relation between a kept note and the next
    kept one. *)
Definition spaced (min_gap : float) (a b : ChartNote) : Prop :=
  keeps min_gap a b = true.

(** *** Concrete inputs *)

Definition at_lane (t : float) (l : Z) : ChartNote := mkChartNote t l None.

(** A summary with [bpm = 0], one with no energy level, and three with a
    negative [bpm]. *)
Definition zero_bpm : Analysis := mkAnalysis 180 0 (repeat 0.7 180) [].
Definition no_energy : Analysis := mkAnalysis 180 120 [] [].
Definition negative_bpm : Analysis := mkAnalysis 180 (-120) [0.7; 0.7] [].
Definition tiny_negative_bpm : Analysis := mkAnalysis 180 (-1e-310) [0.7; 0.7] [].
Definition infinite_negative_bpm : Analysis :=
  mkAnalysis 180 neg_infinity [0.7; 0.7] [].

(** Every call to the generator returns one half, or lane 0. *)
Definition half : Rng := mkRng (fun _ => 0.5) (fun _ => 0%Z).

(** Every call returns 0.99, or lane 0: no note is placed. *)
Definition high_draws : Rng := mkRng (fun _ => 0.99) (fun _ => 0%Z).

(** A note as [generate_chart] emits it for the summary [a]. *)
Definition emitted (a : Analysis) (n : ChartNote) : Prop :=
  ((0 <=? time n) = true /\ (time n <? duration a) = true) /\
  (0 <= lane n < NUM_LANES)%Z /\
  exists e, energy n = Some e /\ In e (energy_levels a).

(** A summary with half a second of music. *)
Definition short_song : Analysis := mkAnalysis 0.5 120 [0.7; 0.9] [].

(** Every call returns one tenth, or lane 0: each iteration emits a note. *)
Definition tenth : Rng := mkRng (fun _ => 0.1) (fun _ => 0%Z).

(** The factor of a beat by which the time advances, from the draw [u]
    of [random.uniform(0, 0.5)]. *)
Definition advance_factor (u : float) : float := 0.5 + uniform 0 0.5 u.

(** The factor is a positive number, not an infinity, as it is for the
    draws of [random.random()]: between one half and one. *)
Definition steady (r : Rng) : Prop :=
  forall k, (0 <? advance_factor (random r k)) = true /\
            (advance_factor (random r k) <? infinity) = true.

(** A summary with an infinite [bpm]. *)
Definition infinite_bpm : Analysis := mkAnalysis 180 infinity [0.7; 0.7] [].

(** The chart of [short_song] under these draws. *)
Definition short_chart : list ChartNote :=
  [mkChartNote 0 0 (Some 0.7); mkChartNote 0.275 1 (Some 0.7)].

(** A summary of 0.11 s at 3750 beats per minute, and draws under which
    notes are placed at 0.008 and 0.108. *)
Definition close_song : Analysis := mkAnalysis 0.11 3750 [1] [].

Definition close_draws : Rng :=
  mkRng (fun k => nth k [0.9; 0; 0.1; 0; 0.875; 0.9; 0.875; 0.9; 0.75;
                         0.9; 0.625; 0.9; 0.75; 0.9; 0.75; 0.9; 0.875;
                         0.1; 0.99; 0.5] 0.5)
        (fun _ => 0%Z).

(** The draws of [random.random()] are not negative, and the lanes of
    [random.randint] are lanes. *)
Definition draws_ok (r : Rng) : Prop :=
  forall k, (0 <=? random r k) = true /\ (0 <= randint r k < NUM_LANES)%Z.

End Chart64.

(** ** Visual effects: [class Particle], [class BackgroundRenderer],
    the screen shake of [class VisualEffectsManager] *)

Module Fx.

Import Floats.

(** [class Particle]; [x] and [y] are the integers of the caller until the
    first [update] adds a float to them, [vx] and [vy] are drawn at
    creation. *)
Record Particle : Type := mkParticle {
  x : float;
  y : float;
  vx : float;
  vy : float;
  color : Z * Z * Z;
  life : Z;
  max_life : Z
}.

(** [Particle.__init__]; [u1], [u2] are what [random.random()] returns
    inside [random.uniform(-3, 3)] and [random.uniform(-5, -2)], which
    compute [a + (b - a) * random()]. *)
Definition new_particle (x0 y0 : float) (c : Z * Z * Z) (u1 u2 : float)
  : Particle :=
  mkParticle x0 y0 (-3 + 6 * u1)%float (-5 + 3 * u2)%float c 60 60.

(** [Particle.update]: the particle after the call and what it returns. *)
Definition update (p : Particle) : Particle * bool :=
  let p' := mkParticle (x p + vx p)%float (y p + vy p)%float (vx p)
                       (vy p + 0.1)%float
                       (color p) (life p - 1) (max_life p) in
  (p', (0 <? life p')%Z).

(** The particle after one [update]. *)
Definition step (p : Particle) : Particle := fst (update p).

(** [self.particles = [p for p in self.particles if p.update()]] *)
Fixpoint update_particles (ps : list Particle) : list Particle :=
  match ps with
  | [] => []
  | p :: rest =>
      let '(p', alive) := update p in
      if alive then p' :: update_particles rest else update_particles rest
  end.

(** [k] calls in a row. *)
Fixpoint after {A : Type} (f : A -> A) (k : nat) (a : A) : A :=
  match k with
  | O => a
  | S k' => after f k' (f a)
  end.

(** [x] after [k] updates: [vx] is added [k] times, each sum rounded. *)
Fixpoint drift (k : nat) (x vx : float) : float :=
  match k with
  | O => x
  | S k' => drift k' (x + vx)%float vx
  end.

(** [y] and [vy] after [k] updates: [vy] is added to [y], then 0.1 to
    [vy], each sum rounded. *)
Fixpoint fall (k : nat) (y vy : float) : float * float :=
  match k with
  | O => (y, vy)
  | S k' => fall k' (y + vy)%float (vy + 0.1)%float
  end.

(** The eight particles of a hit, as [hit_note_in_lane] appends them; [u]
    gives the draws. *)
Definition burst (x0 y0 : float) (c : Z * Z * Z) (u : nat -> float)
  : list Particle :=
  map (fun i => new_particle x0 y0 c (u (2 * i)%nat) (u (2 * i + 1)%nat))
      (seq 0 8).

(** [BackgroundRenderer]: the fields that [update] writes.  The bars are
    followed by their exact values. *)
Record BackgroundRenderer : Type := mkBackground {
  time : float;
  spectrum_bars : list Q
}.

(** [BackgroundRenderer.__init__] *)
Definition new_background : BackgroundRenderer :=
  mkBackground 0%float (repeat 0 32).

(** [for i in range(len(self.spectrum_bars)): ...]; [r (k + i)] is the draw
    behind [random.uniform(0, 1)] for bar [i]. *)
Fixpoint update_bars (r : nat -> Q) (k : nat) (bars : list Q) : list Q :=
  match bars with
  | [] => []
  | b :: rest =>
      let target := (0 + (1 - 0) * r k) * 200 in
      (b + (target - b) * 0.1) :: update_bars r (S k) rest
  end.

(** [BackgroundRenderer.update(dt)] *)
Definition update_background (dt : float) (r : nat -> Q) (k : nat)
    (b : BackgroundRenderer) : BackgroundRenderer :=
  mkBackground (time b + dt)%float (update_bars r k (spectrum_bars b)).

(** [color_intensity = int(height / 200 * 255)] of [draw_spectrum]. *)
Definition color_intensity (height : Q) : Z := py_int (height / 200 * 255).

(** A session of the background: the frame durations, each with the
    position of its first draw. *)
Fixpoint run_background (r : nat -> Q) (k : nat) (dts : list float)
    (b : BackgroundRenderer) : BackgroundRenderer :=
  match dts with
  | [] => b
  | dt :: rest =>
      run_background r (k + List.length (spectrum_bars b)) rest
                     (update_background dt r k b)
  end.

(** [self.screen_shake] of [VisualEffectsManager]. *)
Record Shake : Type := mkShake {
  intensity : Z;
  shake_duration : Z
}.

(** The shake of [VisualEffectsManager.__init__]. *)
Definition still : Shake := mkShake 0 0.

(** [add_screen_shake(intensity, duration)] *)
Definition add_screen_shake (i d : Z) (s : Shake) : Shake :=
  mkShake (Z.max (intensity s) i) (Z.max (shake_duration s) d).

(** The part of [update_effects] under [# Update screen shake]; the part
    above it touches [self.effects] only. *)
Definition update_shake (s : Shake) : Shake :=
  if (0 <? shake_duration s)%Z then
    let d := (shake_duration s - 1)%Z in
    if (d <=? 0)%Z then mkShake 0 d else mkShake (intensity s) d
  else s.

(** [get_screen_offset]; [ox], [oy] are what the two calls of
    [random.randint(-intensity, intensity)] return. *)
Definition get_screen_offset (ox oy : Z) (s : Shake) : Z * Z :=
  if (0 <? intensity s)%Z then (ox, oy) else (0, 0)%Z.

(** The calls that reach the screen shake: [add_note_hit_effect] (it calls
    [add_screen_shake(2, 5)]), [add_combo_effect] at a multiple of 10 (it
    calls [add_screen_shake(5, 10)]) and [update_effects]. *)
Inductive ShakeCall : Type := NoteHit | ComboMilestone | UpdateEffects.

Definition shake_call (c : ShakeCall) (s : Shake) : Shake :=
  match c with
  | NoteHit => add_screen_shake 2 5 s
  | ComboMilestone => add_screen_shake 5 10 s
  | UpdateEffects => update_shake s
  end.

Definition shake_calls (cs : list ShakeCall) (s : Shake) : Shake :=
  fold_left (fun s c => shake_call c s) cs s.

(** The screen is still, or shakes with a bounded strength and time. *)
Definition shake_ok (s : Shake) : Prop :=
  (intensity s = 0 /\ shake_duration s = 0)%Z \/
  (0 < intensity s <= 5 /\ 0 < shake_duration s <= 10)%Z.

End Fx.


(** ** Menus and game states: [class MenuSystem], [class GameStateManager] *)

Module Menu.

(** [self.current_menu], one of ["main"], ["settings"], ["song_selection"]:
    the keys of [self.menu_options]. *)
Inductive MenuName : Type := main | settings | song_selection.

(** The keys that [handle_menu_input] tells apart. *)
Inductive Key : Type := K_UP | K_DOWN | K_RETURN | K_ESCAPE | K_other.

(** A pygame event: a [KEYDOWN] with its key, or any other event. *)
Inductive Event : Type := KEYDOWN (k : Key) | other_event.

(** [song_options] is [self.menu_options["song_selection"]], which
    [__init__] leaves empty. *)
Record MenuSystem : Type := mkMenu {
  current_menu : MenuName;
  selected_option : Z;
  song_options : list string
}.

(** [MenuSystem.__init__] *)
Definition init : MenuSystem := mkMenu main 0 [].

(** [self.menu_options[name]] *)
Definition menu_options (m : MenuSystem) (name : MenuName) : list string :=
  match name with
  | main => ["Play"; "Song Selection"; "Settings"; "Exit"]%string
  | settings =>
      ["Resolution"; "Fullscreen"; "Audio Volume"; "Performance Mode"; "Back"]%string
  | song_selection => song_options m
  end.

(** [self.menu_options[self.current_menu]] *)
Definition options (m : MenuSystem) : list string :=
  menu_options m (current_menu m).

(** What a call does: it returns a string, or raises; the menu is the one
    after the call. *)
Inductive outcome : Type :=
  | Returns (s : string) (m : MenuSystem)
  | Raises (e : exn) (m : MenuSystem).

(** [str.lower()] and [str.replace(' ', '_')] on ASCII text, which the
    option names of the settings menu are. *)
Definition lower_ascii (c : ascii) : ascii :=
  let n := nat_of_ascii c in
  if (65 <=? n)%nat && (n <=? 90)%nat then ascii_of_nat (n + 32) else c.

Fixpoint map_string (f : ascii -> ascii) (s : string) : string :=
  match s with
  | EmptyString => EmptyString
  | String c s' => String (f c) (map_string f s')
  end.

Definition lower (s : string) : string := map_string lower_ascii s.

Definition replace_space (s : string) : string :=
  map_string (fun c => if Ascii.eqb c " "%char then "_"%char else c) s.

(** [str(i)] on an integer. *)
Definition str (i : Z) : string := NilZero.string_of_int (Z.to_int i).

(** [activate_menu_option] *)
Definition activate_menu_option (m : MenuSystem) : outcome :=
  let opts := options m in
  if (selected_option m <? Z.of_nat (List.length opts))%Z then
    match py_index opts (selected_option m) with
    | None => Raises IndexError m
    | Some selected =>
        match current_menu m with
        | main =>
            if (selected =? "Play")%string then Returns "start_game" m
            else if (selected =? "Song Selection")%string
            then Returns "none" (mkMenu song_selection 0 (song_options m))
            else if (selected =? "Settings")%string
            then Returns "none" (mkMenu settings 0 (song_options m))
            else if (selected =? "Exit")%string then Returns "exit" m
            else Returns "none" m
        | settings =>
            if (selected =? "Back")%string
            then Returns "none" (mkMenu main 0 (song_options m))
            else Returns ("setting_" ++ replace_space (lower selected)) m
        | song_selection =>
            if (selected =? "Back")%string
            then Returns "none" (mkMenu main 0 (song_options m))
            else Returns ("select_song_" ++ str (selected_option m)) m
        end
    end
  else Returns "none" m.

(** [a % n] with the exception of Python when [n] is zero. *)
Definition py_mod (a n : Z) : option Z :=
  if (n =? 0)%Z then None else Some (a mod n)%Z.

(** [handle_menu_input(event)] *)
Definition handle_menu_input (ev : Event) (m : MenuSystem) : outcome :=
  match ev with
  | KEYDOWN K_UP =>
      match py_mod (selected_option m - 1) (Z.of_nat (List.length (options m))) with
      | None => Raises ZeroDivisionError m
      | Some i => Returns "none" (mkMenu (current_menu m) i (song_options m))
      end
  | KEYDOWN K_DOWN =>
      match py_mod (selected_option m + 1) (Z.of_nat (List.length (options m))) with
      | None => Raises ZeroDivisionError m
      | Some i => Returns "none" (mkMenu (current_menu m) i (song_options m))
      end
  | KEYDOWN K_RETURN => activate_menu_option m
  | KEYDOWN K_ESCAPE =>
      match current_menu m with
      | main => Returns "exit" m
      | _ => Returns "none" (mkMenu main 0 (song_options m))
      end
  | _ => Returns "none" m
  end.

(** The menu after a call. *)
Definition menu_after (o : outcome) : MenuSystem :=
  match o with Returns _ m => m | Raises _ m => m end.

(** The selection is an index of the options of the current menu, or it is
    0 and the menu has no option. *)
Definition selection_ok (m : MenuSystem) : Prop :=
  (0 <= selected_option m < Z.of_nat (List.length (options m)))%Z \/
  (options m = [] /\ selected_option m = 0%Z).

(** [class GameStateManager] *)
Record GameStateManager : Type := mkStates {
  current_state : string;
  previous_state : string;
  state_transition_time : Z;
  transition_duration : Z
}.

(** [GameStateManager.__init__] *)
Definition new_states : GameStateManager := mkStates "menu" "menu" 0 500.

(** [change_state(new_state)]; [ticks] is [pygame.time.get_ticks()]. *)
Definition change_state (new_state : string) (ticks : Z) (g : GameStateManager)
  : GameStateManager :=
  if negb (new_state =? current_state g)%string
  then mkStates new_state (current_state g) ticks (transition_duration g)
  else g.



(** Successive calls of [change_state], each with its clock value. *)
Definition change_states (cs : list (string * Z)) (g : GameStateManager)
  : GameStateManager :=
  fold_left (fun g c => change_state (fst c) (snd c) g) cs g.

End Menu.


(** ** Configuration: [class ConfigManager] *)

Module Config.
Import Floats.

(** What [json.load] gives: [None], booleans, integers, floats (a NaN and
    the two infinities among them, which it reads from [NaN], [Infinity]
    and [-Infinity]), strings, lists and dictionaries with string keys.  A
    dictionary is the list of its items in insertion order. *)
#[warnings="-register-all"]
Inductive value : Type :=
  | VNone
  | VBool (b : bool)
  | VInt (z : Z)
  | VFloat (x : float)
  | VStr (s : string)
  | VList (l : list value)
  | VDict (d : list (string * value)).

Definition dict : Type := list (string * value).

(** [d.get(k)] *)
Fixpoint lookup (d : dict) (k : string) : option value :=
  match d with
  | [] => None
  | (k', v) :: rest => if (k' =? k)%string then Some v else lookup rest k
  end.

(** [d[k] = v]: the item keeps its place when the key is there, and goes
    to the end when it is not. *)
Fixpoint insert (d : dict) (k : string) (v : value) : dict :=
  match d with
  | [] => [(k, v)]
  | (k', v') :: rest =>
      if (k' =? k)%string then (k', v) :: rest else (k', v') :: insert rest k v
  end.

(** [self.default_config] *)
Definition default_config : value :=
  VDict [
    ("display", VDict [("width", VInt WINDOW_WIDTH); ("height", VInt WINDOW_HEIGHT);
                       ("fullscreen", VBool false); ("vsync", VBool true)]);
    ("audio", VDict [("master_volume", VFloat 0.8%float);
                     ("music_volume", VFloat 0.7%float);
                     ("sfx_volume", VFloat 0.9%float); ("audio_buffer", VInt 512)]);
    ("gameplay", VDict [("note_speed_multiplier", VFloat 1.0%float);
                        ("hit_tolerance", VInt HIT_TOLERANCE);
                        ("show_fps", VBool false); ("auto_play", VBool false)]);
    ("performance", VDict [("quality_mode", VStr "auto"); ("particle_limit", VInt 100);
                           ("effect_quality", VStr "high");
                           ("background_complexity", VStr "high")]);
    ("controls", VDict [("lane_1", VStr "d"); ("lane_2", VStr "f");
                        ("lane_3", VStr "j"); ("lane_4", VStr "k");
                        ("pause", VStr "space"); ("menu", VStr "escape")])
  ]%string.

(** [get(section, key, default)]: a value that has no [get], where a
    dictionary is expected, raises [AttributeError], which is caught. *)
Definition get (config : value) (section key : string) (default : value)
  : value :=
  match config with
  | VDict d =>
      match (match lookup d section with Some v => v | None => VDict [] end) with
      | VDict sec =>
          match lookup sec key with Some v => v | None => default end
      | _ => default
      end
  | _ => default
  end.

(** [set(section, key, value)]: the [TypeError] of an item assignment on a
    value that is not a dictionary is caught, and nothing is written. *)
Definition set (config : value) (section key : string) (v : value) : value :=
  match config with
  | VDict d =>
      let d1 := match lookup d section with
                | None => insert d section (VDict [])
                | Some _ => d
                end in
      match lookup d1 section with
      | Some (VDict sec) => VDict (insert d1 section (VDict (insert sec key v)))
      | _ => VDict d1
      end
  | _ => config
  end.

(** [v[k]]; [None] is the [KeyError] or [TypeError] it raises when [v] is
    not a dictionary with that key. *)
Definition getitem (v : value) (k : string) : option value :=
  match v with
  | VDict d => lookup d k
  | _ => None
  end.

(** [v[k] = x]; [None] is the [TypeError] of a value that is not a
    dictionary. *)
Definition setitem (v : value) (k : string) (x : value) : option value :=
  match v with
  | VDict d => Some (VDict (insert d k x))
  | _ => None
  end.

(** [config[section][key]] *)
Definition entry (config : value) (section key : string) : option value :=
  match getitem config section with
  | Some sec => getitem sec key
  | None => None
  end.

(** [config[section][key] = x] *)
Definition set_entry (config : value) (section key : string) (x : value)
  : option value :=
  match getitem config section with
  | Some sec =>
      match setitem sec key x with
      | Some sec' => setitem config section sec'
      | None => None
      end
  | None => None
  end.

(** A number as a comparison sees it: Python compares booleans, integers
    and floats with one another by their exact values, an infinity is
    beyond every one of them, and a NaN is neither below nor above
    anything. *)
Inductive num : Type :=
  | Fin (q : Q)
  | Inf (negative : bool)
  | NaN.

Definition float_num (x : float) : num :=
  match Prim2SF x with
  | S754_nan => NaN
  | S754_infinity s => Inf s
  | _ => Fin (Float64.to_Q x)
  end.

(** [a < b] on numbers. *)
Definition num_lt (a b : num) : bool :=
  match a, b with
  | NaN, _ | _, NaN => false
  | Fin p, Fin q => Qlt_bool p q
  | Fin _, Inf negative => negb negative
  | Inf negative, Fin _ => negative
  | Inf negative, Inf negative' => negative && negb negative'
  end.

(** The number a value stands for in a comparison with a number; [None] is
    the [TypeError] of the other values. *)
Definition as_num (v : value) : option num :=
  match v with
  | VBool b => Some (Fin (if b then 1 else 0))
  | VInt z => Some (Fin (inject_Z z))
  | VFloat x => Some (float_num x)
  | _ => None
  end.

(** [min(c, x)] and [max(c, x)] for a number [c]: [x] is returned when
    [x < c], respectively [x > c], and [c] otherwise, so that the first
    argument wins a tie and a NaN [x] is never returned. *)
Definition py_min (c x : value) : option value :=
  match as_num c, as_num x with
  | Some cn, Some xn => Some (if num_lt xn cn then x else c)
  | _, _ => None
  end.

Definition py_max (c x : value) : option value :=
  match as_num c, as_num x with
  | Some cn, Some xn => Some (if num_lt cn xn then x else c)
  | _, _ => None
  end.

(** [max(lo, min(hi, x))] *)
Definition clamp (lo hi x : value) : option value :=
  match py_min hi x with
  | Some r => py_max lo r
  | None => None
  end.

(** [if config[s][k] < floor: config[s][k] = floor] *)
Definition raise_to (floor : Z) (x : value) : option value :=
  match as_num x with
  | Some n => Some (if num_lt n (Fin (inject_Z floor)) then VInt floor else x)
  | None => None
  end.

(** [valid_quality_modes] *)
Definition valid_quality_modes : list string :=
  ["auto"; "high"; "medium"; "low"]%string.

(** [if x not in valid_quality_modes: ... = "auto"] *)
Definition fix_quality (x : value) : option value :=
  match x with
  | VStr s =>
      if existsb (String.eqb s) valid_quality_modes
      then Some x else Some (VStr "auto")
  | _ => Some (VStr "auto")
  end.

(** One statement of [validate_config]: read an entry, compute, write. *)
Definition amend (section key : string) (f : value -> option value)
    (config : value) : option value :=
  match entry config section key with
  | Some x =>
      match f x with
      | Some x' => set_entry config section key x'
      | None => None
      end
  | None => None
  end.

(** The statements of [validate_config], in their order. *)
Definition checks : list (string * string * (value -> option value)) :=
  [ ("display", "width", raise_to 800);
    ("display", "height", raise_to 600);
    ("audio", "master_volume", clamp (VFloat 0.0%float) (VFloat 1.0%float));
    ("audio", "music_volume", clamp (VFloat 0.0%float) (VFloat 1.0%float));
    ("audio", "sfx_volume", clamp (VFloat 0.0%float) (VFloat 1.0%float));
    ("gameplay", "note_speed_multiplier",
     clamp (VFloat 0.1%float) (VFloat 3.0%float));
    ("gameplay", "hit_tolerance", clamp (VInt 10) (VInt 100));
    ("performance", "quality_mode", fix_quality);
    ("performance", "particle_limit", clamp (VInt 10) (VInt 500)) ]%string.

(** The body of the [try]: [None] when a statement raises. *)
Fixpoint run_checks (cs : list (string * string * (value -> option value)))
    (config : value) : option value :=
  match cs with
  | [] => Some config
  | (s, k, f) :: rest =>
      match amend s k f config with
      | Some config' => run_checks rest config'
      | None => None
      end
  end.

(** [validate_config(config)] *)
Definition validate_config (config : value) : value :=
  match run_checks checks config with
  | Some config' => config'
  | None => default_config
  end.

(** What [validate_config] establishes for a numeric entry: a finite
    number between two bounds; a number that is not below a bound, finite
    or the positive infinity; a NaN, which no comparison moves. *)
Definition within (lo hi : Q) (x : value) : Prop :=
  exists q, as_num x = Some (Fin q) /\ lo <= q /\ q <= hi.

Definition at_least (lo : Q) (x : value) : Prop :=
  (exists q, as_num x = Some (Fin q) /\ lo <= q) \/
  as_num x = Some (Inf false).

Definition nan_valued (x : value) : Prop := as_num x = Some NaN.

Definition nan_or_at_least (lo : Q) (x : value) : Prop :=
  at_least lo x \/ nan_valued x.

Definition quality_mode_ok (x : value) : Prop :=
  exists s, x = VStr s /\ In s valid_quality_modes.

(** The entry is there and has the property. *)
Definition entry_is (config : value) (section key : string)
    (P : value -> Prop) : Prop :=
  exists x, entry config section key = Some x /\ P x.

(** A configuration whose nine checked entries are there, seven of them in
    their bounds and the width and the height not below theirs, or a
    NaN. *)
Definition valid (c : value) : Prop :=
  entry_is c "display" "width" (nan_or_at_least 800) /\
  entry_is c "display" "height" (nan_or_at_least 600) /\
  entry_is c "audio" "master_volume" (within 0 1) /\
  entry_is c "audio" "music_volume" (within 0 1) /\
  entry_is c "audio" "sfx_volume" (within 0 1) /\
  entry_is c "gameplay" "note_speed_multiplier"
           (within (Float64.to_Q 0.1%float) 3) /\
  entry_is c "gameplay" "hit_tolerance" (within 10 100) /\
  entry_is c "performance" "quality_mode" quality_mode_ok /\
  entry_is c "performance" "particle_limit" (within 10 500).

(** The section and key of a check. *)
Definition check_key (c : string * string * (value -> option value))
  : string * string := fst c.

(** The configuration of the test suite: a display section only. *)
Definition small_display : value :=
  VDict [("display", VDict [("width", VInt 100); ("height", VInt 100)])]%string.

(** A configuration on which a statement of [validate_config] raises: an
    entry is missing, or its value makes the computation raise. *)
Definition malformed (c : value) : Prop :=
  exists s k f, In (s, k, f) checks /\
    (entry c s k = None \/ exists x, entry c s k = Some x /\ f x = None).

(** The four sections that [validate_config] writes to. *)
Definition checked_sections : list string :=
  ["display"; "audio"; "gameplay"; "performance"]%string.

(** A configuration with a width that is a NaN, and one with a width and
    a volume that are infinite. *)
Definition nan_width : value :=
  match set_entry default_config "display" "width" (VFloat nan) with
  | Some c => c
  | None => VNone
  end.

Definition infinite_width : value :=
  match set_entry default_config "display" "width" (VFloat infinity) with
  | Some c =>
      match set_entry c "audio" "master_volume" (VFloat neg_infinity) with
      | Some c' => c'
      | None => VNone
      end
  | None => VNone
  end.

(** A configuration with a width that is a string. *)
Definition text_width : value :=
  match set_entry default_config "display" "width" (VStr "1920") with
  | Some c => c
  | None => VNone
  end.

(** A configuration out of bounds everywhere, with an entry of its own. *)
Definition wild : value :=
  VDict [
    ("display", VDict [("width", VInt 640); ("height", VFloat 480.5%float)]);
    ("audio", VDict [("master_volume", VInt 7);
                     ("music_volume", VFloat (-0.5)%float);
                     ("sfx_volume", VBool true)]);
    ("gameplay", VDict [("note_speed_multiplier", VInt 0);
                        ("hit_tolerance", VInt 1000)]);
    ("performance", VDict [("quality_mode", VStr "ultra");
                           ("particle_limit", VInt 3)]);
    ("mods", VDict [("skin", VStr "retro")])
  ]%string.

(** A configuration in which [set(section, ...)] can write: a dictionary
    whose entry for the section is missing or is a dictionary. *)
Definition writable (config : value) (section : string) : Prop :=
  exists d, config = VDict d /\
    (lookup d section = None \/ exists sec, lookup d section = Some (VDict sec)).

(** The loop of [merge_configs] over [loaded.items()], [merge] being the
    recursive call. *)
Definition merge_items (merge : value -> value -> value)
  : dict -> dict -> dict :=
  fix go (loaded result : dict) {struct loaded} : dict :=
    match loaded with
    | [] => result
    | (key, v) :: rest =>
        go rest
           (match lookup result key with
            | Some (VDict r) =>
                match v with
                | VDict _ => insert result key (merge (VDict r) v)
                | _ => insert result key v
                end
            | _ => insert result key v
            end)
    end.

(** [merge_configs(default, loaded)] on two dictionaries, as values. *)
Fixpoint merge_value (default loaded : value) {struct loaded} : value :=
  match loaded with
  | VDict l =>
      match default with
      | VDict d => VDict (merge_items merge_value l d)
      | _ => loaded
      end
  | _ => loaded
  end.

(** [merge_configs(default, loaded)] *)
Definition merge_configs (default loaded : dict) : dict :=
  merge_items merge_value loaded default.

(** What the merge leaves under a key that [loaded] has: the merge of the
    two values when both are dictionaries, the loaded value otherwise. *)
Definition merged (old : option value) (v : value) : value :=
  match old, v with
  | Some (VDict r), VDict l => VDict (merge_configs r l)
  | _, _ => v
  end.

End Config.


(** ** The song library: [SongManager.remove_duplicate_songs] *)

Module Songs.

(** The dictionary that [get_song_info] builds for a file. *)
Record Song : Type := mkSong {
  path : string;
  filename : string;
  title : string;
  artist : string;
  album : string;
  duration : Z;
  size : Z;
  format : string
}.

Definition identifier_eqb (a b : string * Z) : bool :=
  (fst a =? fst b)%string && (snd a =? snd b)%Z.

Section Dedup.

(** [str.lower], which Python defines on all of Unicode. *)
Variable lower : string -> string.

(** [(song["filename"].lower(), song["size"])] *)
Definition identifier (s : Song) : string * Z := (lower (filename s), size s).

(** [for song in songs: ...], with [seen_songs] as the list of its
    elements and [unique_songs]. *)
Fixpoint dedup_loop (songs : list Song) (seen_songs : list (string * Z))
    (unique_songs : list Song) : list Song :=
  match songs with
  | [] => unique_songs
  | song :: rest =>
      if existsb (identifier_eqb (identifier song)) seen_songs
      then dedup_loop rest seen_songs unique_songs
      else dedup_loop rest (identifier song :: seen_songs)
                      (unique_songs ++ [song])
  end.

(** [remove_duplicate_songs(songs)] *)
Definition remove_duplicate_songs (songs : list Song) : list Song :=
  dedup_loop songs [] [].

(** The songs that the loop appends when it starts with [seen]. *)
Fixpoint fresh (seen : list (string * Z)) (songs : list Song) : list Song :=
  match songs with
  | [] => []
  | song :: rest =>
      if existsb (identifier_eqb (identifier song)) seen
      then fresh seen rest
      else song :: fresh (identifier song :: seen) rest
  end.

End Dedup.

(** ASCII lower case: the letters A to Z. *)
Definition ascii_lower : string -> string := Menu.lower.

End Songs.


(** * Facts *)

(** ** Comparisons and truncation of exact numbers *)

Lemma Qlt_bool_iff (a b : Q) : Qlt_bool a b = true <-> a < b.
Proof.
  unfold Qlt_bool. rewrite negb_true_iff.
  split; intro H.
  - apply Qnot_le_lt. intro Hle. apply Qle_bool_iff in Hle. congruence.
  - destruct (Qle_bool b a) eqn:E; [|reflexivity].
    apply Qle_bool_iff in E. exfalso. apply (Qlt_not_le _ _ H E).
Qed.

Lemma Qlt_bool_false_iff (a b : Q) : Qlt_bool a b = false <-> b <= a.
Proof.
  unfold Qlt_bool. rewrite negb_false_iff. apply Qle_bool_iff.
Qed.

Lemma py_int_le (x : Q) (z : Z) : x <= inject_Z z -> (py_int x <= z)%Z.
Proof.
  destruct x as [n d]. unfold py_int, Qle. simpl. intro H.
  rewrite Z.mul_1_r in H.
  rewrite <- (Z.quot_mul z (Zpos d)) by discriminate.
  apply Z.quot_le_mono; [reflexivity|assumption].
Qed.

Lemma py_int_nonneg (x : Q) : 0 <= x -> (0 <= py_int x)%Z.
Proof.
  destruct x as [n d]. unfold py_int, Qle. simpl. intro H.
  apply Z.quot_pos; lia.
Qed.

(** ** Binary64 numbers *)

Module Float64Facts.
Import Floats Float64.
Local Open Scope float_scope.

(** *** The order of [SFcompare] *)

Lemma SFcompare_antisym (x y : spec_float) :
  SFcompare y x = option_map CompOpp (SFcompare x y).
Proof.
  destruct x as [[]|[]| |[] m e], y as [[]|[]| |[] m' e']; simpl; try reflexivity.
  - rewrite (Z.compare_antisym e e'). destruct (e ?= e')%Z; simpl; try reflexivity.
    rewrite (Pos.compare_cont_antisym m m'). simpl.
    destruct (Pos.compare_cont Eq m m'); reflexivity.
  - rewrite (Z.compare_antisym e e'). destruct (e ?= e')%Z; simpl; try reflexivity.
    rewrite (Pos.compare_cont_antisym m m'). simpl.
    destruct (Pos.compare_cont Eq m m'); reflexivity.
Qed.

Lemma lex_cases (e e' : Z) (m m' : positive) :
  ((e < e')%Z /\ (e ?= e')%Z = Lt) \/
  ((e' < e)%Z /\ (e ?= e')%Z = Gt) \/
  (e = e' /\ (e ?= e')%Z = Eq /\
   (((m < m')%positive /\ Pos.compare_cont Eq m m' = Lt) \/
    ((m' < m)%positive /\ Pos.compare_cont Eq m m' = Gt) \/
    (m = m' /\ Pos.compare_cont Eq m m' = Eq))).
Proof.
  change (Pos.compare_cont Eq m m') with (Pos.compare m m').
  destruct (Z.compare_spec e e'); [right; right | left | right; left]; auto.
  split; [assumption|split; [reflexivity|]].
  destruct (Pos.compare_spec m m'); [right; right | left | right; left]; auto.
Qed.

Lemma SFcompare_trans (x y z : spec_float) :
  SFle x y -> SFle y z -> SFle x z /\
  (SFlt x y \/ SFlt y z -> SFlt x z).
Proof.
  unfold SFle, SFlt.
  destruct x as [[]|[]| |[] m1 e1], y as [[]|[]| |[] m2 e2], z as [[]|[]| |[] m3 e3];
    simpl; intros H1 H2;
    try (destruct H1 as [H1|H1]; discriminate H1);
    try (destruct H2 as [H2|H2]; discriminate H2);
    try (split; [auto | intros [H|H]; try reflexivity; try discriminate H]; fail).
  all: destruct (lex_cases e1 e2 m1 m2) as [[A1 A2]|[[A1 A2]|[A1 [A2 [[A3 A4]|[[A3 A4]|[A3 A4]]]]]]];
       rewrite A2 in *; try rewrite A4 in *; simpl in *;
       try (destruct H1 as [H1|H1]; discriminate H1).
  all: destruct (lex_cases e2 e3 m2 m3) as [[B1 B2]|[[B1 B2]|[B1 [B2 [[B3 B4]|[[B3 B4]|[B3 B4]]]]]]];
       rewrite B2 in *; try rewrite B4 in *; simpl in *;
       try (destruct H2 as [H2|H2]; discriminate H2).
  all: destruct (lex_cases e1 e3 m1 m3) as [[C1 C2]|[[C1 C2]|[C1 [C2 [[C3 C4]|[[C3 C4]|[C3 C4]]]]]]];
       rewrite C2; try rewrite C4; simpl; try lia.
  all: try (split; [auto | intros [H|H]; try reflexivity; try discriminate H]; fail).
Qed.

Lemma SFcompare_refl (x : spec_float) :
  x <> S754_nan -> SFcompare x x = Some Eq.
Proof.
  destruct x as [[]|[]| |[] m e]; simpl; intros H; try reflexivity;
    try (exfalso; apply H; reflexivity).
  - rewrite Z.compare_refl.
    change (Pos.compare_cont Eq m m) with (Pos.compare m m).
    rewrite Pos.compare_refl. reflexivity.
  - rewrite Z.compare_refl.
    change (Pos.compare_cont Eq m m) with (Pos.compare m m).
    rewrite Pos.compare_refl. reflexivity.
Qed.

Lemma SFcompare_nan (x y : spec_float) :
  SFcompare x y = None <-> x = S754_nan \/ y = S754_nan.
Proof.
  destruct x as [[]|[]| |[] m e], y as [[]|[]| |[] m' e']; simpl;
    split; intros H; try discriminate H; try reflexivity; auto;
    destruct H as [H|H]; discriminate H.
Qed.

(** *** Comparisons of doubles *)

Lemma leb_SFle (x y : float) :
  (x <=? y) = true <-> SFle (Prim2SF x) (Prim2SF y).
Proof.
  rewrite leb_spec. unfold SFleb, SFle.
  destruct (SFcompare (Prim2SF x) (Prim2SF y)) as [[]|]; split; intros H;
    try discriminate H; auto; destruct H as [H|H]; discriminate H.
Qed.

Lemma ltb_SFlt (x y : float) :
  (x <? y) = true <-> SFlt (Prim2SF x) (Prim2SF y).
Proof.
  rewrite ltb_spec. unfold SFltb, SFlt.
  destruct (SFcompare (Prim2SF x) (Prim2SF y)) as [[]|]; split; intros H;
    try discriminate H; auto.
Qed.

Lemma is_nan_spec (x : float) :
  is_nan x = true <-> Prim2SF x = S754_nan.
Proof.
  unfold is_nan. rewrite eqb_spec. unfold SFeqb. split.
  - intros H. destruct (Prim2SF x) eqn:E; try reflexivity;
      rewrite SFcompare_refl in H by discriminate; discriminate H.
  - intros ->. reflexivity.
Qed.

Lemma not_nan_spec (x : float) :
  is_nan x = false <-> Prim2SF x <> S754_nan.
Proof.
  rewrite <- is_nan_spec. destruct (is_nan x); split; congruence.
Qed.

Lemma ltb_leb (x y : float) : (x <? y) = true -> (x <=? y) = true.
Proof. rewrite ltb_SFlt, leb_SFle. unfold SFlt, SFle. auto. Qed.

Lemma leb_trans (x y z : float) :
  (x <=? y) = true -> (y <=? z) = true -> (x <=? z) = true.
Proof.
  rewrite !leb_SFle. intros H1 H2.
  apply (SFcompare_trans _ _ _ H1 H2).
Qed.

Lemma ltb_leb_trans (x y z : float) :
  (x <? y) = true -> (y <=? z) = true -> (x <? z) = true.
Proof.
  rewrite !ltb_SFlt, leb_SFle. intros H1 H2.
  apply (SFcompare_trans (Prim2SF x) (Prim2SF y) (Prim2SF z)); unfold SFle, SFlt in *; auto.
Qed.

Lemma leb_ltb_trans (x y z : float) :
  (x <=? y) = true -> (y <? z) = true -> (x <? z) = true.
Proof.
  rewrite !ltb_SFlt, leb_SFle. intros H1 H2.
  apply (SFcompare_trans (Prim2SF x) (Prim2SF y) (Prim2SF z)); unfold SFle, SFlt in *; auto.
Qed.

Lemma ltb_trans (x y z : float) :
  (x <? y) = true -> (y <? z) = true -> (x <? z) = true.
Proof. intros H1 H2. apply (ltb_leb_trans x y z H1), ltb_leb, H2. Qed.

Lemma leb_not_nan (x y : float) :
  (x <=? y) = true -> is_nan x = false /\ is_nan y = false.
Proof.
  rewrite leb_SFle, !not_nan_spec. unfold SFle. intros H.
  split; intros E; rewrite E in H;
    destruct (Prim2SF x), (Prim2SF y); simpl in H; destruct H as [H|H]; discriminate H.
Qed.

Lemma ltb_not_nan (x y : float) :
  (x <? y) = true -> is_nan x = false /\ is_nan y = false.
Proof. intros H. apply leb_not_nan, ltb_leb, H. Qed.

Lemma leb_refl (x : float) : is_nan x = false -> (x <=? x) = true.
Proof.
  rewrite not_nan_spec, leb_SFle. intros H. right. apply SFcompare_refl, H.
Qed.

(** Two doubles that are not NaN are comparable. *)
Lemma ltb_false_leb (x y : float) :
  is_nan x = false -> is_nan y = false -> (x <? y) = false -> (y <=? x) = true.
Proof.
  rewrite !not_nan_spec, ltb_spec, leb_spec. unfold SFltb, SFleb.
  intros Hx Hy. rewrite (SFcompare_antisym (Prim2SF x) (Prim2SF y)).
  destruct (SFcompare (Prim2SF x) (Prim2SF y)) as [[]|] eqn:E; simpl; try congruence.
  apply SFcompare_nan in E. tauto.
Qed.

Lemma leb_false_ltb (x y : float) :
  is_nan x = false -> is_nan y = false -> (x <=? y) = false -> (y <? x) = true.
Proof.
  rewrite !not_nan_spec, ltb_spec, leb_spec. unfold SFltb, SFleb.
  intros Hx Hy. rewrite (SFcompare_antisym (Prim2SF x) (Prim2SF y)).
  destruct (SFcompare (Prim2SF x) (Prim2SF y)) as [[]|] eqn:E; simpl; try congruence.
  apply SFcompare_nan in E. tauto.
Qed.

Lemma ltb_leb_false (x y : float) : (x <? y) = true -> (y <=? x) = false.
Proof.
  rewrite ltb_spec, leb_spec. unfold SFltb, SFleb.
  rewrite (SFcompare_antisym (Prim2SF x) (Prim2SF y)).
  destruct (SFcompare (Prim2SF x) (Prim2SF y)) as [[]|]; simpl; congruence.
Qed.

Lemma leb_ltb_false (x y : float) : (x <=? y) = true -> (y <? x) = false.
Proof.
  rewrite ltb_spec, leb_spec. unfold SFltb, SFleb.
  rewrite (SFcompare_antisym (Prim2SF x) (Prim2SF y)).
  destruct (SFcompare (Prim2SF x) (Prim2SF y)) as [[]|]; simpl; congruence.
Qed.

Lemma ltb_irrefl (x : float) : (x <? x) = false.
Proof.
  destruct (x <? x) eqn:E; [|reflexivity].
  pose proof (ltb_leb_false _ _ E) as H. rewrite (ltb_leb _ _ E) in H. discriminate H.
Qed.

(** *** Signs of rounded results *)

Lemma shr_1_nonneg (mrs : shr_record) :
  (0 <= shr_m mrs)%Z -> (0 <= shr_m (shr_1 mrs))%Z.
Proof.
  destruct mrs as [m r s]. destruct m as [|[p|p|]|[p|p|]]; simpl; lia.
Qed.

Lemma iter_pos_shr_1_nonneg (p : positive) (mrs : shr_record) :
  (0 <= shr_m mrs)%Z -> (0 <= shr_m (iter_pos shr_1 p mrs))%Z.
Proof.
  revert mrs. induction p as [p IH|p IH|]; intros mrs H; simpl.
  - apply IH, IH, shr_1_nonneg, H.
  - apply IH, IH, H.
  - apply shr_1_nonneg, H.
Qed.

Lemma shr_fexp_nonneg (m e : Z) (l : location) :
  (0 <= m)%Z -> (0 <= shr_m (fst (shr_fexp prec emax m e l)))%Z.
Proof.
  intros H. unfold shr_fexp, shr.
  assert (H0 : (0 <= shr_m (shr_record_of_loc m l))%Z)
    by (destruct l as [|[]]; simpl; exact H).
  destruct (fexp prec emax (Zdigits2 m + e) - e)%Z; simpl; trivial.
  apply iter_pos_shr_1_nonneg, H0.
Qed.

Lemma round_nearest_even_nonneg (m : Z) (l : location) :
  (0 <= m)%Z -> (0 <= round_nearest_even m l)%Z.
Proof.
  intros H. destruct l as [|[]]; simpl; try lia.
  destruct (Z.even m); lia.
Qed.

Lemma binary_round_aux_signed (s : bool) (m e : Z) (l : location) :
  (0 <= m)%Z -> signed s (binary_round_aux prec emax s m e l).
Proof.
  intros H. unfold binary_round_aux.
  pose proof (shr_fexp_nonneg m e l H) as H1.
  destruct (shr_fexp prec emax m e l) as [mrs' e']. simpl in H1.
  pose proof (shr_fexp_nonneg _ e' loc_Exact
                (round_nearest_even_nonneg _ (loc_of_shr_record mrs') H1)) as H2.
  destruct (shr_fexp prec emax _ e' loc_Exact) as [mrs'' e'']. simpl in H2.
  destruct (shr_m mrs'') as [|p|p]; try lia; try exact eq_refl.
  destruct (e'' <=? emax - prec)%Z; exact eq_refl.
Qed.

Lemma binary_round_signed (s : bool) (m : positive) (e : Z) :
  signed s (binary_round prec emax s m e).
Proof.
  unfold binary_round.
  destruct (shl_align m e _) as [mz ez].
  apply binary_round_aux_signed. lia.
Qed.

(** *** Numbers that are not below zero *)

Lemma signed_nn (x : spec_float) : signed false x -> SFnn x.
Proof.
  destruct x as [[]|[]| |[] m e]; simpl; intros H;
    try exact I; try discriminate H; try contradiction.
Qed.

Lemma SFadd_nn (x y : spec_float) :
  SFnn x -> SFnn y -> SFnn (SFadd prec emax x y).
Proof.
  destruct x as [[]|[]| |[] m e], y as [[]|[]| |[] m' e']; simpl; trivial;
    intros Hx Hy; try contradiction.
  destruct (shl_align m e _) as [a ?], (shl_align m' e' _) as [b ?]. simpl.
  apply signed_nn, binary_round_signed.
Qed.

Lemma SFmul_nn (x y : spec_float) :
  SFnn x -> SFnn y -> SFnn (SFmul prec emax x y).
Proof.
  destruct x as [[]|[]| |[] m e], y as [[]|[]| |[] m' e']; simpl; trivial;
    intros Hx Hy; try contradiction.
  apply signed_nn, binary_round_aux_signed. lia.
Qed.

Lemma SFdiv_core_nonneg (m1 m2 : positive) (e1 e2 : Z) :
  (0 <= fst (fst (SFdiv_core_binary prec emax (Zpos m1) e1 (Zpos m2) e2)))%Z.
Proof.
  unfold SFdiv_core_binary.
  set (s := (e1 - e2 - _)%Z).
  set (m' := match s with Z0 => _ | Zpos _ => _ | Zneg _ => _ end).
  assert (H : (0 <= m')%Z).
  { subst m'. destruct s; try lia. apply Z.shiftl_nonneg. lia. }
  pose proof (Z.div_pos m' (Zpos m2) H ltac:(lia)) as H0.
  unfold Z.div in H0.
  destruct (Z.div_eucl m' (Zpos m2)) as [q r]. simpl. exact H0.
Qed.

Lemma SFdiv_finite_signed (sx sy : bool) (mx my : positive) (ex ey : Z) :
  signed (xorb sx sy)
    (SFdiv prec emax (S754_finite sx mx ex) (S754_finite sy my ey)).
Proof.
  simpl. pose proof (SFdiv_core_nonneg mx my ex ey) as H.
  destruct (SFdiv_core_binary prec emax (Zpos mx) ex (Zpos my) ey) as [[mz ez] lz].
  simpl in H. apply binary_round_aux_signed, H.
Qed.

Lemma SFdiv_nn (x y : spec_float) :
  SFnn x -> SFlt (S754_zero false) y -> SFnn (SFdiv prec emax x y).
Proof.
  unfold SFlt.
  destruct x as [[]|[]| |[] m e], y as [[]|[]| |[] m' e'];
    intros Hx Hy; try contradiction; try discriminate Hy; try exact I.
  apply signed_nn. apply (SFdiv_finite_signed false false).
Qed.

Lemma nn_spec (x : float) : (x <? 0) = false <-> SFnn (Prim2SF x).
Proof.
  rewrite ltb_spec. change (Prim2SF 0) with (S754_zero false).
  unfold SFltb. destruct (Prim2SF x) as [[]|[]| |[] m e]; simpl;
    split; intros H; try reflexivity; try exact I; try discriminate H;
    try contradiction.
Qed.

Lemma add_nn (x y : float) :
  (x <? 0) = false -> (y <? 0) = false -> (x + y <? 0) = false.
Proof.
  rewrite !nn_spec, add_spec. apply SFadd_nn.
Qed.

Lemma mul_nn (x y : float) :
  (x <? 0) = false -> (y <? 0) = false -> (x * y <? 0) = false.
Proof.
  rewrite !nn_spec, mul_spec. apply SFmul_nn.
Qed.

Lemma div_nn (x y : float) :
  (x <? 0) = false -> (0 <? y) = true -> (x / y <? 0) = false.
Proof.
  rewrite !nn_spec, ltb_SFlt, div_spec.
  change (Prim2SF 0) with (S754_zero false). apply SFdiv_nn.
Qed.

Lemma leb_0_nn (x : float) : (0 <=? x) = true -> (x <? 0) = false.
Proof. apply leb_ltb_false. Qed.

(** [int(x)] of a number that is not below zero and is below another. *)
Lemma py_int_nn (x d : float) :
  (x <? 0) = false -> (x <? d) = true ->
  exists z, py_int x = inl z /\ (0 <= z)%Z.
Proof.
  rewrite nn_spec, ltb_SFlt. unfold py_int, SFlt.
  destruct (Prim2SF x) as [[]|[]| |[] m e]; intros Hx Hd;
    try contradiction; try (eexists; split; [reflexivity|lia]).
  - destruct (Prim2SF d) as [[]|[]| |[] ? ?]; discriminate Hd.
  - destruct (Prim2SF d) as [[]|[]| |[] ? ?]; discriminate Hd.
  - eexists; split; [reflexivity|]. simpl. apply Z.shiftl_nonneg. lia.
Qed.

(** *** Numbers that are at most zero *)

Lemma signed_le0 (x : spec_float) : signed true x -> SFle0 x.
Proof.
  destruct x as [[]|[]| |[] m e]; simpl; intros H;
    try exact I; try discriminate H; try contradiction.
Qed.

Lemma le0_spec (x : float) : (x <=? 0) = true <-> SFle0 (Prim2SF x).
Proof.
  rewrite leb_spec. change (Prim2SF 0) with (S754_zero false).
  unfold SFleb. destruct (Prim2SF x) as [[]|[]| |[] m e]; simpl;
    split; intros H; try reflexivity; try exact I; try discriminate H;
    try contradiction.
Qed.

Lemma posfin_spec (x : float) :
  (0 <? x) = true /\ (x <? infinity) = true <-> SFposfin (Prim2SF x).
Proof.
  rewrite !ltb_spec. change (Prim2SF 0) with (S754_zero false).
  change (Prim2SF infinity) with (S754_infinity false).
  unfold SFltb. destruct (Prim2SF x) as [[]|[]| |[] m e]; simpl;
    split; intros H; try exact I; try (split; reflexivity);
    try contradiction; destruct H as [H1 H2];
    try discriminate H1; try discriminate H2.
Qed.

Lemma SFadd_le0 (x y : spec_float) :
  SFle0 x -> SFle0 y -> SFle0 (SFadd prec emax x y).
Proof.
  destruct x as [[]|[]| |[] m e], y as [[]|[]| |[] m' e']; simpl; trivial;
    intros Hx Hy; try contradiction.
  destruct (shl_align m e _) as [a ?], (shl_align m' e' _) as [b ?]. simpl.
  apply signed_le0, binary_round_signed.
Qed.

Lemma SFmul_le0 (x f : spec_float) :
  SFle0 x -> SFposfin f -> SFle0 (SFmul prec emax x f).
Proof.
  destruct x as [[]|[]| |[] m e], f as [[]|[]| |[] m' e']; simpl; trivial;
    intros Hx Hf; try contradiction.
  apply signed_le0, binary_round_aux_signed. lia.
Qed.

Lemma SFdiv_le0 (x y : spec_float) :
  SFposfin x -> SFlt y (S754_zero false) -> SFle0 (SFdiv prec emax x y).
Proof.
  unfold SFlt.
  destruct x as [[]|[]| |[] m e], y as [[]|[]| |[] m' e'];
    intros Hx Hy; try contradiction; try discriminate Hy; try exact I.
  apply signed_le0. apply (SFdiv_finite_signed false true).
Qed.

Lemma add_le0 (x y : float) :
  (x <=? 0) = true -> (y <=? 0) = true -> (x + y <=? 0) = true.
Proof. rewrite !le0_spec, add_spec. apply SFadd_le0. Qed.

Lemma mul_le0 (x f : float) :
  (x <=? 0) = true -> (0 <? f) = true -> (f <? infinity) = true ->
  (x * f <=? 0) = true.
Proof.
  intros Hx H1 H2. rewrite le0_spec, mul_spec.
  apply SFmul_le0; [apply le0_spec, Hx | apply posfin_spec; auto].
Qed.

Lemma div_le0 (x y : float) :
  (0 <? x) = true -> (x <? infinity) = true -> (y <? 0) = true ->
  (x / y <=? 0) = true.
Proof.
  intros H1 H2 Hy. rewrite le0_spec, div_spec.
  apply SFdiv_le0; [apply posfin_spec; auto|].
  apply ltb_SFlt in Hy. exact Hy.
Qed.

(** *** Equality of doubles *)

Lemma eqb_SFeq (x y : float) :
  (x =? y) = true <-> SFcompare (Prim2SF x) (Prim2SF y) = Some Eq.
Proof.
  rewrite eqb_spec. unfold SFeqb.
  destruct (SFcompare (Prim2SF x) (Prim2SF y)) as [[]|]; split; intros H;
    try discriminate H; reflexivity.
Qed.

Lemma eqb_leb (x y : float) : (x =? y) = true -> (x <=? y) = true.
Proof. rewrite eqb_SFeq, leb_SFle. unfold SFle. auto. Qed.

Lemma eqb_sym (x y : float) : (x =? y) = true -> (y =? x) = true.
Proof.
  rewrite !eqb_SFeq. intro H.
  rewrite (SFcompare_antisym (Prim2SF x) (Prim2SF y)), H. reflexivity.
Qed.

(** Two doubles equal to a third are not one below the other. *)
Lemma eqb_eqb_ltb (x y t : float) :
  (x =? t) = true -> (y =? t) = true -> (x <? y) = false.
Proof.
  intros Hx Hy. apply leb_ltb_false.
  apply (leb_trans y t x); [apply eqb_leb, Hy|apply eqb_leb, eqb_sym, Hx].
Qed.
End Float64Facts.

(** ** The note field *)

Module GameFacts.
Import Game.

Lemma miss_line : inject_Z (HIT_ZONE_Y + HIT_TOLERANCE) = 750.
Proof. reflexivity. Qed.

Lemma prune_line : inject_Z (WINDOW_HEIGHT + 100) = 900.
Proof. reflexivity. Qed.

Lemma settled_not_active (n : Note) : settled n = true -> active n = false.
Proof.
  unfold settled, active. destruct (hit n), (missed n); simpl; congruence.
Qed.

Lemma active_not_settled (n : Note) : active n = true -> hit n = false /\ missed n = false.
Proof.
  unfold active. destruct (hit n), (missed n); simpl; intuition congruence.
Qed.

(** *** One iteration of [update_notes] *)

Lemma update_note_eq (v : Q) (n : Note) (c m : Z) :
  update_note v n c m =
  (moved v n, if miss_fires v n then 0%Z else c, if miss_fires v n then 1%Z else m).
Proof.
  unfold moved, miss_fires, update_note.
  destruct (active n); simpl; [|reflexivity].
  destruct (Qlt_bool _ _); reflexivity.
Qed.

Lemma moved_settled (v : Q) (n : Note) : settled n = true -> moved v n = n.
Proof.
  intro H. unfold moved, update_note.
  rewrite (settled_not_active n H). reflexivity.
Qed.

Lemma moved_active (v : Q) (n : Note) :
  active n = true ->
  moved v n = mkNote (lane n) (y n + v) false (miss_fires v n).
Proof.
  intro H. unfold moved, update_note, miss_fires. rewrite H.
  destruct (active_not_settled n H) as [Hh Hm]. simpl.
  destruct (Qlt_bool _ _); simpl; rewrite Hh, ?Hm; reflexivity.
Qed.

Lemma miss_fires_settled (v : Q) (n : Note) :
  settled n = true -> miss_fires v n = false.
Proof.
  intro H. unfold miss_fires. rewrite (settled_not_active n H). reflexivity.
Qed.

(** *** The whole loop *)

Lemma update_notes_loop_eq (v : Q) (ns : list Note) (c m : Z) :
  update_notes_loop v ns c m =
  (map (moved v) ns,
   if existsb (miss_fires v) ns then 0%Z else c,
   if existsb (miss_fires v) ns then 1%Z else m).
Proof.
  revert c m. induction ns as [|n ns IH]; intros c m; simpl.
  - reflexivity.
  - rewrite update_note_eq, IH.
    destruct (miss_fires v n); simpl;
      destruct (existsb (miss_fires v) ns); reflexivity.
Qed.

Lemma update_notes_eq (dt : Q) (g : RhythmGame) :
  update_notes dt g =
  mkGame (note_speed g) (map (moved (step_of g dt)) (notes g)) (score g)
         (if existsb (miss_fires (step_of g dt)) (notes g) then 0%Z else combo g)
         (if existsb (miss_fires (step_of g dt)) (notes g) then 1%Z
          else combo_multiplier g)
         (last_note_spawn g) (note_spawn_interval g).
Proof.
  unfold update_notes, step_of. rewrite update_notes_loop_eq. reflexivity.
Qed.

Lemma update_notes_nth (dt : Q) (g : RhythmGame) (i : nat) :
  nth_error (notes (update_notes dt g)) i =
  option_map (moved (step_of g dt)) (nth_error (notes g) i).
Proof.
  rewrite update_notes_eq. simpl. apply nth_error_map.
Qed.

(** *** [hit_note_in_lane] *)

Lemma hittable_iff (l : Z) (n : Note) :
  hittable l n = true <->
  lane n = l /\ active n = true /\ Qabs (y n - 700) <= 50.
Proof.
  unfold hittable, active.
  rewrite !andb_true_iff, Z.eqb_eq, Qle_bool_iff.
  change (inject_Z HIT_ZONE_Y) with 700. change (inject_Z HIT_TOLERANCE) with 50.
  tauto.
Qed.

Lemma hittable_settled (l : Z) (n : Note) :
  settled n = true -> hittable l n = false.
Proof.
  intro H. destruct (hittable l n) eqn:E; [|reflexivity].
  apply hittable_iff in E. destruct E as (_ & Ha & _).
  rewrite (settled_not_active n H) in Ha. discriminate.
Qed.

Lemma hit_loop_none (l : Z) (ns ns' : list Note) :
  hit_loop l ns = (ns', false) ->
  ns' = ns /\ Forall (fun n => hittable l n = false) ns.
Proof.
  revert ns'. induction ns as [|n ns IH]; intros ns' H; simpl in H.
  - injection H as <-. split; [reflexivity|constructor].
  - destruct (hittable l n) eqn:E; [discriminate|].
    destruct (hit_loop l ns) as [rest b]. injection H as <- ->.
    destruct (IH rest eq_refl) as [-> HF]. split; [reflexivity|].
    constructor; assumption.
Qed.

Lemma hit_loop_some (l : Z) (ns ns' : list Note) :
  hit_loop l ns = (ns', true) ->
  exists pre n post,
    ns = pre ++ n :: post /\
    Forall (fun n => hittable l n = false) pre /\
    hittable l n = true /\
    ns' = pre ++ mark_hit n :: post.
Proof.
  revert ns'. induction ns as [|n ns IH]; intros ns' H; simpl in H.
  - discriminate.
  - destruct (hittable l n) eqn:E.
    + injection H as <-. exists [], n, ns. repeat split; trivial.
    + destruct (hit_loop l ns) as [rest b]. injection H as <- ->.
      destruct (IH rest eq_refl) as (pre & n0 & post & -> & HF & Hh & ->).
      exists (n :: pre), n0, post. repeat split; trivial.
      constructor; assumption.
Qed.

Lemma hit_note_in_lane_cases (l : Z) (g : RhythmGame) :
  (Forall (fun n => hittable l n = false) (notes g) /\
   hit_note_in_lane l g = g)
  \/
  (exists pre n post,
     notes g = pre ++ n :: post /\
     Forall (fun n => hittable l n = false) pre /\
     (lane n = l /\ active n = true /\ Qabs (y n - 700) <= 50) /\
     notes (hit_note_in_lane l g) = pre ++ mkNote (lane n) (y n) true false :: post /\
     combo (hit_note_in_lane l g) = (combo g + 1)%Z /\
     combo_multiplier (hit_note_in_lane l g) = multiplier_for (combo g + 1) /\
     score (hit_note_in_lane l g) =
       Z.max 1 (score g + 100 * multiplier_for (combo g + 1))).
Proof.
  unfold hit_note_in_lane.
  destruct (hit_loop l (notes g)) as [ns [|]] eqn:E.
  - right. destruct (hit_loop_some _ _ _ E) as (pre & n & post & Hg & HF & Hh & ->).
    exists pre, n, post. apply hittable_iff in Hh.
    destruct Hh as (Hl & Ha & Hd).
    repeat split; trivial.
    unfold on_hit, mark_hit. simpl.
    destruct (active_not_settled n Ha) as [_ ->]. reflexivity.
  - left. destruct (hit_loop_none _ _ _ E) as [_ HF]. split; trivial.
Qed.

(** C2, as the code has it.  One call of [hit_note_in_lane] either finds no
    note to hit and changes nothing, or marks exactly one note: a note of
    the given lane that is active and within the tolerance of the hit zone,
    and that is the first such note of [self.notes], that is the one spawned
    earliest, whatever its distance to the hit zone.  All other notes are
    left as they are, the combo grows by one and the score by 100 times the
    new multiplier. *)
Theorem hit_note_in_lane_first_hittable (l : Z) (g : RhythmGame) :
  (Forall (fun n => hittable l n = false) (notes g) /\
   hit_note_in_lane l g = g)
  \/
  (exists pre n post,
     notes g = pre ++ n :: post /\
     Forall (fun n => hittable l n = false) pre /\
     (lane n = l /\ active n = true /\ Qabs (y n - 700) <= 50) /\
     notes (hit_note_in_lane l g) = pre ++ mkNote (lane n) (y n) true false :: post /\
     combo (hit_note_in_lane l g) = (combo g + 1)%Z /\
     combo_multiplier (hit_note_in_lane l g) = multiplier_for (combo g + 1) /\
     score (hit_note_in_lane l g) =
       Z.max 1 (score g + 100 * multiplier_for (combo g + 1))).
Proof. exact (hit_note_in_lane_cases l g). Qed.

(** C2, as the claim states it, fails: in a session at [note_speed = 0.5]
    two notes of lane 0 are both within the tolerance, the later one exactly
    on the hit zone and the earlier one 40 below it; the call marks the
    earlier one. *)
Lemma hit_note_in_lane_not_nearest :
  exists n1 n2,
    notes stacked_game = [n1; n2] /\
    hittable 0 n1 = true /\ hittable 0 n2 = true /\
    Qabs (y n2 - 700) < Qabs (y n1 - 700) /\
    notes (hit_note_in_lane 0 stacked_game) = [mark_hit n1; n2] /\
    hit n2 = false.
Proof.
  eexists. eexists.
  split; [vm_compute; reflexivity|].
  repeat split; vm_compute; reflexivity.
Qed.

(** *** The session as a sequence of calls *)

Lemma calls_app (cs1 cs2 : list Call) (g : RhythmGame) :
  calls (cs1 ++ cs2) g = calls cs2 (calls cs1 g).
Proof. apply fold_left_app. Qed.

Lemma handle_input_calls (k : Z -> bool) (g : RhythmGame) :
  handle_input k g = calls (map CallHit (pressed k)) g.
Proof.
  unfold handle_input, calls. revert g.
  induction (pressed k) as [|i ks IH]; intro g; simpl; [reflexivity|apply IH].
Qed.

Lemma update_calls (f : Frame) (g : RhythmGame) :
  update f g = calls (frame_calls f) g.
Proof.
  unfold update, frame_calls.
  change (calls (?a :: ?b :: ?r) g) with (calls r (call b (call a g))).
  rewrite calls_app, handle_input_calls. reflexivity.
Qed.

Lemma run_calls (fs : list Frame) (g : RhythmGame) :
  run fs g = calls (flat_map frame_calls fs) g.
Proof.
  revert g. induction fs as [|f fs IH]; intro g; [reflexivity|].
  change (run (f :: fs) g) with (run fs (update f g)).
  cbn [flat_map]. rewrite calls_app, <- update_calls. apply IH.
Qed.

(** *** Score, combo and multiplier *)

Lemma multiplier_for_pos (c : Z) : (1 <= multiplier_for c <= 4)%Z.
Proof.
  unfold multiplier_for.
  destruct (30 <=? c)%Z, (20 <=? c)%Z, (10 <=? c)%Z; lia.
Qed.

Lemma call_combo_ok (c : Call) (g : RhythmGame) :
  combo_ok g -> combo_ok (call c g) /\ (score g <= score (call c g))%Z.
Proof.
  intros (Hs & Hc & Hm). destruct c as [t l|dt|l|]; simpl.
  - destruct (_ <? _)%Z; simpl; repeat split; trivial; lia.
  - rewrite update_notes_eq. unfold combo_ok. simpl.
    destruct (existsb _ _); repeat split; trivial; lia.
  - destruct (hit_note_in_lane_cases l g)
      as [[_ ->]|(pre & n & post & _ & _ & _ & _ & Hc' & Hm' & Hs')].
    + repeat split; trivial; lia.
    + unfold combo_ok. rewrite Hc', Hm', Hs'.
      pose proof (multiplier_for_pos (combo g + 1)).
      repeat split; lia.
  - repeat split; trivial; simpl; lia.
Qed.

Lemma calls_combo_ok (cs : list Call) (g : RhythmGame) :
  combo_ok g -> combo_ok (calls cs g) /\ (score g <= score (calls cs g))%Z.
Proof.
  revert g. induction cs as [|c cs IH]; intros g H; simpl.
  - split; [assumption|lia].
  - destruct (call_combo_ok c g H) as [H1 Hle].
    destruct (IH _ H1) as [H2 Hle2]. split; [assumption|lia].
Qed.

Lemma init_combo_ok (speed : Q) : combo_ok (init speed).
Proof. repeat split; simpl; lia. Qed.

(** C3.  Along every sequence of calls from the initial state (score 1,
    combo 0, multiplier 1), and so along every sequence of frames, the score
    is at least 1 and never decreases, and after every call the multiplier
    is the step function of the combo: 4 from 30, 3 from 20, 2 from 10,
    else 1. *)
Theorem score_monotone_multiplier_step (speed : Q) :
  (forall cs1 cs2 : list Call,
     let g1 := calls cs1 (init speed) in
     let g2 := calls cs2 g1 in
     (1 <= score g1)%Z /\ (score g1 <= score g2)%Z /\
     combo_multiplier g1 = multiplier_for (combo g1)) /\
  (forall fs1 fs2 : list Frame,
     let g1 := run fs1 (init speed) in
     let g2 := run fs2 g1 in
     (1 <= score g1)%Z /\ (score g1 <= score g2)%Z /\
     combo_multiplier g1 = multiplier_for (combo g1)).
Proof.
  assert (H : forall cs1 cs2 : list Call,
     let g1 := calls cs1 (init speed) in
     let g2 := calls cs2 g1 in
     (1 <= score g1)%Z /\ (score g1 <= score g2)%Z /\
     combo_multiplier g1 = multiplier_for (combo g1)).
  { intros cs1 cs2 g1 g2.
    destruct (calls_combo_ok cs1 _ (init_combo_ok speed)) as [Hok _].
    destruct (calls_combo_ok cs2 g1 Hok) as [_ Hle].
    destruct Hok as (Hs & _ & Hm).
    repeat split; assumption. }
  split; [exact H|].
  intros fs1 fs2. cbv zeta. rewrite !run_calls. apply H.
Qed.

(** *** Settled notes stay where they are *)

Lemma hit_note_in_lane_notes (l : Z) (g : RhythmGame) :
  notes (hit_note_in_lane l g) = fst (hit_loop l (notes g)).
Proof.
  unfold hit_note_in_lane.
  destruct (hit_loop l (notes g)) as [ns [|]] eqn:E; simpl; [reflexivity|].
  symmetry. apply (hit_loop_none _ _ _ E).
Qed.

Lemma hit_loop_nth (l : Z) (ns : list Note) :
  forall (i : nat) (n : Note),
    nth_error ns i = Some n -> hittable l n = false ->
    nth_error (fst (hit_loop l ns)) i = Some n.
Proof.
  induction ns as [|n0 ns IH]; intros i n Hn Hh; [destruct i; discriminate|].
  simpl. destruct (hittable l n0) eqn:E.
  - destruct i as [|i]; simpl in *; [|assumption].
    injection Hn as ->. congruence.
  - specialize (IH (pred i) n). destruct (hit_loop l ns) as [rest b].
    destruct i as [|i]; simpl in *; [assumption|]. apply IH; assumption.
Qed.

(** *** Every note of a session is [note_ok] *)

Lemma moved_ok (v : Q) (n : Note) : note_ok n -> note_ok (moved v n).
Proof.
  intro H. destruct (active n) eqn:E.
  - rewrite (moved_active v n E). split; simpl; [|discriminate].
    intro F. unfold miss_fires in F. rewrite E, miss_line in F.
    apply Qlt_bool_false_iff in F. exact F.
  - unfold moved, update_note. rewrite E. exact H.
Qed.

Lemma mark_hit_ok (l : Z) (n : Note) : hittable l n = true -> note_ok (mark_hit n).
Proof.
  intro H. apply hittable_iff in H. destruct H as (_ & Ha & Hd).
  apply active_not_settled in Ha. destruct Ha as [_ Hm].
  apply Qabs_Qle_condition in Hd.
  split; simpl; intros _; [lra|assumption].
Qed.

Lemma call_notes_ok (c : Call) (g : RhythmGame) :
  Forall note_ok (notes g) -> Forall note_ok (notes (call c g)).
Proof.
  intro H. destruct c as [t l|dt|l|]; simpl.
  - destruct (_ <? _)%Z; simpl; [|assumption].
    apply Forall_app. split; [assumption|].
    constructor; [|constructor]. split; simpl; intros; [lra|reflexivity].
  - rewrite update_notes_eq. simpl. apply Forall_map.
    revert H. apply Forall_impl. intro n. apply moved_ok.
  - destruct (hit_note_in_lane_cases l g)
      as [[_ ->]|(pre & n & post & Hg & _ & Hh & Hg' & _)]; [assumption|].
    rewrite Hg', Hg in *. apply Forall_app in H. destruct H as [Hpre Hpost].
    apply Forall_app. split; [assumption|].
    inversion Hpost; subst. constructor; [|assumption].
    assert (Hl : hittable l n = true) by (apply hittable_iff; exact Hh).
    destruct Hh as (_ & Ha & _). apply active_not_settled in Ha.
    destruct Ha as [_ Hm].
    generalize (mark_hit_ok l n Hl). unfold mark_hit. rewrite Hm. trivial.
  - apply Forall_forall. intros n Hn. apply filter_In in Hn.
    destruct Hn as [Hn _]. revert n Hn. apply Forall_forall. assumption.
Qed.

Lemma calls_notes_ok (cs : list Call) (g : RhythmGame) :
  Forall note_ok (notes g) -> Forall note_ok (notes (calls cs g)).
Proof.
  revert g. induction cs as [|c cs IH]; intros g H; simpl; [assumption|].
  apply IH, call_notes_ok, H.
Qed.

Lemma session_notes_ok (speed : Q) (cs : list Call) (n : Note) :
  In n (notes (calls cs (init speed))) -> note_ok n.
Proof.
  revert n. apply Forall_forall. apply calls_notes_ok. constructor.
Qed.

(** *** Settled notes are never removed *)

Lemma hit_loop_In (l : Z) (ns : list Note) (n : Note) :
  In n ns -> hittable l n = false -> In n (fst (hit_loop l ns)).
Proof.
  intros Hn Hh. apply In_nth_error in Hn. destruct Hn as [i Hi].
  apply (nth_error_In _ i). apply hit_loop_nth; assumption.
Qed.

Lemma call_settled_In (c : Call) (g : RhythmGame) (n : Note) :
  In n (notes g) -> settled n = true -> y n < 900 ->
  In n (notes (call c g)).
Proof.
  intros Hn Hs Hy. destruct c as [t l|dt|l|]; simpl.
  - destruct (_ <? _)%Z; simpl; [|assumption].
    apply in_or_app. left. assumption.
  - rewrite update_notes_eq. simpl. apply in_map_iff.
    exists n. split; [apply moved_settled|]; assumption.
  - rewrite hit_note_in_lane_notes. apply hit_loop_In; trivial.
    apply hittable_settled; assumption.
  - apply filter_In. split; [assumption|].
    apply Qlt_bool_iff. exact Hy.
Qed.

Lemma calls_settled_In (cs : list Call) (g : RhythmGame) (n : Note) :
  In n (notes g) -> settled n = true -> y n < 900 ->
  In n (notes (calls cs g)).
Proof.
  revert g. induction cs as [|c cs IH]; intros g Hn Hs Hy; simpl; [assumption|].
  apply IH; trivial. apply call_settled_In; assumption.
Qed.

(** C5.  Once the [hit] or the [missed] flag of a note is set,
    [update_notes] leaves the note, and so its [y], as it is.  So a hit note
    of a session (its [y] is at most 750) and a missed note whose [y] is below
    [WINDOW_HEIGHT + 100] pass the filter of every later frame: they are in
    [self.notes] after any further calls and after any further frames. *)
Theorem settled_notes_stay
    (speed : Q) (cs : list Call) (n : Note) :
  In n (notes (calls cs (init speed))) ->
  hit n = true \/ (missed n = true /\ y n < inject_Z (WINDOW_HEIGHT + 100)) ->
  (forall v c m, update_note v n c m = (n, c, m)) /\
  (forall dt g i, nth_error (notes g) i = Some n ->
                  nth_error (notes (update_notes dt g)) i = Some n) /\
  y n < inject_Z (WINDOW_HEIGHT + 100) /\
  (forall cs', In n (notes (calls cs' (calls cs (init speed))))) /\
  (forall fs, In n (notes (run fs (calls cs (init speed))))).
Proof.
  intros Hn Hflag. rewrite prune_line in *.
  assert (Hs : settled n = true).
  { unfold settled. destruct Hflag as [->|[-> _]]; [reflexivity|apply orb_true_r]. }
  assert (Hy : y n < 900).
  { destruct Hflag as [Hh|[_ Hy]]; [|assumption].
    destruct (session_notes_ok speed cs n Hn) as [Hle Hhm].
    specialize (Hle (Hhm Hh)). lra. }
  assert (Hstay : forall cs', In n (notes (calls cs' (calls cs (init speed))))).
  { intro cs'. apply calls_settled_In; assumption. }
  repeat split; trivial.
  - intros v c m. rewrite update_note_eq, (moved_settled v n Hs),
      (miss_fires_settled v n Hs). reflexivity.
  - intros dt g i Hi. rewrite update_notes_nth, Hi. simpl.
    rewrite moved_settled; trivial.
  - intro fs. rewrite run_calls. apply Hstay.
Qed.

Lemma settled_notes_stay_witness :
  In (mark_hit (mkNote 0 (666000 # 900) false false))
     (notes (run [mkFrame (1 # 60) 4000 3 no_keys;
                  mkFrame (10 # 1) 6000 2 no_keys]
                 (calls c5_calls (init 0.5)))).
Proof.
  refine (proj2 (proj2 (proj2 (proj2
    (settled_notes_stay 0.5 c5_calls
       (mark_hit (mkNote 0 (666000 # 900) false false)) _ _))))
    [mkFrame (1 # 60) 4000 3 no_keys; mkFrame (10 # 1) 6000 2 no_keys]).
  - vm_compute. left. reflexivity.
  - left. reflexivity.
Defined.


(** *** What the filter removes *)



(** *** Score and hits *)

Lemma call_score_mod (c : Call) (g : RhythmGame) :
  combo_ok g -> (score g mod 100 = 1)%Z -> (score (call c g) mod 100 = 1)%Z.
Proof.
  intros Hok Hs. destruct c as [t l|dt|l|]; simpl.
  - destruct (_ <? _)%Z; exact Hs.
  - rewrite update_notes_eq. exact Hs.
  - destruct (hit_note_in_lane_cases l g)
      as [[_ ->]|(pre & n & post & _ & _ & _ & _ & _ & _ & Hs')];
      [exact Hs|].
    rewrite Hs'. destruct Hok as (H1 & _ & _).
    pose proof (multiplier_for_pos (combo g + 1)).
    rewrite Z.max_r by lia.
    rewrite (Z.mul_comm 100), Z.mod_add by lia. exact Hs.
  - exact Hs.
Qed.

Lemma calls_score_mod (cs : list Call) (g : RhythmGame) :
  combo_ok g -> (score g mod 100 = 1)%Z -> (score (calls cs g) mod 100 = 1)%Z.
Proof.
  revert g. induction cs as [|c cs IH]; intros g Hok Hs; simpl; [exact Hs|].
  apply IH; [apply call_combo_ok, Hok|apply call_score_mod; assumption].
Qed.

(** X11.  In a session the guard [max(1, ...)] of the score never acts: a
    call of [hit_note_in_lane] leaves the score, or adds exactly 100 times
    the multiplier of the new combo, between 100 and 400 points; so the
    score is always 1 more than a multiple of 100. *)
Theorem score_gains (speed : Q) (cs : list Call) (l : Z) :
  let g := calls cs (init speed) in
  (score g mod 100 = 1)%Z /\
  (score (hit_note_in_lane l g) = score g \/
   (score (hit_note_in_lane l g)
      = score g + 100 * multiplier_for (combo g + 1) /\
    100 <= score (hit_note_in_lane l g) - score g <= 400)%Z).
Proof.
  intro g.
  destruct (calls_combo_ok cs _ (init_combo_ok speed)) as [Hok _].
  fold g in Hok.
  split; [apply calls_score_mod; [apply init_combo_ok|reflexivity]|].
  destruct (hit_note_in_lane_cases l g)
    as [[_ ->]|(pre & n & post & _ & _ & _ & _ & _ & _ & Hs')];
    [left; reflexivity|right].
  destruct Hok as (H1 & _ & _).
  pose proof (multiplier_for_pos (combo g + 1)).
  rewrite Hs', Z.max_r by lia. split; lia.
Qed.

Lemma hit_note_in_lane_count (l : Z) (g : RhythmGame) :
  let g' := hit_note_in_lane l g in
  List.length (notes g') = List.length (notes g) /\
  (0 <= hits (notes g') - hits (notes g) <= 1)%Z /\
  combo g' = (combo g + (hits (notes g') - hits (notes g)))%Z.
Proof.
  intro g'. unfold g'.
  destruct (hit_note_in_lane_cases l g)
    as [[_ ->]|(pre & n & post & Hg & _ & (_ & Ha & _) & Hg' & Hc & _)].
  - repeat split; lia.
  - destruct (active_not_settled n Ha) as [Hh _].
    assert (H1 : hits (pre ++ n :: post) = (hits pre + hits post)%Z).
    { unfold hits. rewrite filter_app. simpl. rewrite Hh, length_app. lia. }
    assert (H2 : hits (pre ++ mkNote (lane n) (y n) true false :: post)
                 = (hits pre + 1 + hits post)%Z).
    { unfold hits. rewrite filter_app. simpl. rewrite length_app. simpl. lia. }
    rewrite Hg', Hg, Hc, H1, H2, !length_app. simpl.
    repeat split; lia.
Qed.

(** X12.  One call of [handle_input] marks at most one note per key that is
    down, so at most four; it removes and adds no note, and the combo grows
    by exactly the number of notes it marks. *)
Theorem handle_input_counts (k : Z -> bool) (g : RhythmGame) :
  let g' := handle_input k g in
  List.length (notes g') = List.length (notes g) /\
  (0 <= hits (notes g') - hits (notes g)
     <= Z.of_nat (List.length (pressed k)))%Z /\
  (List.length (pressed k) <= 4)%nat /\
  combo g' = (combo g + (hits (notes g') - hits (notes g)))%Z.
Proof.
  intro g'. unfold g', handle_input.
  assert (Hlen : (List.length (pressed k) <= 4)%nat).
  { unfold pressed. apply (filter_length_le k [0; 1; 2; 3]%Z). }
  assert (H : forall ks g,
    let g' := fold_left (fun g i => hit_note_in_lane i g) ks g in
    List.length (notes g') = List.length (notes g) /\
    (0 <= hits (notes g') - hits (notes g) <= Z.of_nat (List.length ks))%Z /\
    combo g' = (combo g + (hits (notes g') - hits (notes g)))%Z).
  { clear. induction ks as [|i ks IH]; intro g; simpl.
    - repeat split; lia.
    - destruct (hit_note_in_lane_count i g) as (L1 & H1 & C1).
      destruct (IH (hit_note_in_lane i g)) as (L2 & H2 & C2).
      repeat split; lia. }
  destruct (H (pressed k) g) as (L & Hh & C).
  repeat split; trivial; lia.
Qed.

End GameFacts.

(** ** The note field in binary64 *)

Module Game64Facts.
Import Floats Float64 Float64Facts Game64.
Local Open Scope float_scope.

Lemma miss_line64 : of_Z (HIT_ZONE_Y + HIT_TOLERANCE) = 750.
Proof. reflexivity. Qed.

Lemma active_flags (n : Note) :
  active n = true <-> hit n = false /\ missed n = false.
Proof.
  unfold active. destruct (hit n), (missed n); simpl; intuition congruence.
Qed.

(** *** One iteration of [update_notes] *)

Lemma update_note_moved (v : float) (n : Note) (c m : Z) :
  update_note v n c m =
  (moved v n, if miss_fires v n then 0%Z else c, if miss_fires v n then 1%Z else m).
Proof.
  unfold moved, miss_fires, update_note.
  destruct (active n); simpl; [|reflexivity].
  destruct (_ <? _); reflexivity.
Qed.

Lemma moved_inactive (v : float) (n : Note) : active n = false -> moved v n = n.
Proof. intro H. unfold moved, update_note. rewrite H. reflexivity. Qed.

Lemma moved_of_active (v : float) (n : Note) :
  active n = true ->
  moved v n = mkNote (lane n) (y n + v) false (miss_fires v n).
Proof.
  intro H. unfold moved, update_note, miss_fires. rewrite H.
  apply active_flags in H. destruct H as [Hh Hm]. simpl.
  destruct (_ <? _); simpl; rewrite Hh, ?Hm; reflexivity.
Qed.

(** *** The whole loop *)

Lemma update_notes_loop_map (v : float) (ns : list Note) (c m : Z) :
  update_notes_loop v ns c m =
  (map (moved v) ns,
   if existsb (miss_fires v) ns then 0%Z else c,
   if existsb (miss_fires v) ns then 1%Z else m).
Proof.
  revert c m. induction ns as [|n ns IH]; intros c m; simpl.
  - reflexivity.
  - rewrite update_note_moved, IH.
    destruct (miss_fires v n); simpl;
      destruct (existsb (miss_fires v) ns); reflexivity.
Qed.

Lemma update_notes_map (dt : float) (g : RhythmGame) :
  update_notes dt g =
  mkGame (note_speed g) (map (moved (step_of g dt)) (notes g)) (score g)
         (if existsb (miss_fires (step_of g dt)) (notes g) then 0%Z else combo g)
         (if existsb (miss_fires (step_of g dt)) (notes g) then 1%Z
          else combo_multiplier g)
         (last_note_spawn g) (note_spawn_interval g).
Proof.
  unfold update_notes, step_of. rewrite update_notes_loop_map. reflexivity.
Qed.

Lemma update_notes_keeps_speed (dt : float) (g : RhythmGame) :
  note_speed (update_notes dt g) = note_speed g.
Proof. rewrite update_notes_map. reflexivity. Qed.

Lemma update_notes_at (dt : float) (g : RhythmGame) (i : nat) :
  nth_error (notes (update_notes dt g)) i =
  option_map (moved (step_of g dt)) (nth_error (notes g) i).
Proof.
  rewrite update_notes_map. simpl. apply nth_error_map.
Qed.

Lemma run_updates_step (d : float) (dts : list float) (g : RhythmGame) :
  run_updates (d :: dts) g = run_updates dts (update_notes d g).
Proof. reflexivity. Qed.



Lemma run_updates_inactive (dts : list float) (g : RhythmGame) (i : nat) (n : Note) :
  nth_error (notes g) i = Some n -> active n = false ->
  nth_error (notes (run_updates dts g)) i = Some n.
Proof.
  revert g. induction dts as [|d dts IH]; intros g Hn Ha; [exact Hn|].
  rewrite run_updates_step. apply IH; [|exact Ha].
  rewrite update_notes_at, Hn. simpl. rewrite (moved_inactive _ _ Ha). reflexivity.
Qed.

(** *** Ticks without rounding *)






(** *** Every note of a session is [note_ok] *)

Lemma moved_note_ok (v : float) (n : Note) : note_ok n -> note_ok (moved v n).
Proof.
  intro H. destruct (active n) eqn:E.
  - rewrite (moved_of_active _ _ E). unfold note_ok, miss_fires. simpl.
    rewrite E. simpl. trivial.
  - rewrite (moved_inactive _ _ E). exact H.
Qed.

Lemma hit_loop_unhit (l : Z) (ns : list Note) :
  snd (hit_loop l ns) = false -> fst (hit_loop l ns) = ns.
Proof.
  induction ns as [|n ns IH]; simpl; [reflexivity|].
  destruct (hittable l n); [discriminate|].
  destruct (hit_loop l ns) as [rest b]. simpl in *. intros H. rewrite IH; trivial.
Qed.

Lemma hit_note_in_lane_notes64 (l : Z) (g : RhythmGame) :
  notes (hit_note_in_lane l g) = fst (hit_loop l (notes g)).
Proof.
  unfold hit_note_in_lane.
  pose proof (hit_loop_unhit l (notes g)) as H.
  destruct (hit_loop l (notes g)) as [ns b]. simpl in *.
  destruct b; [reflexivity|]. symmetry. apply H. reflexivity.
Qed.

Lemma hit_loop_note_ok (l : Z) (ns : list Note) :
  Forall note_ok ns -> Forall note_ok (fst (hit_loop l ns)).
Proof.
  induction 1 as [|n ns Hn Hns IH]; simpl; [constructor|].
  destruct (hittable l n).
  - constructor; [exact Hn | exact Hns].
  - destruct (hit_loop l ns) as [rest b]. simpl in *. constructor; assumption.
Qed.

Lemma call_note_ok (c : Call) (g : RhythmGame) :
  Forall note_ok (notes g) -> Forall note_ok (notes (call c g)).
Proof.
  intro H. destruct c as [ticks l|dt|l|]; simpl.
  - destruct (_ <? _)%Z; [|exact H]. simpl.
    apply Forall_app. split; [exact H|].
    constructor; [|constructor]. intros _. reflexivity.
  - rewrite update_notes_map. simpl.
    apply Forall_map. revert H. apply Forall_impl. intro n. apply moved_note_ok.
  - rewrite hit_note_in_lane_notes64. apply hit_loop_note_ok, H.
  - unfold remove_old_notes. simpl.
    apply Forall_forall. intros n Hn. apply filter_In in Hn.
    rewrite Forall_forall in H. apply H, Hn.
Qed.

Lemma calls_note_ok (cs : list Call) (g : RhythmGame) :
  Forall note_ok (notes g) -> Forall note_ok (notes (calls cs g)).
Proof.
  revert g. induction cs as [|c cs IH]; intros g H; [exact H|].
  simpl. apply IH, call_note_ok, H.
Qed.

(** *** Frames are sequences of calls *)

Lemma calls_append (cs1 cs2 : list Call) (g : RhythmGame) :
  calls (cs1 ++ cs2) g = calls cs2 (calls cs1 g).
Proof. unfold calls. apply fold_left_app. Qed.

Lemma handle_input_is_calls (k : Z -> bool) (g : RhythmGame) :
  handle_input k g = calls (map CallHit (Game.pressed k)) g.
Proof.
  unfold handle_input, calls. generalize (Game.pressed k). intro ls.
  revert g. induction ls as [|l ls IH]; intro g; simpl; [reflexivity|]. apply IH.
Qed.

Lemma update_is_calls (f : Frame) (g : RhythmGame) :
  update f g = calls (frame_calls f) g.
Proof.
  unfold update, frame_calls.
  change (CallSpawn (frame_ticks f) (frame_lane f)
          :: CallUpdateNotes (frame_dt f)
          :: map CallHit (Game.pressed (frame_keys f)) ++ [CallRemoveOld])
    with ([CallSpawn (frame_ticks f) (frame_lane f);
           CallUpdateNotes (frame_dt f)]
          ++ map CallHit (Game.pressed (frame_keys f)) ++ [CallRemoveOld]).
  rewrite !calls_append. simpl. rewrite handle_input_is_calls. reflexivity.
Qed.

Lemma run_is_calls (fs : list Frame) (g : RhythmGame) :
  run fs g = calls (flat_map frame_calls fs) g.
Proof.
  revert g. induction fs as [|f fs IH]; intro g; [reflexivity|].
  change (run (f :: fs) g) with (run fs (update f g)).
  change (flat_map frame_calls (f :: fs))
    with (frame_calls f ++ flat_map frame_calls fs).
  rewrite calls_append, <- update_is_calls. apply IH.
Qed.

(** *** Following a settled note through the calls *)

Lemma hit_loop_keeps (l : Z) (ns : list Note) (i : nat) (n : Note) :
  nth_error ns i = Some n -> hittable l n = false ->
  nth_error (fst (hit_loop l ns)) i = Some n.
Proof.
  revert i. induction ns as [|n0 ns IH]; intros i Hn Hh; [destruct i; discriminate|].
  simpl. destruct i as [|i]; simpl in Hn.
  - injection Hn as ->. rewrite Hh.
    destruct (hit_loop l ns) as [rest b]. reflexivity.
  - destruct (hittable l n0); [exact Hn|].
    specialize (IH i Hn Hh).
    destruct (hit_loop l ns) as [rest b]. exact IH.
Qed.

Lemma index_after_filter_spec (ns : list Note) (i : nat) (n : Note) :
  nth_error ns i = Some n ->
  match index_after_filter ns i with
  | Some j => nth_error (filter on_screen ns) j = Some n /\ on_screen n = true
  | None => on_screen n = false
  end.
Proof.
  revert i. induction ns as [|n0 ns IH]; intros i Hn; [destruct i; discriminate|].
  destruct i as [|i]; simpl in Hn |- *.
  - injection Hn as ->. destruct (on_screen n) eqn:E; auto.
  - specialize (IH i Hn).
    destruct (index_after_filter ns i) as [j|]; [|exact IH].
    destruct (on_screen n0); exact IH.
Qed.

Lemma inactive_not_hittable (l : Z) (n : Note) :
  active n = false -> hittable l n = false.
Proof.
  unfold active, hittable.
  destruct (lane n =? l)%Z, (hit n), (missed n); simpl; congruence.
Qed.

Lemma follow_call_inactive (c : Call) (g : RhythmGame) (i : nat) (n : Note) :
  nth_error (notes g) i = Some n -> active n = false ->
  match follow_call c g i with
  | Some j => nth_error (notes (call c g)) j = Some n
  | None => on_screen n = false
  end.
Proof.
  intros Hn Ha. destruct c as [ticks l|dt|l|]; simpl.
  - destruct (_ <? _)%Z; [|exact Hn]. simpl.
    rewrite nth_error_app1; [exact Hn|]. apply nth_error_Some. congruence.
  - rewrite update_notes_at, Hn. simpl. rewrite (moved_inactive _ _ Ha). reflexivity.
  - rewrite hit_note_in_lane_notes64.
    apply hit_loop_keeps; [exact Hn|]. apply inactive_not_hittable, Ha.
  - pose proof (index_after_filter_spec _ _ _ Hn) as H.
    destruct (index_after_filter (notes g) i); [apply H|exact H].
Qed.

Lemma follow_inactive (cs : list Call) (g : RhythmGame) (i : nat) (n : Note) :
  nth_error (notes g) i = Some n -> active n = false ->
  match follow cs g i with
  | Some j => nth_error (notes (calls cs g)) j = Some n
  | None => on_screen n = false
  end.
Proof.
  revert g i. induction cs as [|c cs IH]; intros g i Hn Ha; [exact Hn|].
  simpl. pose proof (follow_call_inactive c g i n Hn Ha) as H.
  destruct (follow_call c g i) as [j|]; [|exact H].
  apply IH; assumption.
Qed.

(** C4.  When [update_notes] runs, an active note whose new position, the
    double [y + note_speed * dt * 60], is above 750 becomes missed at that
    position; the combo is reset to 0, the multiplier to 1, the score is
    unchanged; no other note changes its [missed] flag.  In a session the
    note had not crossed the line before this tick.  Afterwards, through
    all the calls that the frames make, the filter included, it stays the
    same missed note until the filter removes it, and the miss never
    fires for it again. *)
Theorem update_notes_miss_once
    (g : RhythmGame) (dt : float) (i : nat) (n : Note) :
  nth_error (notes g) i = Some n ->
  active n = true ->
  (750 <? y n + note_speed g * dt * 60) = true ->
  let g' := update_notes dt g in
  let n' := mkNote (lane n) (y n + note_speed g * dt * 60) false true in
  nth_error (notes g') i = Some n' /\
  combo g' = 0%Z /\ combo_multiplier g' = 1%Z /\ score g' = score g /\
  (forall j m, nth_error (notes g) j = Some m ->
     miss_fires (step_of g dt) m = false ->
     exists m', nth_error (notes g') j = Some m' /\ missed m' = missed m) /\
  (forall speed cs0, g = calls cs0 (init speed) -> (750 <? y n) = false) /\
  (forall cs,
     match follow cs g' i with
     | Some j => nth_error (notes (calls cs g')) j = Some n'
     | None => on_screen n' = false
     end) /\
  (forall fs, run fs g' = calls (flat_map frame_calls fs) g') /\
  (forall v, miss_fires v n' = false).
Proof.
  intros Hn Ha Hy g' n'.
  assert (Hf : miss_fires (step_of g dt) n = true).
  { unfold miss_fires, step_of. rewrite Ha, miss_line64. exact Hy. }
  assert (Hn' : nth_error (notes g') i = Some n').
  { unfold g'. rewrite update_notes_at, Hn. simpl.
    rewrite (moved_of_active _ _ Ha), Hf. reflexivity. }
  assert (Hex : existsb (miss_fires (step_of g dt)) (notes g) = true).
  { apply existsb_exists. exists n. split; [|exact Hf].
    apply (nth_error_In _ _ Hn). }
  assert (Hg' : g' = mkGame (note_speed g) (map (moved (step_of g dt)) (notes g))
                         (score g) 0 1 (last_note_spawn g) (note_spawn_interval g)).
  { unfold g'. rewrite update_notes_map, Hex. reflexivity. }
  split; [exact Hn'|].
  split; [rewrite Hg'; reflexivity|].
  split; [rewrite Hg'; reflexivity|].
  split; [rewrite Hg'; reflexivity|].
  split.
  { intros j m Hm Hmf. exists (moved (step_of g dt) m). split.
    - unfold g'. rewrite update_notes_at, Hm. reflexivity.
    - destruct (active m) eqn:E.
      + rewrite (moved_of_active _ _ E), Hmf. simpl.
        apply active_flags in E. symmetry. apply E.
      + rewrite (moved_inactive _ _ E). reflexivity. }
  split.
  { intros speed cs0 ->.
    assert (Hok : Forall note_ok (notes (calls cs0 (init speed))))
      by (apply calls_note_ok; constructor).
    rewrite Forall_forall in Hok.
    specialize (Hok n (nth_error_In _ _ Hn)).
    rewrite <- miss_line64. apply Hok. apply active_flags in Ha. apply Ha. }
  split.
  { intro cs. apply follow_inactive; [exact Hn'|reflexivity]. }
  split.
  { intro fs. apply run_is_calls. }
  intro v. reflexivity.
Qed.

Lemma update_notes_miss_once_witness :
  nth_error (notes (update_notes 0.1 c4_game)) 0
    = Some (mkNote 1 760 false true) /\
  combo (update_notes 0.1 c4_game) = 0%Z /\
  combo_multiplier (update_notes 0.1 c4_game) = 1%Z /\
  score (update_notes 0.1 c4_game) = 501%Z.
Proof.
  pose proof (update_notes_miss_once c4_game 0.1 0 (mkNote 1 745 false false)
                eq_refl eq_refl eq_refl) as H.
  cbv zeta in H. destruct H as (H1 & H2 & H3 & H4 & _).
  repeat split; assumption.
Defined.

(** *** How long a note can stay active *)

Lemma positions_settle (dts : list float) :
  forall (g : RhythmGame) (i : nat) (n : Note),
    nth_error (notes g) i = Some n ->
    Exists (fun p => (750 <? p) = true) (positions (note_speed g) (y n) dts) ->
    exists m, nth_error (notes (run_updates dts g)) i = Some m /\
              active m = false.
Proof.
  induction dts as [|d dts IH]; intros g i n Hn Hex; [inversion Hex|].
  rewrite run_updates_step.
  destruct (active n) eqn:Ha.
  - simpl in Hex. apply Exists_cons in Hex.
    assert (Hm : nth_error (notes (update_notes d g)) i
                 = Some (moved (step_of g d) n))
      by (rewrite update_notes_at, Hn; reflexivity).
    destruct (miss_fires (step_of g d) n) eqn:Hf.
    + exists (moved (step_of g d) n). split.
      * apply run_updates_inactive; [exact Hm|].
        rewrite (moved_of_active _ _ Ha), Hf. reflexivity.
      * rewrite (moved_of_active _ _ Ha), Hf. reflexivity.
    + destruct Hex as [Hex|Hex].
      * unfold miss_fires, step_of in Hf. rewrite Ha, miss_line64 in Hf.
        simpl in Hf. congruence.
      * apply (IH _ _ _ Hm).
        rewrite update_notes_keeps_speed, (moved_of_active _ _ Ha). simpl.
        exact Hex.
  - exists n. split; [|exact Ha].
    apply run_updates_inactive; [|exact Ha].
    rewrite update_notes_at, Hn. simpl. rewrite (moved_inactive _ _ Ha). reflexivity.
Qed.

(** X13.  A note is settled by the end of a run of ticks as soon as one of
    the positions it would take, each the double that the tick computes
    from the one before, is above 750. *)
Theorem note_settled_in_time
    (g : RhythmGame) (dts : list float) (i : nat) (n : Note) :
  nth_error (notes g) i = Some n ->
  Exists (fun p => (750 <? p) = true) (positions (note_speed g) (y n) dts) ->
  exists m, nth_error (notes (run_updates dts g)) i = Some m /\
            active m = false.
Proof. apply positions_settle. Qed.

Lemma note_settled_in_time_witness :
  exists m, nth_error (notes (run_updates [2; 3] c1_game)) 0 = Some m /\
            active m = false.
Proof.
  apply (note_settled_in_time c1_game [2; 3] 0 (mkNote 2 100 false false) eq_refl).
  apply Exists_cons_tl, Exists_cons_hd. reflexivity.
Defined.

(** At the line itself: from 744 a tick of 0.04 s at speed 2.5 gives the
    double 750, which is not above 750, and the note stays active. *)
Lemma update_notes_at_the_line :
  nth_error (notes (update_notes 0.04 edge_game)) 0
  = Some (mkNote 1 750 false false) /\
  (750 < to_Q 744%float + to_Q 2.5%float * to_Q 0.04%float * 60)%Q.
Proof. split; [reflexivity|vm_compute; reflexivity]. Qed.

End Game64Facts.

(** ** The quality controller *)

Module PerfFacts.
Import Perf.

Lemma update_on_cooldown (now dt : Q) (pm : PerformanceMonitor) :
  now - last_adjustment pm <= 2 ->
  update now dt pm =
  (mkMonitor (push_frame dt (frame_times pm)) (quality_level pm)
             (last_adjustment pm), None).
Proof.
  intro H. unfold update.
  apply Qlt_bool_false_iff in H. rewrite H. reflexivity.
Qed.

(** *** The transitions *)

Lemma update_transition (now dt : Q) (pm : PerformanceMonitor) :
  let pm' := fst (update now dt pm) in
  (quality_level pm' = quality_level pm /\
   last_adjustment pm' = last_adjustment pm)
  \/
  (2 < now - last_adjustment pm /\ last_adjustment pm' = now /\
   ((quality_level pm = high /\ quality_level pm' = medium /\
     avg_fps_of dt pm < 45) \/
    (quality_level pm = medium /\ quality_level pm' = low /\
     avg_fps_of dt pm < 30) \/
    (quality_level pm = medium /\ quality_level pm' = high /\
     55 < avg_fps_of dt pm))).
Proof.
  unfold update, avg_fps_of.
  destruct (Qlt_bool 2 (now - last_adjustment pm)) eqn:Ecool;
    [|left; split; reflexivity].
  apply Qlt_bool_iff in Ecool.
  destruct (Qeq_bool _ 0); [left; split; reflexivity|].
  destruct (Qlt_bool _ 45) eqn:E45, (Qlt_bool _ 30) eqn:E30,
    (Qlt_bool 55 _) eqn:E55, (quality_level pm) eqn:Eq; simpl;
    try (left; split; reflexivity);
    right; (split; [assumption|]); (split; [reflexivity|]);
    try apply Qlt_bool_iff in E45; try apply Qlt_bool_iff in E30;
    try apply Qlt_bool_iff in E55; tauto.
Qed.

(** *** The buffer of frame durations *)

Lemma update_frame_times (now dt : Q) (pm : PerformanceMonitor) :
  frame_times (fst (update now dt pm)) = push_frame dt (frame_times pm).
Proof.
  unfold update.
  repeat match goal with |- context [if ?b then _ else _] => destruct b end;
    reflexivity.
Qed.

Lemma push_frame_not_nil (dt : Q) (ft : list Q) : push_frame dt ft <> [].
Proof.
  unfold push_frame.
  destruct (60 <? List.length (ft ++ [dt]))%nat eqn:E.
  - apply Nat.ltb_lt in E. destruct (ft ++ [dt]) as [|a [|b t]]; simpl in *;
      [lia|lia|discriminate].
  - destruct ft; discriminate.
Qed.

Lemma push_frame_window (dt : Q) (h : list Q) :
  push_frame dt (window h) = window (h ++ [dt]).
Proof.
  unfold push_frame, window.
  rewrite !length_app, length_skipn. simpl List.length.
  destruct (Nat.le_gt_cases (List.length h) 59) as [Hs|Hl].
  - replace (List.length h - 60)%nat with 0%nat by lia.
    replace (List.length h + 1 - 60)%nat with 0%nat by lia.
    rewrite !skipn_0.
    assert (E : (60 <? List.length h - 0 + 1)%nat = false)
      by (apply Nat.ltb_ge; lia).
    rewrite E. reflexivity.
  - assert (E : (60 <? List.length h - (List.length h - 60) + 1)%nat = true)
      by (apply Nat.ltb_lt; lia).
    rewrite E.
    replace (List.length h + 1 - 60)%nat with (S (List.length h - 60)) by lia.
    rewrite !skipn_app.
    replace (List.length h - 60 - List.length h)%nat with 0%nat by lia.
    replace (S (List.length h - 60) - List.length h)%nat with 0%nat by lia.
    rewrite !skipn_0.
    destruct (skipn (List.length h - 60) h) as [|a t] eqn:Es.
    + apply (f_equal (@List.length Q)) in Es.
      rewrite length_skipn in Es. simpl in Es. lia.
    + simpl. f_equal.
      change t with (skipn 1 (a :: t)). rewrite <- Es, skipn_skipn.
      reflexivity.
Qed.

Lemma fold_Qplus_pos (l : list Q) (acc : Q) :
  Forall (fun d => 0 < d) l -> 0 <= acc -> acc <= fold_left Qplus l acc.
Proof.
  revert acc. induction l as [|d l IH]; intros acc HF Hacc; simpl; [lra|].
  inversion HF; subst. apply Qle_trans with (acc + d); [lra|].
  apply IH; [assumption|lra].
Qed.

Lemma Qsum_pos (l : list Q) :
  l <> [] -> Forall (fun d => 0 < d) l -> 0 < Qsum l.
Proof.
  intros Hne HF. destruct l as [|d l]; [congruence|].
  inversion HF; subst. unfold Qsum. simpl.
  apply Qlt_le_trans with (0 + d); [lra|].
  apply fold_Qplus_pos; [assumption|lra].
Qed.

Lemma mean_zero_iff (ft : list Q) :
  ft <> [] -> (mean ft == 0 <-> Qsum ft == 0).
Proof.
  intro Hne. unfold mean.
  assert (Hlen : 0 < inject_Z (Z.of_nat (List.length ft))).
  { change 0 with (inject_Z 0). rewrite <- Zlt_Qlt.
    destruct ft; [congruence|simpl List.length; lia]. }
  set (n := inject_Z (Z.of_nat (List.length ft))) in *.
  split; intro H.
  - assert (E : Qsum ft == Qsum ft / n * n) by (field; lra).
    rewrite E, H. ring.
  - rewrite H. field. lra.
Qed.

Lemma update_raises_iff (now dt : Q) (pm : PerformanceMonitor) :
  (snd (update now dt pm) = Some ZeroDivisionError <->
   2 < now - last_adjustment pm /\
   Qsum (push_frame dt (frame_times pm)) == 0) /\
  (snd (update now dt pm) = None \/
   snd (update now dt pm) = Some ZeroDivisionError).
Proof.
  unfold update.
  destruct (Qlt_bool 2 (now - last_adjustment pm)) eqn:Ecool.
  - apply Qlt_bool_iff in Ecool.
    destruct (Qeq_bool (mean _) 0) eqn:Em.
    + apply Qeq_bool_iff in Em.
      apply (mean_zero_iff _ (push_frame_not_nil dt _)) in Em.
      simpl. split; [|right; reflexivity].
      split; [intros _; split; assumption|reflexivity].
    + assert (Hm : ~ Qsum (push_frame dt (frame_times pm)) == 0).
      { intro H. apply (mean_zero_iff _ (push_frame_not_nil dt _)) in H.
        apply Qeq_bool_iff in H. congruence. }
      repeat match goal with |- context [if ?b then _ else _] => destruct b end;
        simpl; (split; [|left; reflexivity]);
        (split; [discriminate|intros [_ H]; contradiction]).
  - apply Qlt_bool_false_iff in Ecool. simpl.
    split; [|left; reflexivity].
    split; [discriminate|intros [H _]; lra].
Qed.

Lemma skipn_Forall {A : Type} (P : A -> Prop) (n : nat) (l : list A) :
  Forall P l -> Forall P (skipn n l).
Proof.
  intro H. rewrite <- (firstn_skipn n l) in H.
  apply Forall_app in H. apply H.
Qed.

Lemma run_window (inputs : list (Q * Q)) :
  forall (pm : PerformanceMonitor) (h : list Q),
    frame_times pm = window h ->
    Forall (fun d => 0 < d) h ->
    Forall (fun d => 0 < d) (durations inputs) ->
    frame_times (run inputs pm) = window (h ++ durations inputs).
Proof.
  induction inputs as [|[now dt] rest IH]; intros pm h Hpm Hh Hin; simpl.
  - rewrite app_nil_r. exact Hpm.
  - inversion Hin as [|? ? Hdt Hrest]; subst.
    pose proof (update_frame_times now dt pm) as Hft.
    rewrite Hpm, push_frame_window in Hft.
    destruct (update_raises_iff now dt pm) as [Hiff _].
    destruct (update now dt pm) as [pm' [e|]] eqn:Eu; simpl in *.
    + exfalso.
      assert (He : Some e = Some ZeroDivisionError)
        by (destruct e; try reflexivity; exfalso;
            destruct (update_raises_iff now dt pm) as [_ [H|H]];
            rewrite Eu in H; simpl in H; discriminate).
      apply Hiff in He. destruct He as [_ Hz].
      rewrite Hpm, push_frame_window in Hz.
      assert (Hpos : 0 < Qsum (window (h ++ [dt]))).
      { apply Qsum_pos.
        - rewrite <- push_frame_window. apply push_frame_not_nil.
        - apply skipn_Forall. apply Forall_app. split; [assumption|].
          constructor; [assumption|constructor]. }
      lra.
    + rewrite (IH pm' (h ++ [dt])); trivial.
      * rewrite <- app_assoc. reflexivity.
      * apply Forall_app. split; [assumption|].
        constructor; [assumption|constructor].
Qed.

(** X8.  When every frame duration is positive, no call of a session
    raises, and the buffer then holds the last 60 durations of the session,
    oldest first (all of them while there are fewer than 60). *)
Theorem frame_times_sliding_window (inputs : list (Q * Q)) :
  Forall (fun d => 0 < d) (durations inputs) ->
  frame_times (run inputs init) = window (durations inputs) /\
  (List.length (frame_times (run inputs init)) <= 60)%nat.
Proof.
  intro H.
  assert (E : frame_times (run inputs init) = window (durations inputs)).
  { apply (run_window inputs init []); [reflexivity|constructor|exact H]. }
  split; [exact E|]. rewrite E. unfold window. rewrite length_skipn. lia.
Qed.

Lemma frame_times_sliding_window_witness :
  frame_times (run [(10, 0.016); (10.5, 0.017); (11, 0.02)] init)
  = [0.016; 0.017; 0.02].
Proof.
  apply (proj1 (frame_times_sliding_window
                  [(10, 0.016); (10.5, 0.017); (11, 0.02)]
                  ltac:(repeat constructor))).
Defined.

Lemma run_on_cooldown (inputs : list (Q * Q)) :
  forall pm : PerformanceMonitor,
    Forall (fun i => fst i - last_adjustment pm <= 2) inputs ->
    quality_level (run inputs pm) = quality_level pm /\
    last_adjustment (run inputs pm) = last_adjustment pm.
Proof.
  induction inputs as [|[now dt] rest IH]; intros pm H; simpl;
    [split; reflexivity|].
  inversion H as [|? ? Hnow Hrest]; subst. simpl in Hnow.
  rewrite (update_on_cooldown now dt pm Hnow).
  destruct (IH (mkMonitor (push_frame dt (frame_times pm)) (quality_level pm)
                          (last_adjustment pm)) Hrest) as [Hq Hl].
  split; assumption.
Qed.

(** X9.  After a call at clock value [now] has changed the quality level,
    the level stays as it is through all the calls that follow while the
    clock is at most 2 s later: two changes are more than 2 s apart. *)
Theorem one_change_per_cooldown
    (now dt : Q) (pm : PerformanceMonitor) (inputs : list (Q * Q)) :
  quality_level (fst (update now dt pm)) <> quality_level pm ->
  Forall (fun i => fst i - now <= 2) inputs ->
  quality_level (run inputs (fst (update now dt pm)))
  = quality_level (fst (update now dt pm)).
Proof.
  intros Hchange Hin.
  destruct (update_transition now dt pm) as [[E _]|(_ & Hl & _)];
    [contradiction|].
  apply run_on_cooldown. rewrite Hl. exact Hin.
Qed.

Lemma one_change_per_cooldown_witness :
  quality_level (run [(1004, 0.05); (1005, 0.05)]
                     (fst (update 1003 0.04 (slow_monitor high 1000))))
  = quality_level (fst (update 1003 0.04 (slow_monitor high 1000))).
Proof.
  apply (one_change_per_cooldown 1003 0.04 (slow_monitor high 1000)
           [(1004, 0.05); (1005, 0.05)]).
  - vm_compute. discriminate.
  - repeat constructor; vm_compute; discriminate.
Defined.

End PerfFacts.

(** ** The quality controller in binary64 *)

Module Perf64Facts.
Import Floats Float64 Float64Facts Perf64.
Local Open Scope float_scope.

Lemma update_guarded (now dt : float) (pm : PerformanceMonitor) :
  (2 <? now - last_adjustment pm) = false ->
  update now dt pm =
  (mkMonitor (push_frame dt (frame_times pm)) (quality_level pm)
             (last_adjustment pm), None).
Proof. intro H. unfold update. rewrite H. reflexivity. Qed.

Lemma push_frame_bounds (dt : float) (ft : list float) :
  (List.length ft <= 60)%nat ->
  (1 <= List.length (push_frame dt ft) <= 60)%nat.
Proof.
  intro H. unfold push_frame.
  assert (L : List.length (ft ++ [dt]) = S (List.length ft)).
  { rewrite length_app. simpl. lia. }
  destruct (60 <? List.length (ft ++ [dt]))%nat eqn:E.
  - apply Nat.ltb_lt in E.
    destruct (ft ++ [dt]) as [|x t]; simpl in *; lia.
  - apply Nat.ltb_ge in E. lia.
Qed.

Lemma update_buffer (now dt : float) (pm : PerformanceMonitor) :
  frame_times (fst (update now dt pm)) = push_frame dt (frame_times pm).
Proof.
  unfold update.
  repeat match goal with |- context [if ?b then _ else _] => destruct b end;
    reflexivity.
Qed.

Lemma first_call_evaluates (now dt : float) :
  (2 <? now - 0) = true ->
  (mean [dt] =? 0) = false ->
  (avg_fps_of dt init <? 45) = true ->
  update now dt init = (mkMonitor [dt] medium now, None).
Proof.
  intros Hnow Hm Hfps. unfold update, init, avg_fps_of in *.
  cbn [frame_times quality_level last_adjustment] in *.
  change (push_frame dt []) with [dt] in *.
  rewrite Hnow, Hm, Hfps. reflexivity.
Qed.

(** C7, as the code has it.  While on cooldown (the double
    [now - last_adjustment] is not above 2) a call only records the frame
    duration: quality level and cooldown timestamp are unchanged.  The
    buffer then holds between 1 and 60 durations, and no full window is
    waited for: the first call of a session, past the cooldown, evaluates
    the one duration it holds and moves the level from high to medium when
    the average it computes from it is below 45. *)
Theorem no_transition_on_cooldown (now dt : float) (pm : PerformanceMonitor) :
  ((2 <? now - last_adjustment pm) = false ->
     update now dt pm =
       (mkMonitor (push_frame dt (frame_times pm)) (quality_level pm)
                  (last_adjustment pm), None)) /\
  ((List.length (frame_times pm) <= 60)%nat ->
     (1 <= List.length (frame_times (fst (update now dt pm))) <= 60)%nat) /\
  ((2 <? now - 0) = true -> (mean [dt] =? 0) = false ->
   (avg_fps_of dt init <? 45) = true ->
     update now dt init = (mkMonitor [dt] medium now, None)).
Proof.
  split; [apply update_guarded|].
  split; [|apply first_call_evaluates].
  intro H. rewrite update_buffer. apply push_frame_bounds, H.
Qed.

Lemma no_transition_on_cooldown_witness :
  update 1001 0.04 (slow_monitor high 1000)
  = (mkMonitor (repeat 0.04 60) high 1000, None).
Proof.
  refine (eq_trans
    (proj1 (no_transition_on_cooldown 1001 0.04 (slow_monitor high 1000)) _) _).
  - reflexivity.
  - reflexivity.
Defined.

(** C7, as the claim states it, fails: the first call of a session, at a
    wall-clock time of 1700000000 s, changes the level with a single frame
    duration in the buffer. *)
Lemma transition_without_full_window :
  quality_level (fst (update 1700000000 0.04 init)) = medium /\
  quality_level init = high /\
  List.length (frame_times (fst (update 1700000000 0.04 init))) = 1%nat.
Proof. repeat split. Qed.

(** At the threshold: the double nearest to 1/45 is above 1/45, but the
    average computed from it is the double 45, which is not below 45. *)
Lemma first_call_at_the_threshold :
  update 1700000000 0.022222222222222223 init
  = (mkMonitor [0.022222222222222223] high 0, None) /\
  avg_fps_of 0.022222222222222223 init = 45 /\
  (1 # 45 < to_Q 0.022222222222222223%float)%Q.
Proof. split; [reflexivity|]. split; [reflexivity|]. vm_compute. reflexivity. Qed.

(** *** The transitions *)

Lemma update_cases (now dt : float) (pm : PerformanceMonitor) :
  let pm' := fst (update now dt pm) in
  (quality_level pm' = quality_level pm /\
   last_adjustment pm' = last_adjustment pm)
  \/
  ((2 <? now - last_adjustment pm) = true /\ last_adjustment pm' = now /\
   ((quality_level pm = high /\ quality_level pm' = medium /\
     (avg_fps_of dt pm <? 45) = true) \/
    (quality_level pm = medium /\ quality_level pm' = low /\
     (avg_fps_of dt pm <? 30) = true) \/
    (quality_level pm = medium /\ quality_level pm' = high /\
     (55 <? avg_fps_of dt pm) = true))).
Proof.
  unfold update, avg_fps_of.
  destruct (2 <? now - last_adjustment pm) eqn:Ecool;
    [|left; split; reflexivity].
  destruct (_ =? 0); [left; split; reflexivity|].
  destruct (_ <? 45) eqn:E45, (_ <? 30) eqn:E30,
    (55 <? _) eqn:E55, (quality_level pm) eqn:Eq; simpl;
    try (left; split; reflexivity);
    right; (split; [reflexivity|]); (split; [reflexivity|]); tauto.
Qed.

Lemma run_stays_low (inputs : list (float * float)) (pm : PerformanceMonitor) :
  quality_level pm = low -> quality_level (run inputs pm) = low.
Proof.
  revert pm. induction inputs as [|[now dt] rest IH]; intros pm H; simpl;
    [assumption|].
  assert (H1 : quality_level (fst (update now dt pm)) = low).
  { destruct (update_cases now dt pm) as [[E _]|(_ & _ & T)];
      [congruence|].
    destruct T as [(E & _)|[(E & _)|(E & _)]]; congruence. }
  destruct (update now dt pm) as [pm' [e|]]; simpl in H1;
    [assumption|apply IH; assumption].
Qed.

Lemma slow_monitor_to_medium (now last : float) :
  (2 <? now - last) = true ->
  update now 0.04 (slow_monitor high last)
  = (mkMonitor (repeat 0.04 60) medium now, None).
Proof.
  intro H. unfold update, slow_monitor.
  cbn [last_adjustment frame_times quality_level].
  rewrite H. reflexivity.
Qed.

(** C8.  A call of [update] either keeps the quality level, or takes one of
    three transitions, past the cooldown and stamping the clock: high to
    medium when the average it computes is below 45, medium to low below
    30, medium to high above 55.  So a low level never changes again, and
    from high with 60 buffered frames of 0.04 s (an average of about 25,
    below 30 as well as below 45) one call past the cooldown gives medium,
    not low. *)
Theorem quality_transitions (now dt : float) (pm : PerformanceMonitor) :
  (let pm' := fst (update now dt pm) in
   (quality_level pm' = quality_level pm /\
    last_adjustment pm' = last_adjustment pm)
   \/
   ((2 <? now - last_adjustment pm) = true /\ last_adjustment pm' = now /\
    ((quality_level pm = high /\ quality_level pm' = medium /\
      (avg_fps_of dt pm <? 45) = true) \/
     (quality_level pm = medium /\ quality_level pm' = low /\
      (avg_fps_of dt pm <? 30) = true) \/
     (quality_level pm = medium /\ quality_level pm' = high /\
      (55 <? avg_fps_of dt pm) = true)))) /\
  (forall inputs, quality_level pm = low ->
                  quality_level (run inputs pm) = low) /\
  ((2 <? now - last_adjustment pm) = true ->
   update now 0.04 (slow_monitor high (last_adjustment pm))
   = (mkMonitor (repeat 0.04 60) medium now, None)) /\
  (avg_fps_of 0.04 (slow_monitor high (last_adjustment pm)) <? 30) = true.
Proof.
  split; [apply update_cases|].
  split; [intros inputs; apply run_stays_low|].
  split; [apply slow_monitor_to_medium|].
  reflexivity.
Qed.

Lemma quality_transitions_witness :
  quality_level (run [(1003, 0.04); (1004, 0.01); (1006, 0.01)]
                     (slow_monitor low 1000)) = low /\
  update 1003 0.04 (slow_monitor high 1000)
  = (mkMonitor (repeat 0.04 60) medium 1003, None).
Proof.
  split.
  - apply (proj1 (proj2 (quality_transitions 1003 0.04 (slow_monitor low 1000)))).
    reflexivity.
  - apply (proj1 (proj2 (proj2
             (quality_transitions 1003 0.04 (slow_monitor high 1000))))).
    reflexivity.
Defined.

(** The thresholds are tested on the computed average: with durations of
    19, 45, 36, 47, 14 and 39 ms the doubles give 29.999999999999993, and
    the level goes from medium to low, although the real average of the
    six doubles is above 30. *)
Lemma transition_on_the_computed_average :
  avg_fps_of 0.039 uneven_monitor = 29.999999999999993 /\
  quality_level (fst (update 3 0.039 uneven_monitor)) = low /\
  (30 < 1 / (Qsum (map to_Q (push_frame 0.039%float (frame_times uneven_monitor)))
             / 6))%Q.
Proof. split; [reflexivity|]. split; [reflexivity|]. vm_compute. reflexivity. Qed.

(** *** Division by zero *)

Lemma update_raises_when (now dt : float) (pm : PerformanceMonitor) :
  (snd (update now dt pm) = Some ZeroDivisionError <->
   (2 <? now - last_adjustment pm) = true /\
   (mean (push_frame dt (frame_times pm)) =? 0) = true) /\
  (snd (update now dt pm) = None \/
   snd (update now dt pm) = Some ZeroDivisionError) /\
  (snd (update now dt pm) = Some ZeroDivisionError ->
   fst (update now dt pm)
   = mkMonitor (push_frame dt (frame_times pm)) (quality_level pm)
               (last_adjustment pm)).
Proof.
  unfold update.
  destruct (2 <? now - last_adjustment pm).
  - destruct (mean _ =? 0).
    + simpl. repeat split; auto.
    + repeat match goal with |- context [if ?b then _ else _] => destruct b end;
        simpl; (split; [split; [discriminate|intros [_ H]; discriminate H]|]);
        (split; [left; reflexivity|discriminate]).
  - simpl. split; [split; [discriminate|intros [H _]; discriminate H]|].
    split; [left; reflexivity|discriminate].
Qed.

(** X7.  [update] raises, and then [ZeroDivisionError], exactly when the
    cooldown is over and the mean it computes of the buffered durations,
    the new one included, is a zero: on the first frame of a session if
    its duration is 0, and also when the sum is not zero but the division
    by the length underflows.  The duration is recorded but the level and
    the timestamp are the ones before the call. *)
Theorem update_zero_division (now dt : float) (pm : PerformanceMonitor) :
  (snd (update now dt pm) = Some ZeroDivisionError <->
   (2 <? now - last_adjustment pm) = true /\
   (mean (push_frame dt (frame_times pm)) =? 0) = true) /\
  (snd (update now dt pm) = None \/
   snd (update now dt pm) = Some ZeroDivisionError) /\
  (snd (update now dt pm) = Some ZeroDivisionError ->
   fst (update now dt pm)
   = mkMonitor (push_frame dt (frame_times pm)) (quality_level pm)
               (last_adjustment pm)) /\
  ((2 <? now - 0) = true -> snd (update now 0 init) = Some ZeroDivisionError) /\
  ((2 <? now - 0) = true ->
   snd (update now 0 (mkMonitor [5e-324] high 0)) = Some ZeroDivisionError /\
   (sum [5e-324; 0] =? 0) = false).
Proof.
  destruct (update_raises_when now dt pm) as (H1 & H2 & H3).
  split; [exact H1|]. split; [exact H2|]. split; [exact H3|]. split.
  - intro Hnow. apply (proj1 (update_raises_when now 0 init)).
    split; [exact Hnow|reflexivity].
  - intro Hnow. split; [|reflexivity].
    apply (proj1 (update_raises_when now 0 (mkMonitor [5e-324] high 0))).
    split; [exact Hnow|reflexivity].
Qed.

Lemma update_zero_division_witness :
  fst (update 1700000000 0 init) = mkMonitor [0] high 0 /\
  snd (update 1700000000 0 init) = Some ZeroDivisionError.
Proof.
  split.
  - apply (proj1 (proj2 (proj2 (update_zero_division 1700000000 0 init)))).
    apply (proj1 (proj2 (proj2 (proj2 (update_zero_division 1700000000 0 init))))).
    reflexivity.
  - apply (proj1 (proj2 (proj2 (proj2 (update_zero_division 1700000000 0 init))))).
    reflexivity.
Defined.

End Perf64Facts.

(** ** The deduplication of a chart over exact times *)

Module ChartFacts.
Import Chart.

(** *** The sort *)

Lemma insert_by_time_perm (n : ChartNote) (l : list ChartNote) :
  Permutation (insert_by_time n l) (n :: l).
Proof.
  induction l as [|h t IH]; simpl; [apply Permutation_refl|].
  destruct (Qle_bool (time n) (time h)); [apply Permutation_refl|].
  apply perm_trans with (h :: n :: t); [|apply perm_swap].
  apply perm_skip, IH.
Qed.

Lemma sort_by_time_perm (l : list ChartNote) :
  Permutation (sort_by_time l) l.
Proof.
  induction l as [|n l IH]; simpl; [apply perm_nil|].
  apply perm_trans with (n :: sort_by_time l);
    [apply insert_by_time_perm|apply perm_skip, IH].
Qed.

Lemma insert_by_time_sorted (n : ChartNote) (l : list ChartNote) :
  StronglySorted by_time l -> StronglySorted by_time (insert_by_time n l).
Proof.
  induction l as [|h t IH]; intro H; simpl.
  - constructor; constructor.
  - inversion H as [|? ? Ht Hall]; subst.
    destruct (Qle_bool (time n) (time h)) eqn:E.
    + apply Qle_bool_iff in E. constructor; [assumption|].
      constructor; [exact E|].
      revert Hall. apply Forall_impl. intros a Ha.
      unfold by_time in *. lra.
    + constructor; [apply IH; assumption|].
      assert (Hlt : time h <= time n).
      { destruct (Qlt_le_dec (time h) (time n)) as [L|L]; [lra|].
        apply Qle_bool_iff in L. congruence. }
      apply (Permutation_Forall (Permutation_sym (insert_by_time_perm n t))).
      constructor; assumption.
Qed.

Lemma sort_by_time_sorted (l : list ChartNote) :
  StronglySorted by_time (sort_by_time l).
Proof.
  induction l as [|n l IH]; simpl; [constructor|].
  apply insert_by_time_sorted, IH.
Qed.

(** *** The loop of [remove_duplicate_notes] *)

Lemma keep_step_last (min_gap : Q) (first prev n : ChartNote)
    (acc : list ChartNote) :
  keep_step min_gap first (acc ++ [prev]) n =
  if keeps min_gap prev n then (acc ++ [prev]) ++ [n] else acc ++ [prev].
Proof.
  unfold keep_step, keeps. rewrite last_last.
  assert (E : Qle_bool (min_gap * 2) (time n - time prev)
              = Qle_bool (2 * min_gap) (time n - time prev)).
  { apply Qleb_comp; [ring|reflexivity]. }
  rewrite E. destruct (Qle_bool min_gap _); reflexivity.
Qed.

Lemma keep_loop (min_gap : Q) (first : ChartNote) (rest : list ChartNote) :
  forall (acc : list ChartNote) (prev : ChartNote),
    fold_left (keep_step min_gap first) rest (acc ++ [prev])
    = acc ++ prev :: keep_after min_gap prev rest.
Proof.
  induction rest as [|n rest IH]; intros acc prev; simpl; [reflexivity|].
  rewrite keep_step_last. destruct (keeps min_gap prev n).
  - rewrite IH, <- app_assoc. reflexivity.
  - apply IH.
Qed.

Lemma remove_duplicate_notes_dedup (notes : list ChartNote) (min_gap : Q) :
  remove_duplicate_notes notes min_gap = dedup min_gap (sort_by_time notes).
Proof.
  unfold remove_duplicate_notes, dedup.
  destruct notes as [|a [|b notes]]; [reflexivity|reflexivity|].
  change (List.length (a :: b :: notes) <=? 1)%nat with false.
  cbv iota. destruct (sort_by_time (a :: b :: notes)) as [|first rest];
    [reflexivity|].
  apply (keep_loop min_gap first rest [] first).
Qed.

(** C10, as the claim states it, fails: of the notes at 0, 0.12 and 0.20 in
    lanes 0, 1 and 0 the result with a gap of 0.1 has two notes, not
    three. *)
Lemma cross_lane_example_drops_third :
  remove_duplicate_notes [at_lane 0 0; at_lane 0.12 1; at_lane 0.20 0] 0.1
  <> [at_lane 0 0; at_lane 0.12 1; at_lane 0.20 0].
Proof. vm_compute. discriminate. Qed.

(** C10, as the code has it.  On that input the first two notes are kept
    and the third is dropped: the note kept before it is the one at 0.12,
    and its gap to that note is 0.08, below the minimum gap 0.1 that a note
    of another lane needs too. *)
Theorem cross_lane_example_keeps_two :
  remove_duplicate_notes [at_lane 0 0; at_lane 0.12 1; at_lane 0.20 0] 0.1
  = [at_lane 0 0; at_lane 0.12 1] /\
  keeps 0.1 (at_lane 0 0) (at_lane 0.12 1) = true /\
  keeps 0.1 (at_lane 0.12 1) (at_lane 0.20 0) = false /\
  time (at_lane 0.20 0) - time (at_lane 0.12 1) == 0.08.
Proof. repeat split. Qed.

(** *** Shape of the result of [remove_duplicate_notes] *)

Lemma subseq_refl {A : Type} (l : list A) : subseq l l.
Proof. induction l; constructor; assumption. Qed.

Lemma subseq_incl {A : Type} (l m : list A) : subseq l m -> incl l m.
Proof.
  induction 1 as [|x l m _ IH|x l m _ IH]; intros y Hy.
  - exact Hy.
  - right. apply IH, Hy.
  - destruct Hy as [->|Hy]; [left; reflexivity|right; apply IH, Hy].
Qed.

Lemma subseq_length {A : Type} (l m : list A) :
  subseq l m -> (List.length l <= List.length m)%nat.
Proof. induction 1; simpl; lia. Qed.

Lemma keep_after_subseq (min_gap : Q) (rest : list ChartNote) :
  forall prev, subseq (keep_after min_gap prev rest) rest.
Proof.
  induction rest as [|n rest IH]; intro prev; simpl; [constructor|].
  destruct (keeps min_gap prev n); constructor; apply IH.
Qed.

Lemma dedup_subseq (min_gap : Q) (l : list ChartNote) :
  subseq (dedup min_gap l) l.
Proof.
  destruct l as [|first rest]; simpl;
    [apply subseq_nil|apply subseq_keep, keep_after_subseq].
Qed.

Lemma keep_after_spaced (min_gap : Q) (rest : list ChartNote) :
  forall prev, Sorted (spaced min_gap) (prev :: keep_after min_gap prev rest).
Proof.
  induction rest as [|n rest IH]; intro prev; simpl.
  - repeat constructor.
  - destruct (keeps min_gap prev n) eqn:E; [|apply IH].
    constructor; [apply IH|]. constructor. exact E.
Qed.

Lemma dedup_spaced (min_gap : Q) (l : list ChartNote) :
  Sorted (spaced min_gap) (dedup min_gap l).
Proof.
  destruct l as [|first rest]; simpl; [constructor|apply keep_after_spaced].
Qed.

Lemma subseq_sorted (l m : list ChartNote) :
  subseq l m -> StronglySorted by_time m -> StronglySorted by_time l.
Proof.
  induction 1 as [|x l m Hs IH|x l m Hs IH]; intro H.
  - constructor.
  - inversion H; subst. apply IH; assumption.
  - inversion H as [|? ? Hm Hall]; subst. constructor; [apply IH, Hm|].
    apply Forall_forall. intros z Hz.
    apply (proj1 (Forall_forall _ _) Hall z). apply (subseq_incl _ _ Hs z Hz).
Qed.

Lemma sort_by_time_sorted_id (l : list ChartNote) :
  StronglySorted by_time l -> sort_by_time l = l.
Proof.
  induction 1 as [|n l Hl IH Hall]; [reflexivity|].
  cbn [sort_by_time fold_right]. fold (sort_by_time l). rewrite IH.
  destruct l as [|h t]; [reflexivity|].
  cbn [insert_by_time]. inversion Hall as [|? ? Hh _]; subst.
  apply Qle_bool_iff in Hh. rewrite Hh. reflexivity.
Qed.

Lemma keep_after_spaced_id (min_gap : Q) (rest : list ChartNote) :
  forall prev, Sorted (spaced min_gap) (prev :: rest) ->
               keep_after min_gap prev rest = rest.
Proof.
  induction rest as [|n rest IH]; intros prev H; [reflexivity|].
  inversion H as [|? ? Hrest Hhd]; subst. inversion Hhd as [|? ? Hk]; subst.
  simpl. unfold spaced in Hk. rewrite Hk. f_equal. apply IH, Hrest.
Qed.

Lemma dedup_spaced_id (min_gap : Q) (l : list ChartNote) :
  Sorted (spaced min_gap) l -> dedup min_gap l = l.
Proof.
  destruct l as [|first rest]; intro H; simpl; [reflexivity|].
  f_equal. apply keep_after_spaced_id, H.
Qed.

Lemma Sorted_consecutive {A : Type} (R : A -> A -> Prop) (l : list A) :
  Sorted R l ->
  forall (i : nat) (a b : A),
    nth_error l i = Some a -> nth_error l (S i) = Some b -> R a b.
Proof.
  induction 1 as [|x l Hl IH Hhd]; intros i a b Ha Hb.
  - destruct i; discriminate.
  - destruct i as [|i].
    + simpl in Ha, Hb. injection Ha as <-.
      destruct l as [|y l]; [discriminate|]. simpl in Hb. injection Hb as <-.
      inversion Hhd; assumption.
    + apply (IH i); assumption.
Qed.

(** X2.  [remove_duplicate_notes] is idempotent: on its own result it
    changes nothing. *)
Theorem remove_duplicate_notes_idempotent
    (notes : list ChartNote) (min_gap : Q) :
  remove_duplicate_notes (remove_duplicate_notes notes min_gap) min_gap
  = remove_duplicate_notes notes min_gap.
Proof.
  rewrite (remove_duplicate_notes_dedup (remove_duplicate_notes _ _)).
  rewrite remove_duplicate_notes_dedup.
  rewrite sort_by_time_sorted_id.
  - apply dedup_spaced_id, dedup_spaced.
  - apply (subseq_sorted _ _ (dedup_subseq _ _)), sort_by_time_sorted.
Qed.

(** X3.  [remove_duplicate_notes] only leaves notes out: its result is the
    input sorted by time with some notes removed, so every note of it is a
    note of the input; it is never longer than the input, and on a
    non-empty input it starts with the first note of the sorted input. *)
Theorem remove_duplicate_notes_selects
    (notes : list ChartNote) (min_gap : Q) :
  subseq (remove_duplicate_notes notes min_gap) (sort_by_time notes) /\
  incl (remove_duplicate_notes notes min_gap) notes /\
  (List.length (remove_duplicate_notes notes min_gap) <= List.length notes)%nat /\
  (notes <> [] ->
   exists first rest out,
     sort_by_time notes = first :: rest /\
     remove_duplicate_notes notes min_gap = first :: out).
Proof.
  rewrite remove_duplicate_notes_dedup.
  pose proof (dedup_subseq min_gap (sort_by_time notes)) as Hs.
  pose proof (sort_by_time_perm notes) as Hp.
  repeat split.
  - exact Hs.
  - intros n Hn. apply (Permutation_in _ Hp). apply (subseq_incl _ _ Hs n Hn).
  - rewrite <- (Permutation_length Hp). apply subseq_length, Hs.
  - intro Hne. destruct (sort_by_time notes) as [|first rest] eqn:E.
    + apply Permutation_nil in Hp. contradiction.
    + exists first, rest, (keep_after min_gap first rest). split; reflexivity.
Qed.

Lemma remove_duplicate_notes_selects_witness :
  exists first rest out,
    sort_by_time [at_lane 2.0 1; at_lane 1.0 0] = first :: rest /\
    remove_duplicate_notes [at_lane 2.0 1; at_lane 1.0 0] 0.1 = first :: out.
Proof.
  apply (proj2 (proj2 (proj2
    (remove_duplicate_notes_selects [at_lane 2.0 1; at_lane 1.0 0] 0.1)))).
  discriminate.
Defined.


End ChartFacts.

(** ** The chart generator in binary64 *)

Module Chart64Facts.
Import Floats Float64 Float64Facts Chart64.
Local Open Scope float_scope.

(** *** The sort *)

Lemma insert_by_time_permutation (n : ChartNote) (l : list ChartNote) :
  Permutation (insert_by_time n l) (n :: l).
Proof.
  induction l as [|h t IH]; simpl; [apply Permutation_refl|].
  destruct (time h <? time n); [|apply Permutation_refl].
  apply perm_trans with (h :: n :: t); [|apply perm_swap].
  apply perm_skip, IH.
Qed.

Lemma sort_by_time_permutation (l : list ChartNote) :
  Permutation (sort_by_time l) l.
Proof.
  induction l as [|n l IH]; simpl; [apply perm_nil|].
  apply perm_trans with (n :: sort_by_time l);
    [apply insert_by_time_permutation|apply perm_skip, IH].
Qed.

Lemma sort_by_time_no_nan (l : list ChartNote) :
  no_nan l -> no_nan (sort_by_time l).
Proof.
  apply Permutation_Forall, Permutation_sym, sort_by_time_permutation.
Qed.

Lemma insert_by_time_ascending (n : ChartNote) (l : list ChartNote) :
  is_nan (time n) = false -> no_nan l ->
  StronglySorted by_time l -> StronglySorted by_time (insert_by_time n l).
Proof.
  intros Hn Hl H. induction H as [|h t Ht IH Hall]; simpl.
  - constructor; constructor.
  - inversion Hl as [|? ? Hh Hl']; subst.
    destruct (time h <? time n) eqn:E.
    + constructor; [apply IH, Hl'|].
      apply (Permutation_Forall (Permutation_sym (insert_by_time_permutation n t))).
      constructor; [apply ltb_leb, E|exact Hall].
    + assert (Hle : (time n <=? time h) = true)
        by (apply ltb_false_leb; assumption).
      constructor; [constructor; assumption|].
      constructor; [exact Hle|].
      revert Hall. apply Forall_impl. intros x Hx.
      apply (leb_trans _ _ _ Hle Hx).
Qed.

Lemma sort_by_time_ascending (l : list ChartNote) :
  no_nan l -> StronglySorted by_time (sort_by_time l).
Proof.
  induction 1 as [|n l Hn Hl IH]; simpl; [constructor|].
  apply insert_by_time_ascending;
    [exact Hn|apply sort_by_time_no_nan, Hl|exact IH].
Qed.

(** The sort is stable: notes of equal time keep their order. *)
Lemma insert_by_time_keeps_order (t : float) (n : ChartNote) (l : list ChartNote) :
  at_time t (insert_by_time n l) = at_time t (n :: l).
Proof.
  induction l as [|h l IH]; [reflexivity|].
  cbn [insert_by_time].
  destruct (time h <? time n) eqn:E; [|reflexivity].
  unfold at_time in *. cbn [filter] in *. rewrite IH.
  destruct (time h =? t) eqn:Eh, (time n =? t) eqn:En;
    try reflexivity.
  rewrite (eqb_eqb_ltb _ _ _ Eh En) in E. discriminate E.
Qed.

Lemma sort_by_time_keeps_order (t : float) (l : list ChartNote) :
  at_time t (sort_by_time l) = at_time t l.
Proof.
  induction l as [|n l IH]; [reflexivity|].
  cbn [sort_by_time fold_right]. rewrite insert_by_time_keeps_order.
  unfold at_time in *. cbn [filter]. fold (sort_by_time l). rewrite IH.
  reflexivity.
Qed.

(** *** The loop of [remove_duplicate_notes] *)

Lemma keep_step_keeps (min_gap : float) (first prev n : ChartNote)
    (acc : list ChartNote) :
  keep_step min_gap first (acc ++ [prev]) n =
  if keeps min_gap prev n then (acc ++ [prev]) ++ [n] else acc ++ [prev].
Proof.
  unfold keep_step, keeps. rewrite last_last.
  destruct (min_gap <=? _); reflexivity.
Qed.

Lemma keep_loop_keep_after (min_gap : float) (first : ChartNote)
    (rest : list ChartNote) :
  forall (acc : list ChartNote) (prev : ChartNote),
    fold_left (keep_step min_gap first) rest (acc ++ [prev])
    = acc ++ prev :: keep_after min_gap prev rest.
Proof.
  induction rest as [|n rest IH]; intros acc prev; simpl; [reflexivity|].
  rewrite keep_step_keeps. destruct (keeps min_gap prev n).
  - rewrite IH, <- app_assoc. reflexivity.
  - apply IH.
Qed.

Lemma remove_duplicate_notes_is_dedup (notes : list ChartNote) (min_gap : float) :
  remove_duplicate_notes notes min_gap = dedup min_gap (sort_by_time notes).
Proof.
  unfold remove_duplicate_notes, dedup.
  destruct notes as [|a [|b notes]]; [reflexivity|reflexivity|].
  change (List.length (a :: b :: notes) <=? 1)%nat with false.
  cbv iota. destruct (sort_by_time (a :: b :: notes)) as [|first rest];
    [reflexivity|].
  apply (keep_loop_keep_after min_gap first rest [] first).
Qed.

Lemma keeps_iff (min_gap : float) (prev n : ChartNote) :
  keeps min_gap prev n = true <->
  (min_gap <=? time n - time prev) = true /\
  ((min_gap * 2 <=? time n - time prev) = true \/ lane n <> lane prev).
Proof.
  unfold keeps.
  rewrite andb_true_iff, orb_true_iff, negb_true_iff, Z.eqb_neq. reflexivity.
Qed.

(** C9.  On notes none of whose times is a NaN, as the notes of
    [generate_chart] are, [remove_duplicate_notes] returns what the rule
    gives on the notes sorted by time (a permutation of the input,
    ascending, notes of equal time in their input order): the first note
    is kept, and a later note is kept if and only if its gap to the note
    kept before it, the double that the subtraction of the two times
    gives, is at least [min_gap] and either that gap is at least twice
    [min_gap] or the two lanes differ.  On times 1.0, 1.05, 2.0 in lanes
    0, 0, 1 with a gap of 0.1 the result is the first and the third note;
    on times 0.008 and 0.108 the computed gap is the double 0.1 itself, and
    both notes are kept. *)
Theorem remove_duplicate_notes_rule :
  (forall (notes : list ChartNote) (min_gap : float),
     no_nan notes ->
     remove_duplicate_notes notes min_gap = dedup min_gap (sort_by_time notes) /\
     Permutation (sort_by_time notes) notes /\
     StronglySorted by_time (sort_by_time notes) /\
     (forall t, at_time t (sort_by_time notes) = at_time t notes)) /\
  (forall (min_gap : float) (prev n : ChartNote),
     keeps min_gap prev n = true <->
     (min_gap <=? time n - time prev) = true /\
     ((min_gap * 2 <=? time n - time prev) = true \/ lane n <> lane prev)) /\
  remove_duplicate_notes [at_lane 1.0 0; at_lane 1.05 0; at_lane 2.0 1] 0.1
  = [at_lane 1.0 0; at_lane 2.0 1] /\
  remove_duplicate_notes [at_lane 0.008 0; at_lane 0.108 1] 0.1
  = [at_lane 0.008 0; at_lane 0.108 1] /\
  0.108 - 0.008 = 0.1.
Proof.
  split; [|split; [|split; [|split]]].
  - intros notes min_gap Hnan. split; [apply remove_duplicate_notes_is_dedup|].
    split; [apply sort_by_time_permutation|].
    split; [apply sort_by_time_ascending, Hnan|].
    intro t. apply sort_by_time_keeps_order.
  - apply keeps_iff.
  - reflexivity.
  - reflexivity.
  - reflexivity.
Qed.

(** *** Shape of the result of [remove_duplicate_notes] *)

Lemma keep_after_is_subseq (min_gap : float) (rest : list ChartNote) :
  forall prev, subseq (keep_after min_gap prev rest) rest.
Proof.
  induction rest as [|n rest IH]; intro prev; simpl; [constructor|].
  destruct (keeps min_gap prev n); constructor; apply IH.
Qed.

Lemma dedup_is_subseq (min_gap : float) (l : list ChartNote) :
  subseq (dedup min_gap l) l.
Proof.
  destruct l as [|first rest]; simpl;
    [constructor|constructor; apply keep_after_is_subseq].
Qed.

Lemma keep_after_is_spaced (min_gap : float) (rest : list ChartNote) :
  forall prev, Sorted (spaced min_gap) (prev :: keep_after min_gap prev rest).
Proof.
  induction rest as [|n rest IH]; intro prev; simpl.
  - repeat constructor.
  - destruct (keeps min_gap prev n) eqn:E; [|apply IH].
    constructor; [apply IH|]. constructor. exact E.
Qed.

Lemma dedup_is_spaced (min_gap : float) (l : list ChartNote) :
  Sorted (spaced min_gap) (dedup min_gap l).
Proof.
  destruct l as [|first rest]; simpl; [constructor|apply keep_after_is_spaced].
Qed.

Lemma subseq_ascending (l m : list ChartNote) :
  subseq l m -> StronglySorted by_time m -> StronglySorted by_time l.
Proof.
  induction 1 as [|x l m Hs IH|x l m Hs IH]; intro H.
  - constructor.
  - inversion H; subst. apply IH; assumption.
  - inversion H as [|? ? Hm Hall]; subst. constructor; [apply IH, Hm|].
    apply Forall_forall. intros z Hz.
    apply (proj1 (Forall_forall _ _) Hall z).
    apply (ChartFacts.subseq_incl _ _ Hs z Hz).
Qed.

(** X1.  In the list that [remove_duplicate_notes] returns for notes whose
    times are not NaN, the times ascend, and for two neighbours [a], [b]
    the double [b.time - a.time] is at least [min_gap], and at least
    [min_gap * 2] when they share a lane. *)
Theorem remove_duplicate_notes_spacing
    (notes : list ChartNote) (min_gap : float) (i : nat) (a b : ChartNote) :
  no_nan notes ->
  nth_error (remove_duplicate_notes notes min_gap) i = Some a ->
  nth_error (remove_duplicate_notes notes min_gap) (S i) = Some b ->
  StronglySorted by_time (remove_duplicate_notes notes min_gap) /\
  (min_gap <=? time b - time a) = true /\
  (lane b = lane a -> (min_gap * 2 <=? time b - time a) = true).
Proof.
  intros Hnan Ha Hb. rewrite remove_duplicate_notes_is_dedup in *.
  split.
  - apply (subseq_ascending _ _ (dedup_is_subseq _ _)).
    apply sort_by_time_ascending, Hnan.
  - pose proof (ChartFacts.Sorted_consecutive _ _ (dedup_is_spaced min_gap _)
                  i a b Ha Hb) as H.
    apply keeps_iff in H.
    destruct H as [H1 H2]. split; [exact H1|].
    intro Hl. destruct H2 as [H2|H2]; [exact H2|contradiction].
Qed.

Lemma remove_duplicate_notes_spacing_witness :
  StronglySorted by_time
    (remove_duplicate_notes [at_lane 2.0 1; at_lane 1.05 0; at_lane 1.0 0] 0.1) /\
  (0.1 <=? time (at_lane 2.0 1) - time (at_lane 1.0 0)) = true /\
  (lane (at_lane 2.0 1) = lane (at_lane 1.0 0) ->
   (0.1 * 2 <=? time (at_lane 2.0 1) - time (at_lane 1.0 0)) = true).
Proof.
  apply (remove_duplicate_notes_spacing
           [at_lane 2.0 1; at_lane 1.05 0; at_lane 1.0 0] 0.1 0
           (at_lane 1.0 0) (at_lane 2.0 1)).
  - repeat constructor.
  - reflexivity.
  - reflexivity.
Defined.

(** *** [choose_lane_musically] *)

Lemma scale_at_keeps_length (l : list float) (i : Z) (f : float) (l' : list float) :
  scale_at l i f = Some l' -> List.length l' = List.length l.
Proof.
  unfold scale_at.
  set (j := if (0 <=? i)%Z then i else (Z.of_nat (List.length l) + i)%Z).
  destruct ((0 <=? j)%Z && (j <? Z.of_nat (List.length l))%Z) eqn:E;
    [|discriminate].
  intro H. injection H as <-.
  apply andb_true_iff in E. destruct E as [E1 E2].
  apply Z.leb_le in E1. apply Z.ltb_lt in E2.
  assert (Hj : (Z.to_nat j < List.length l)%nat) by lia.
  destruct (nth_error l (Z.to_nat j)) eqn:En;
    [|apply nth_error_None in En; lia].
  rewrite !length_app, length_firstn.
  change (match l with [] => [] | _ :: l0 => skipn (Z.to_nat j) l0 end)
    with (skipn (S (Z.to_nat j)) l).
  rewrite length_skipn. simpl. lia.
Qed.

Lemma scale_at_defined (l : list float) (i : Z) (f : float) :
  (exists l', scale_at l i f = Some l') <->
  (- Z.of_nat (List.length l) <= i < Z.of_nat (List.length l))%Z.
Proof.
  unfold scale_at.
  set (j := if (0 <=? i)%Z then i else (Z.of_nat (List.length l) + i)%Z).
  assert (Hj : (0 <= j < Z.of_nat (List.length l))%Z <->
               (- Z.of_nat (List.length l) <= i < Z.of_nat (List.length l))%Z).
  { unfold j. destruct (0 <=? i)%Z eqn:E;
      [apply Z.leb_le in E|apply Z.leb_gt in E]; lia. }
  destruct ((0 <=? j)%Z && (j <? Z.of_nat (List.length l))%Z) eqn:E.
  - apply andb_true_iff in E. destruct E as [E1 E2].
    apply Z.leb_le in E1. apply Z.ltb_lt in E2.
    split; [intros _; apply Hj; lia|intros _; eexists; reflexivity].
  - apply andb_false_iff in E.
    split; [intros [l' H]; discriminate|].
    intro H. apply Hj in H.
    destruct E as [E|E]; [apply Z.leb_gt in E|apply Z.ltb_ge in E]; lia.
Qed.

Lemma penalise_defined (lanes : list Z) :
  forall w : list float,
    List.length w = Z.to_nat NUM_LANES ->
    Forall lane_indexable lanes ->
    exists w', penalise lanes w = Some w' /\
               List.length w' = Z.to_nat NUM_LANES.
Proof.
  induction lanes as [|l lanes IH]; intros w Hw HF; simpl.
  - exists w. split; [reflexivity|assumption].
  - inversion HF as [|? ? Hl HF']; subst.
    destruct (proj2 (scale_at_defined w l 0.3)) as [w1 H1].
    { rewrite Hw. exact Hl. }
    rewrite H1. apply IH; [|assumption].
    rewrite (scale_at_keeps_length _ _ _ _ H1). assumption.
Qed.

Lemma penalise_raises (lanes : list Z) :
  forall w : list float,
    List.length w = Z.to_nat NUM_LANES ->
    Exists (fun l => ~ lane_indexable l) lanes ->
    penalise lanes w = None.
Proof.
  induction lanes as [|l lanes IH]; intros w Hw HE; simpl;
    [inversion HE|].
  destruct (scale_at w l 0.3) as [w1|] eqn:H1; [|reflexivity].
  assert (Hl : lane_indexable l).
  { unfold lane_indexable.
    pose proof (proj1 (scale_at_defined w l 0.3) (ex_intro _ w1 H1)) as H.
    rewrite Hw in H. exact H. }
  inversion HE as [? ? Hbad|? ? HE']; subst; [contradiction|].
  apply IH; [|assumption].
  rewrite (scale_at_keeps_length _ _ _ _ H1). assumption.
Qed.

Lemma pick_in_range (w : list float) :
  forall (rand_val cumulative : float) (i : Z),
    (0 <= i)%Z -> (i + Z.of_nat (List.length w) <= NUM_LANES)%Z ->
    (0 <= pick rand_val cumulative i w < NUM_LANES)%Z.
Proof.
  induction w as [|x w IH]; intros rv c i Hi Hlen; simpl.
  - unfold NUM_LANES. lia.
  - destruct (rv <=? c + x).
    + simpl in Hlen. lia.
    + apply IH; [lia|]. simpl List.length in Hlen. lia.
Qed.

Lemma encourage_keeps_length (last_lane : Z) (w : list float) :
  List.length w = Z.to_nat NUM_LANES ->
  List.length (encourage last_lane w) = Z.to_nat NUM_LANES.
Proof.
  intro H. unfold encourage. rewrite length_map, length_combine, H. reflexivity.
Qed.

Lemma recent_lanes_of_notes (current_time : float) (notes : list ChartNote)
    (P : Z -> Prop) :
  Forall (fun n => P (lane n)) notes ->
  Forall P (recent_lanes current_time notes).
Proof.
  intro H. unfold recent_lanes, last_n. apply Forall_map.
  apply Forall_forall. intros n Hn.
  apply (proj1 (Forall_forall _ _) H).
  set (k := (_ - 4)%nat) in Hn.
  set (recent := recent_notes current_time notes) in *.
  assert (Hr : In n recent).
  { rewrite <- (firstn_skipn k recent). apply in_or_app. right. exact Hn. }
  apply filter_In in Hr. apply Hr.
Qed.

Lemma choose_lane_musically_returns
    (current_time bpm : float) (notes : list ChartNote) (u : float) (i : Z) :
  (0 <= i < NUM_LANES)%Z ->
  Forall lane_indexable (recent_lanes current_time notes) ->
  exists l, choose_lane_musically current_time bpm notes u i = Some l /\
            (0 <= l < NUM_LANES)%Z.
Proof.
  intros Hi HF. unfold choose_lane_musically.
  destruct (penalise_defined (recent_lanes current_time notes)
              (repeat 1 (Z.to_nat NUM_LANES)))
    as (w & Hw & Hlen); [apply repeat_length|exact HF|].
  unfold recent_lanes in Hw. rewrite Hw.
  set (w' := match rev _ with [] => w | n :: _ => encourage (lane n) w end).
  assert (Hlen' : List.length w' = Z.to_nat NUM_LANES).
  { unfold w'. destruct (rev _); [assumption|apply encourage_keeps_length, Hlen]. }
  destruct (sum w' =? 0).
  - eexists. split; [reflexivity|exact Hi].
  - eexists. split; [reflexivity|].
    apply pick_in_range; [lia|]. rewrite Hlen'. unfold NUM_LANES. lia.
Qed.

(** X4.  [choose_lane_musically] returns a lane of [0 .. NUM_LANES - 1]
    whenever the lanes it reads, those of the last four notes of the past
    two seconds, are indices that [lane_weights] accepts (from
    [-NUM_LANES] to [NUM_LANES - 1]); and it raises [IndexError] when one
    of them is not.  A note is of the past two seconds when the double
    [current_time - n["time"]] is below 2: at 2.001 a note of time 0.001
    is not, the difference being the double 2. *)
Theorem choose_lane_musically_in_range
    (current_time bpm : float) (notes : list ChartNote) (u : float) (i : Z) :
  ((0 <= i < NUM_LANES)%Z ->
   Forall lane_indexable (recent_lanes current_time notes) ->
   exists l, choose_lane_musically current_time bpm notes u i = Some l /\
             (0 <= l < NUM_LANES)%Z) /\
  (Exists (fun l => ~ lane_indexable l) (recent_lanes current_time notes) ->
   choose_lane_musically current_time bpm notes u i = None) /\
  recent_lanes 2.001 [at_lane 0.001 7] = [] /\
  recent_lanes 2 [at_lane 0.001 7] = [7%Z].
Proof.
  split; [apply choose_lane_musically_returns|].
  split; [|split; reflexivity].
  intro HE. unfold choose_lane_musically.
  unfold recent_lanes in HE.
  rewrite penalise_raises; [reflexivity|apply repeat_length|exact HE].
Qed.

Lemma choose_lane_musically_in_range_witness :
  (exists l, choose_lane_musically 1 120 [at_lane 0.5 3; at_lane 0.75 (-1)] 0.3 0
             = Some l /\ (0 <= l < NUM_LANES)%Z) /\
  choose_lane_musically 1 120 [at_lane 0.5 4] 0.3 0 = None.
Proof.
  split.
  - apply (proj1 (choose_lane_musically_in_range 1 120
                    [at_lane 0.5 3; at_lane 0.75 (-1)] 0.3 0)).
    + unfold NUM_LANES. lia.
    + repeat constructor; unfold lane_indexable, NUM_LANES; simpl; lia.
  - apply (proj1 (proj2 (choose_lane_musically_in_range 1 120 [at_lane 0.5 4] 0.3 0))).
    left. unfold lane_indexable, NUM_LANES. simpl. lia.
Defined.

(** *** [generate_chart] on a malformed summary *)

Lemma chart_loop_unfold (fuel : nat) (a : Analysis) (difficulty : string)
    (beat_interval : float) (r : Rng) (k : nat) (current_time : float)
    (notes : list ChartNote) :
  chart_loop (S fuel) a difficulty beat_interval r k current_time notes =
  if current_time <? duration a then
    match py_int current_time with
    | inr e => Raise e
    | inl z =>
        match py_index (energy_levels a)
                (Z.min z (Z.of_nat (List.length (energy_levels a)) - 1)) with
        | None => Raise IndexError
        | Some e =>
            if random r k <? base_density difficulty * e then
              match choose_lane_musically current_time (bpm a) notes
                      (random r (S k)) (randint r (S k)) with
              | None => Raise IndexError
              | Some l =>
                  chart_loop fuel a difficulty beat_interval r (3 + k)
                    (current_time
                     + time_advance beat_interval difficulty (random r (2 + k)%nat))
                    (notes ++ [mkChartNote current_time l (Some e)])
              end
            else
              chart_loop fuel a difficulty beat_interval r (2 + k)
                (current_time
                 + time_advance beat_interval difficulty (random r (S k)))
                notes
        end
    end
  else Ok (remove_duplicate_notes notes 0.1).
Proof. reflexivity. Qed.

Lemma generate_chart_zero (fuel : nat) (a : Analysis)
    (difficulty : string) (r : Rng) :
  (bpm a =? 0) = true -> generate_chart fuel a difficulty r = Raise ZeroDivisionError.
Proof. intro H. unfold generate_chart. rewrite H. reflexivity. Qed.

Lemma generate_chart_empty_energy (fuel : nat) (a : Analysis)
    (difficulty : string) (r : Rng) :
  (bpm a =? 0) = false -> energy_levels a = [] -> (0 <? duration a) = true ->
  generate_chart (S fuel) a difficulty r = Raise IndexError.
Proof.
  intros Hb He Hd. unfold generate_chart. rewrite Hb, chart_loop_unfold, Hd, He.
  reflexivity.
Qed.

Lemma generate_chart_no_duration (fuel : nat) (a : Analysis)
    (difficulty : string) (r : Rng) :
  (bpm a =? 0) = false -> (0 <? duration a) = false ->
  generate_chart (S fuel) a difficulty r = Ok [].
Proof.
  intros Hb Hd. unfold generate_chart. rewrite Hb, chart_loop_unfold, Hd.
  reflexivity.
Qed.

(** With a beat interval that is not positive the time does not advance. *)
Lemma time_advance_le0 (beat_interval : float) (difficulty : string) (u : float) :
  (beat_interval <=? 0) = true ->
  (0 <? advance_factor u) = true -> (advance_factor u <? infinity) = true ->
  (time_advance beat_interval difficulty u <=? 0) = true.
Proof.
  intros Hb H1 H2. unfold time_advance.
  change (0.5 + uniform 0 0.5 u) with (advance_factor u).
  pose proof (mul_le0 _ _ Hb H1 H2) as Ht.
  destruct (difficulty =? "Expert")%string;
    [|destruct (difficulty =? "Easy")%string]; trivial;
    apply mul_le0; trivial; reflexivity.
Qed.

Section Backwards.

Variables (a : Analysis) (difficulty : string) (beat_interval : float) (r : Rng).
Hypothesis beat_le0 : (beat_interval <=? 0) = true.
Hypothesis duration_positive : (0 <? duration a) = true.
Hypothesis factors : steady r.

(** From a time that is not positive the loop never ends normally: the
    time stays below the duration. *)
Lemma chart_loop_never_returns (fuel : nat) :
  forall (k : nat) (current_time : float) (notes chart : list ChartNote),
    (current_time <=? 0) = true ->
    chart_loop fuel a difficulty beat_interval r k current_time notes <> Ok chart.
Proof.
  induction fuel as [|fuel IH]; intros k ct notes chart Hct; [discriminate|].
  rewrite chart_loop_unfold.
  rewrite (leb_ltb_trans _ _ _ Hct duration_positive).
  assert (Hstep : forall j,
            (ct + time_advance beat_interval difficulty (random r j) <=? 0) = true).
  { intro j. apply add_le0; [exact Hct|].
    apply time_advance_le0; [exact beat_le0|apply factors|apply factors]. }
  destruct (py_int ct) as [z|e]; [|discriminate].
  destruct (py_index _ _) as [e|]; [|discriminate].
  destruct (random r k <? _).
  - destruct (choose_lane_musically _ _ _ _ _) as [l|]; [|discriminate].
    apply IH, Hstep.
  - apply IH, Hstep.
Qed.

End Backwards.

Lemma generate_chart_negative (a : Analysis) (difficulty : string) (r : Rng) :
  (bpm a <? 0) = true -> (0 <? duration a) = true -> steady r ->
  forall (fuel : nat) (chart : list ChartNote),
    generate_chart fuel a difficulty r <> Ok chart.
Proof.
  intros Hb Hd Hr fuel chart. unfold generate_chart.
  destruct (bpm a =? 0); [discriminate|].
  apply chart_loop_never_returns; trivial.
  apply div_le0; [reflexivity|reflexivity|exact Hb].
Qed.

(** With [bpm = -inf] the beat interval is [-0.0] and the time stays at 0:
    the loop does not end. *)
Lemma chart_loop_stalls (fuel : nat) :
  forall k,
    chart_loop fuel infinite_negative_bpm "Normal" (-0) high_draws k 0 []
    = OutOfFuel.
Proof.
  induction fuel as [|fuel IH]; intro k; [reflexivity|].
  rewrite chart_loop_unfold.
  change (0 <? duration infinite_negative_bpm) with true. cbv iota.
  change (py_int 0) with (@inl Z exn 0%Z). cbv iota.
  change (py_index (energy_levels infinite_negative_bpm)
            (Z.min 0 (Z.of_nat (List.length (energy_levels infinite_negative_bpm)) - 1)))
    with (Some 0.7).
  cbv iota.
  change (random high_draws k <? base_density "Normal" * 0.7) with false.
  cbv iota.
  change (0 + time_advance (-0) "Normal" (random high_draws (S k))) with 0.
  apply IH.
Qed.

(** The factor at the ends of the range of [random.random()] and in its
    middle. *)
Lemma advance_factor_of_draws :
  advance_factor 0 = 0.5 /\
  advance_factor 0.5 = 0.75 /\
  advance_factor 0.9999999999999999 = 1.
Proof. repeat split. Qed.

(** C6, as the code has it.  [generate_chart] has no fallback.  With a
    [bpm] that is a zero it raises [ZeroDivisionError] before the loop.
    With no energy level, a [bpm] that is not a zero and a positive
    duration it raises [IndexError] at the first lookup.  With a negative
    [bpm] and a positive duration it never returns a chart: the time does
    not advance, and the call raises or does not end.  Only when the
    duration is not positive does a summary with a [bpm] that is not a
    zero give a chart, the empty one. *)
Theorem generate_chart_malformed (a : Analysis) (difficulty : string) (r : Rng) :
  ((bpm a =? 0) = true ->
     forall fuel, generate_chart fuel a difficulty r = Raise ZeroDivisionError) /\
  ((bpm a =? 0) = false -> energy_levels a = [] -> (0 <? duration a) = true ->
     forall fuel, generate_chart (S fuel) a difficulty r = Raise IndexError) /\
  ((bpm a <? 0) = true -> (0 <? duration a) = true -> steady r ->
     forall (fuel : nat) (chart : list ChartNote),
       generate_chart fuel a difficulty r <> Ok chart) /\
  ((bpm a =? 0) = false -> (0 <? duration a) = false ->
     forall fuel, generate_chart (S fuel) a difficulty r = Ok []).
Proof.
  split; [intros H fuel; apply generate_chart_zero, H|].
  split; [intros Hb He Hd fuel; apply generate_chart_empty_energy; assumption|].
  split; [apply generate_chart_negative|].
  intros Hb Hd fuel. apply generate_chart_no_duration; assumption.
Qed.

Lemma generate_chart_malformed_witness :
  generate_chart 50 zero_bpm "Hard" half = Raise ZeroDivisionError /\
  generate_chart 50 no_energy "Hard" half = Raise IndexError /\
  (forall chart, generate_chart 50 negative_bpm "Hard" half <> Ok chart) /\
  generate_chart 50 (mkAnalysis 0 120 [0.7] []) "Hard" half = Ok [].
Proof.
  split; [|split; [|split]].
  - apply (proj1 (generate_chart_malformed zero_bpm "Hard" half)). reflexivity.
  - apply (proj1 (proj2 (generate_chart_malformed no_energy "Hard" half)));
      reflexivity.
  - apply (proj1 (proj2 (proj2 (generate_chart_malformed negative_bpm "Hard" half)))).
    + reflexivity.
    + reflexivity.
    + intro k. split; reflexivity.
  - apply (proj2 (proj2 (proj2
             (generate_chart_malformed (mkAnalysis 0 120 [0.7] []) "Hard" half))));
      reflexivity.
Defined.

(** C6, as the claim states it, fails: on a summary with [bpm = 0], on one
    with no energy level and on three with a negative [bpm], the call
    raises or does not end, instead of returning the chart of the default
    summary. *)
Lemma generate_chart_raises :
  generate_chart 1000 zero_bpm "Normal" half = Raise ZeroDivisionError /\
  generate_chart 1000 no_energy "Normal" half = Raise IndexError /\
  generate_chart 1000 negative_bpm "Normal" half = Raise IndexError /\
  generate_chart 1000 tiny_negative_bpm "Normal" half = Raise OverflowError /\
  (forall fuel,
     generate_chart fuel infinite_negative_bpm "Normal" high_draws = OutOfFuel).
Proof.
  split; [|split; [|split; [|split]]]; try (vm_compute; reflexivity).
  intro fuel. apply chart_loop_stalls.
Qed.

(** *** [generate_chart] on a well-formed summary *)

Lemma uniform_nn (u : float) : (u <? 0) = false -> (uniform 0 0.5 u <? 0) = false.
Proof.
  intro Hu. unfold uniform.
  apply add_nn; [reflexivity|]. apply mul_nn; [reflexivity|exact Hu].
Qed.

Lemma time_advance_nn (beat_interval : float) (difficulty : string) (u : float) :
  (beat_interval <? 0) = false -> (u <? 0) = false ->
  (time_advance beat_interval difficulty u <? 0) = false.
Proof.
  intros Hb Hu. unfold time_advance.
  assert (Ht : (beat_interval * (0.5 + uniform 0 0.5 u) <? 0) = false).
  { apply mul_nn; [exact Hb|]. apply add_nn; [reflexivity|apply uniform_nn, Hu]. }
  destruct (difficulty =? "Expert")%string;
    [|destruct (difficulty =? "Easy")%string]; trivial;
    apply mul_nn; trivial; reflexivity.
Qed.

Lemma py_index_within {A : Type} (l : list A) (z : Z) :
  l <> [] -> (0 <= z)%Z ->
  exists e, py_index l (Z.min z (Z.of_nat (List.length l) - 1)) = Some e
            /\ In e l.
Proof.
  intros Hl Hz.
  assert (Hlen : (0 < List.length l)%nat) by (destruct l; [congruence|simpl; lia]).
  set (i := Z.min z (Z.of_nat (List.length l) - 1)).
  assert (Hr : (0 <= i < Z.of_nat (List.length l))%Z) by lia.
  unfold py_index.
  assert (E : (0 <=? i)%Z = true) by (apply Z.leb_le; lia).
  rewrite E.
  destruct (nth_error l (Z.to_nat i)) as [e|] eqn:En.
  - exists e. split; [reflexivity|]. apply (nth_error_In _ _ En).
  - apply nth_error_None in En. lia.
Qed.

Lemma emitted_lanes (a : Analysis) (current_time : float) (notes : list ChartNote) :
  Forall (emitted a) notes ->
  Forall lane_indexable (recent_lanes current_time notes).
Proof.
  intro H. apply recent_lanes_of_notes.
  revert H. apply Forall_impl. intros n (_ & Hl & _).
  unfold lane_indexable, NUM_LANES in *. lia.
Qed.

Section Forwards.

Variables (a : Analysis) (difficulty : string) (beat_interval : float) (r : Rng).
Hypothesis beat_nn : (beat_interval <? 0) = false.
Hypothesis draws : draws_ok r.

Lemma draw_nn (k : nat) : (random r k <? 0) = false.
Proof. apply leb_0_nn, draws. Qed.

(** From a time that is not below zero, the loop raises nothing when there
    is an energy level, and what it hands to [remove_duplicate_notes] is a
    list of emitted notes. *)
Lemma chart_loop_forwards (fuel : nat) :
  forall (k : nat) (current_time : float) (notes : list ChartNote),
    (current_time <? 0) = false ->
    Forall (emitted a) notes ->
    (energy_levels a <> [] ->
     chart_loop fuel a difficulty beat_interval r k current_time notes = OutOfFuel
     \/ exists raw, chart_loop fuel a difficulty beat_interval r k current_time notes
                    = Ok (remove_duplicate_notes raw 0.1)) /\
    (forall chart,
       chart_loop fuel a difficulty beat_interval r k current_time notes = Ok chart ->
       exists raw, Forall (emitted a) raw /\
                   chart = remove_duplicate_notes raw 0.1).
Proof.
  induction fuel as [|fuel IH]; intros k ct notes Hct Hnotes.
  - split; [intros _; left; reflexivity|discriminate].
  - rewrite chart_loop_unfold.
    destruct (ct <? duration a) eqn:E.
    2:{ split; [intros _; right; exists notes; reflexivity|].
        intros chart H. injection H as <-. exists notes. split; trivial. }
    destruct (py_int_nn ct (duration a) Hct E) as (z & Hz & Hz0).
    rewrite Hz.
    assert (Hstep : forall j,
              (ct + time_advance beat_interval difficulty (random r j) <? 0) = false).
    { intro j. apply add_nn; [exact Hct|].
      apply time_advance_nn; [exact beat_nn|apply draw_nn]. }
    assert (Hct0 : (0 <=? ct) = true).
    { apply ltb_false_leb; [apply (ltb_not_nan _ _ E)|reflexivity|exact Hct]. }
    destruct (py_index (energy_levels a) _) as [e|] eqn:He.
    2:{ split; [|discriminate]. intro Hne.
        destruct (py_index_within (energy_levels a) z Hne Hz0) as (e & He' & _).
        congruence. }
    assert (Hin : In e (energy_levels a)).
    { unfold py_index in He.
      destruct (0 <=? _)%Z; [apply (nth_error_In _ _ He)|].
      destruct (_ <=? _)%Z; [apply (nth_error_In _ _ He)|discriminate]. }
    destruct (random r k <? _).
    + destruct (choose_lane_musically_returns ct (bpm a) notes
                  (random r (S k)) (randint r (S k))
                  (proj2 (draws _)) (emitted_lanes a ct notes Hnotes))
        as (l & Hl & Hrange).
      rewrite Hl. apply IH; [apply Hstep|].
      apply Forall_app. split; [assumption|].
      constructor; [|constructor].
      repeat split; simpl; trivial; try lia.
      exists e. split; [reflexivity|assumption].
    + apply IH; [apply Hstep|assumption].
Qed.

End Forwards.

Lemma beat_interval_nn (a : Analysis) :
  (0 <? bpm a) = true -> (60 / bpm a <? 0) = false.
Proof. intro H. apply div_nn; [reflexivity|exact H]. Qed.

Lemma positive_not_zero (x : float) : (0 <? x) = true -> (x =? 0) = false.
Proof.
  intro H. destruct (x =? 0) eqn:E; [|reflexivity].
  apply eqb_leb in E. rewrite (leb_ltb_false _ _ E) in H. discriminate H.
Qed.

(** With [bpm = +inf] the beat interval is 0 and the time stays at 0. *)
Lemma chart_loop_stands_still (fuel : nat) :
  forall k,
    chart_loop fuel infinite_bpm "Normal" 0 high_draws k 0 [] = OutOfFuel.
Proof.
  induction fuel as [|fuel IH]; intro k; [reflexivity|].
  rewrite chart_loop_unfold.
  change (0 <? duration infinite_bpm) with true. cbv iota.
  change (py_int 0) with (@inl Z exn 0%Z). cbv iota.
  change (py_index (energy_levels infinite_bpm)
            (Z.min 0 (Z.of_nat (List.length (energy_levels infinite_bpm)) - 1)))
    with (Some 0.7).
  cbv iota.
  change (random high_draws k <? base_density "Normal" * 0.7) with false.
  cbv iota.
  change (0 + time_advance 0 "Normal" (random high_draws (S k))) with 0.
  apply IH.
Qed.

(** X5.  On a summary with a positive [bpm] and at least one energy level,
    with draws that are not negative and lanes of [randint] that are
    lanes, [generate_chart] raises nothing: as long as its loop runs, every
    index it reads is valid.  Whether the loop ends depends on the doubles:
    it does for half a second of music at 120 beats per minute, and it does
    not for an infinite [bpm], where the beat interval is 0 and the time
    does not advance. *)
Theorem generate_chart_no_exception
    (a : Analysis) (difficulty : string) (r : Rng) (fuel : nat) :
  (0 <? bpm a) = true -> energy_levels a <> [] -> draws_ok r ->
  (generate_chart fuel a difficulty r = OutOfFuel \/
   exists chart, generate_chart fuel a difficulty r = Ok chart) /\
  (exists chart, forall fuel', (3 <= fuel')%nat ->
     generate_chart fuel' short_song "Hard" tenth = Ok chart) /\
  (forall fuel', generate_chart fuel' infinite_bpm "Normal" high_draws = OutOfFuel).
Proof.
  intros Hb He Hr. split; [|split].
  - unfold generate_chart. rewrite (positive_not_zero _ Hb).
    destruct (proj1 (chart_loop_forwards a difficulty (60 / bpm a) r
                (beat_interval_nn a Hb) Hr fuel 0 0 [] eq_refl (Forall_nil _)) He)
      as [H|[raw H]]; [left; exact H|right; eexists; exact H].
  - eexists. intros fuel' Hf.
    destruct fuel' as [|[|[|fuel']]]; try lia.
    vm_compute. reflexivity.
  - intro fuel'. apply chart_loop_stands_still.
Qed.

Lemma generate_chart_no_exception_witness :
  generate_chart 2 get_default_analysis "Expert" half = OutOfFuel \/
  exists chart, generate_chart 2 get_default_analysis "Expert" half = Ok chart.
Proof.
  apply (proj1 (generate_chart_no_exception get_default_analysis "Expert" half 2
                  eq_refl ltac:(discriminate)
                  (fun k => conj eq_refl (conj (Z.le_refl 0) eq_refl)))).
Defined.

Lemma emitted_no_nan (a : Analysis) (notes : list ChartNote) :
  Forall (emitted a) notes -> no_nan notes.
Proof.
  apply Forall_impl. intros n ((_ & H) & _). apply (ltb_not_nan _ _ H).
Qed.

(** X6.  What [generate_chart] returns on a summary with a positive [bpm]:
    every note has its time in [[0, duration)], its lane in
    [0 .. NUM_LANES - 1] and as its energy one of the energy levels; the
    times ascend, and for two neighbours the double that the subtraction
    of their times gives is at least the double 0.1, and at least the
    double [0.1 * 2] when they share a lane. *)
Theorem generate_chart_chart
    (a : Analysis) (difficulty : string) (r : Rng)
    (fuel : nat) (chart : list ChartNote) :
  (0 <? bpm a) = true -> draws_ok r ->
  generate_chart fuel a difficulty r = Ok chart ->
  Forall (emitted a) chart /\
  StronglySorted by_time chart /\
  (forall i x y, nth_error chart i = Some x -> nth_error chart (S i) = Some y ->
     (0.1 <=? time y - time x) = true /\
     (lane y = lane x -> (0.1 * 2 <=? time y - time x) = true)).
Proof.
  intros Hb Hr Hrun. unfold generate_chart in Hrun.
  rewrite (positive_not_zero _ Hb) in Hrun.
  destruct (proj2 (chart_loop_forwards a difficulty (60 / bpm a) r
              (beat_interval_nn a Hb) Hr fuel 0 0 [] eq_refl (Forall_nil _))
              chart Hrun)
    as (raw & Hraw & ->).
  pose proof (emitted_no_nan a raw Hraw) as Hnan.
  split; [|split].
  - rewrite remove_duplicate_notes_is_dedup.
    apply Forall_forall. intros n Hn.
    apply (proj1 (Forall_forall _ _) Hraw).
    apply (Permutation_in _ (sort_by_time_permutation raw)).
    apply (ChartFacts.subseq_incl _ _ (dedup_is_subseq 0.1 _) n Hn).
  - rewrite remove_duplicate_notes_is_dedup.
    apply (subseq_ascending _ _ (dedup_is_subseq _ _)).
    apply sort_by_time_ascending, Hnan.
  - intros i x y Hx Hy. rewrite remove_duplicate_notes_is_dedup in Hx, Hy.
    pose proof (ChartFacts.Sorted_consecutive _ _ (dedup_is_spaced 0.1 _)
                  i x y Hx Hy) as H.
    apply keeps_iff in H.
    destruct H as [H1 H2]. split; [exact H1|].
    intro Hl. destruct H2 as [H2|H2]; [exact H2|contradiction].
Qed.

Lemma generate_chart_chart_witness :
  Forall (emitted short_song) short_chart /\
  StronglySorted by_time short_chart /\
  (forall i x y,
     nth_error short_chart i = Some x -> nth_error short_chart (S i) = Some y ->
     (0.1 <=? time y - time x) = true /\
     (lane y = lane x -> (0.1 * 2 <=? time y - time x) = true)).
Proof.
  apply (generate_chart_chart short_song "Hard" tenth 10 short_chart).
  - reflexivity.
  - intro k. split; [reflexivity|]. unfold NUM_LANES. simpl. lia.
  - vm_compute. reflexivity.
Defined.

(** Notes at 0.008 and 0.108 in a chart: the subtraction of the two
    doubles gives the double 0.1, while the real difference of the two is
    below the real number that the double 0.1 stands for. *)
Lemma generate_chart_close_notes :
  generate_chart 10 close_song "Normal" close_draws
  = Ok [mkChartNote 0.008 0 (Some 1); mkChartNote 0.108 3 (Some 1)] /\
  (to_Q 0.108%float - to_Q 0.008%float < to_Q 0.1%float)%Q.
Proof. split; vm_compute; reflexivity. Qed.

End Chart64Facts.

(** ** Visual effects *)

Module FxFacts.
Import Floats.
Import Fx.

(** *** Particles *)

Lemma after_S {A : Type} (f : A -> A) (k : nat) (a : A) :
  after f (S k) a = f (after f k a).
Proof.
  revert a. induction k as [|k IH]; intro a; [reflexivity|].
  change (after f (S (S k)) a) with (after f (S k) (f a)).
  rewrite IH. reflexivity.
Qed.

Lemma step_trajectory (k : nat) :
  forall p : Particle,
    let q := after step k p in
    life q = (life p - Z.of_nat k)%Z /\
    max_life q = max_life p /\ color q = color p /\
    vx q = vx p /\
    x q = drift k (x p) (vx p) /\
    (y q, vy q) = fall k (y p) (vy p).
Proof.
  induction k as [|k IH]; intro p.
  - simpl. repeat split; lia.
  - change (after step (S k) p) with (after step k (step p)).
    destruct (IH (step p)) as (Hl & Hm & Hc & Hvx & Hx & Hy).
    cbv zeta. rewrite Hl, Hm, Hc, Hvx, Hx, Hy.
    unfold step, update. cbn [fst life max_life color vx x vy y drift fall].
    repeat split; lia.
Qed.

Lemma after_step_life (k : nat) (p : Particle) :
  life (after step k p) = (life p - Z.of_nat k)%Z.
Proof. apply (step_trajectory k p). Qed.

Lemma update_particles_filter (ps : list Particle) :
  update_particles ps = map step (filter (fun p => (1 <? life p)%Z) ps).
Proof.
  induction ps as [|p ps IH]; [reflexivity|].
  cbn [update_particles update filter life].
  assert (E : (0 <? life p - 1)%Z = (1 <? life p)%Z).
  { destruct (1 <? life p)%Z eqn:E1;
      [apply Z.ltb_lt in E1; apply Z.ltb_lt|apply Z.ltb_ge in E1; apply Z.ltb_ge];
      lia. }
  rewrite E. destruct (1 <? life p)%Z; rewrite IH; reflexivity.
Qed.

Lemma particles_present (k : nat) (ps : list Particle) :
  (1 <= k)%nat ->
  after update_particles k ps
  = map (after step k) (filter (fun p => (Z.of_nat k <? life p)%Z) ps).
Proof.
  intro Hk. destruct k as [|k]; [lia|]. clear Hk.
  induction k as [|k IH].
  - simpl after. rewrite update_particles_filter. reflexivity.
  - rewrite after_S, IH, update_particles_filter.
    clear IH. induction ps as [|p ps IH]; [reflexivity|].
    cbn [filter].
    assert (E : (Z.of_nat (S (S k)) <? life p)%Z
                = ((Z.of_nat (S k) <? life p)%Z
                   && (1 <? life (after step (S k) p))%Z)%bool).
    { rewrite after_step_life.
      destruct (Z.of_nat (S (S k)) <? life p)%Z eqn:E1,
               (Z.of_nat (S k) <? life p)%Z eqn:E2,
               (1 <? life p - Z.of_nat (S k))%Z eqn:E3; try reflexivity;
        repeat match goal with
               | H : (_ <? _)%Z = true |- _ => apply Z.ltb_lt in H
               | H : (_ <? _)%Z = false |- _ => apply Z.ltb_ge in H
               end; lia. }
    rewrite E.
    destruct (Z.of_nat (S k) <? life p)%Z; [|exact IH].
    cbn [map filter andb].
    destruct (1 <? life (after step (S k) p))%Z; [|exact IH].
    cbn [map]. rewrite IH, (after_S step (S k) p). reflexivity.
Qed.

Lemma filter_all {A : Type} (f : A -> bool) (l : list A) :
  Forall (fun a => f a = true) l -> filter f l = l.
Proof.
  induction 1 as [|a l Ha _ IH]; [reflexivity|].
  simpl. rewrite Ha, IH. reflexivity.
Qed.

Lemma filter_none {A : Type} (f : A -> bool) (l : list A) :
  Forall (fun a => f a = false) l -> filter f l = [].
Proof.
  induction 1 as [|a l Ha _ IH]; [reflexivity|].
  simpl. rewrite Ha, IH. reflexivity.
Qed.

Lemma burst_life (x0 y0 : float) (c : Z * Z * Z) (u : nat -> float) :
  Forall (fun p => life p = 60%Z) (burst x0 y0 c u).
Proof. unfold burst. simpl. repeat constructor. Qed.


(** X15.  After [k >= 1] calls of [update_particles] the list holds, in
    their order, the particles whose life was more than [k], each after
    [k] calls of its [update], and no other.  So the eight particles that
    [hit_note_in_lane] appends at a hit (their life is 60) are all in
    [self.particles] during the 59 calls that follow, whatever particles
    are in the list before and after them, and all are removed by the
    60th. *)
Theorem particle_lifetime (ps : list Particle) (k : nat) :
  ((1 <= k)%nat ->
   after update_particles k ps
   = map (after step k) (filter (fun p => (Z.of_nat k <? life p)%Z) ps)) /\
  (forall x0 y0 c u (qs rs : list Particle),
     ps = qs ++ burst x0 y0 c u ++ rs ->
     ((k < 60)%nat ->
      after update_particles k ps
      = after update_particles k qs
        ++ map (after step k) (burst x0 y0 c u)
        ++ after update_particles k rs) /\
     ((60 <= k)%nat ->
      after update_particles k ps
      = after update_particles k qs ++ after update_particles k rs)).
Proof.
  split; [apply particles_present|].
  intros x0 y0 c u qs rs ->.
  pose proof (burst_life x0 y0 c u) as Hb.
  destruct k as [|k].
  - split; [intros _|intro H; lia].
    simpl after. rewrite map_id. reflexivity.
  - rewrite !particles_present by lia.
    rewrite !filter_app, !map_app.
    split; intro Hk.
    + rewrite (filter_all _ (burst x0 y0 c u)); [reflexivity|].
      revert Hb. apply Forall_impl. intros p ->. apply Z.ltb_lt. lia.
    + rewrite (filter_none _ (burst x0 y0 c u)); [reflexivity|].
      revert Hb. apply Forall_impl. intros p ->. apply Z.ltb_ge. lia.
Qed.

Lemma particle_lifetime_witness :
  after update_particles 60
    [new_particle 150 700 (255, 20, 147)%Z 0.5 0.25;
     mkParticle 250 650 1 (-3) (0, 255, 255)%Z 70 60;
     new_particle 150 700 (255, 20, 147)%Z 0.75 0.5]%float
  = [after step 60 (mkParticle 250 650 1 (-3) (0, 255, 255)%Z 70 60)%float].
Proof.
  refine (eq_trans (proj1 (particle_lifetime _ 60) _) _); [lia|reflexivity].
Defined.

(** *** The spectrum bars *)

Lemma update_bars_bounds (r : nat -> Q) (bars : list Q) :
  (forall j, 0 <= r j /\ r j <= 1) ->
  forall k,
    Forall (fun h => 0 <= h /\ h <= 200) bars ->
    Forall (fun h => 0 <= h /\ h <= 200) (update_bars r k bars) /\
    List.length (update_bars r k bars) = List.length bars.
Proof.
  intro Hr. induction bars as [|b bars IH]; intros k H; simpl.
  - split; [constructor|reflexivity].
  - inversion H as [|? ? [Hb0 Hb1] Hrest]; subst.
    destruct (IH (S k) Hrest) as [IH1 IH2].
    split; [|rewrite IH2; reflexivity].
    constructor; [|assumption].
    destruct (Hr k) as [H0 H1]. split; lra.
Qed.

Lemma color_intensity_bounds (h : Q) :
  0 <= h -> h <= 200 -> (0 <= color_intensity h <= 255)%Z.
Proof.
  intros H0 H1. unfold color_intensity.
  assert (E : h / 200 * 255 == h * (51 # 40)) by field.
  split.
  - apply py_int_nonneg. rewrite E. lra.
  - apply py_int_le. change (inject_Z 255) with 255.
    rewrite E. lra.
Qed.

Lemma run_background_bounds (r : nat -> Q) (dts : list float) :
  (forall j, 0 <= r j /\ r j <= 1) ->
  forall (k : nat) (b : BackgroundRenderer),
    Forall (fun h => 0 <= h /\ h <= 200) (spectrum_bars b) ->
    let b' := run_background r k dts b in
    Forall (fun h => 0 <= h /\ h <= 200) (spectrum_bars b') /\
    List.length (spectrum_bars b') = List.length (spectrum_bars b) /\
    time b' = fold_left PrimFloat.add dts (time b).
Proof.
  intro Hr. induction dts as [|dt dts IH]; intros k b H; simpl.
  - repeat split; trivial.
  - destruct (update_bars_bounds r (spectrum_bars b) Hr k H) as [H1 H2].
    destruct (IH (k + List.length (spectrum_bars b))%nat
                 (update_background dt r k b) H1) as (I1 & I2 & I3).
    repeat split; trivial.
    rewrite I2. exact H2.
Qed.

(** X16.  With draws between 0 and 1, the 32 spectrum bars of the
    background stay between 0 and 200 through every [update], so that the
    colour intensity [draw_spectrum] computes from a bar is a valid colour
    component, between 0 and 255; [self.time] is the sum of the frame
    durations as floating additions from the left give it: ten frames of
    0.1 give 0.9999999999999999. *)
Theorem spectrum_bars_bounded (r : nat -> Q) (k : nat) (dts : list float) :
  (forall j, 0 <= r j /\ r j <= 1) ->
  let b := run_background r k dts new_background in
  List.length (spectrum_bars b) = 32%nat /\
  Forall (fun h => (0 <= h /\ h <= 200) /\
                   (0 <= color_intensity h <= 255)%Z /\
                   (0 <= 255 - color_intensity h <= 255)%Z)
         (spectrum_bars b) /\
  time b = fold_left PrimFloat.add dts 0%float /\
  time (run_background r k (repeat 0.1%float 10) new_background)
  = 0.9999999999999999%float.
Proof.
  intros Hr b.
  assert (H0 : Forall (fun h => 0 <= h /\ h <= 200)
                      (spectrum_bars new_background)).
  { unfold new_background. cbn [spectrum_bars].
    apply Forall_forall. intros h Hh.
    apply repeat_spec in Hh. subst h. split; lra. }
  destruct (run_background_bounds r dts Hr k new_background H0)
    as (H1 & H2 & H3).
  fold b in H1, H2, H3.
  split; [rewrite H2; reflexivity|]. split; [|split].
  - revert H1. apply Forall_impl. intros h [Hh0 H200].
    pose proof (color_intensity_bounds h Hh0 H200).
    repeat split; trivial; lia.
  - exact H3.
  - destruct (run_background_bounds r (repeat 0.1%float 10) Hr k
                new_background H0) as (_ & _ & H4).
    rewrite H4. reflexivity.
Qed.

Lemma spectrum_bars_bounded_witness :
  List.length (spectrum_bars
    (run_background (fun _ => 1 # 2) 0 [0.016; 0.017]%float new_background))
  = 32%nat.
Proof.
  apply (spectrum_bars_bounded (fun _ => 1 # 2) 0 [0.016; 0.017]%float).
  intro j. split; discriminate.
Defined.

(** *** The screen shake *)

Lemma update_shake_done (s : Shake) :
  (shake_duration s <= 0)%Z -> update_shake s = s.
Proof.
  intro H. unfold update_shake.
  assert (E : (0 <? shake_duration s)%Z = false) by (apply Z.ltb_ge; lia).
  rewrite E. reflexivity.
Qed.

Lemma after_update_shake_done (k : nat) (s : Shake) :
  (shake_duration s <= 0)%Z -> after update_shake k s = s.
Proof.
  intro H. induction k as [|k IH]; [reflexivity|].
  simpl. rewrite update_shake_done; assumption.
Qed.

Lemma shake_decay (k : nat) :
  forall s : Shake,
    (0 < shake_duration s)%Z ->
    after update_shake k s
    = if (Z.of_nat k <? shake_duration s)%Z
      then mkShake (intensity s) (shake_duration s - Z.of_nat k)
      else mkShake 0 0.
Proof.
  induction k as [|k IH]; intros s Hs.
  - simpl after.
    assert (E : (Z.of_nat 0 <? shake_duration s)%Z = true)
      by (apply Z.ltb_lt; lia).
    rewrite E. destruct s as [i d]. simpl. f_equal. lia.
  - change (after update_shake (S k) s) with (after update_shake k (update_shake s)).
    unfold update_shake at 2.
    assert (E : (0 <? shake_duration s)%Z = true) by (apply Z.ltb_lt; lia).
    rewrite E.
    destruct (shake_duration s - 1 <=? 0)%Z eqn:E1.
    + apply Z.leb_le in E1.
      rewrite after_update_shake_done by (simpl; lia).
      assert (E2 : (Z.of_nat (S k) <? shake_duration s)%Z = false)
        by (apply Z.ltb_ge; lia).
      rewrite E2. f_equal. lia.
    + apply Z.leb_gt in E1. rewrite IH by (simpl; lia).
      cbn [intensity shake_duration].
      destruct (Z.of_nat k <? shake_duration s - 1)%Z eqn:E2,
               (Z.of_nat (S k) <? shake_duration s)%Z eqn:E3;
        try reflexivity;
        [f_equal; lia
        |apply Z.ltb_lt in E2; apply Z.ltb_ge in E3; lia
        |apply Z.ltb_ge in E2; apply Z.ltb_lt in E3; lia].
Qed.

(** X17.  A shake with a positive duration keeps its intensity while the
    duration counts down, one per [update_effects], and is over (intensity
    and duration 0, offset (0, 0)) from the call on that brings the duration
    to 0.  A shake whose duration is not positive is left as it is by every
    [update_effects]: after [add_screen_shake(i, 0)] on a still screen, with
    [i > 0], the screen shakes for ever. *)
Theorem screen_shake_decay (s : Shake) (k : nat) :
  ((0 < shake_duration s)%Z ->
   after update_shake k s
   = if (Z.of_nat k <? shake_duration s)%Z
     then mkShake (intensity s) (shake_duration s - Z.of_nat k)
     else mkShake 0 0) /\
  ((0 < shake_duration s <= Z.of_nat k)%Z ->
   forall ox oy, get_screen_offset ox oy (after update_shake k s) = (0, 0)%Z) /\
  ((shake_duration s <= 0)%Z -> after update_shake k s = s) /\
  (forall i ox oy, (0 < i)%Z ->
     get_screen_offset ox oy (after update_shake k (add_screen_shake i 0 still))
     = (ox, oy)).
Proof.
  split; [apply shake_decay|].
  split; [|split; [apply after_update_shake_done|]].
  - intros [H1 H2] ox oy. rewrite shake_decay by assumption.
    assert (E : (Z.of_nat k <? shake_duration s)%Z = false)
      by (apply Z.ltb_ge; lia).
    rewrite E. reflexivity.
  - intros i ox oy Hi.
    rewrite after_update_shake_done by (simpl; lia).
    unfold get_screen_offset, add_screen_shake, still. simpl.
    assert (E : (0 <? Z.max 0 i)%Z = true) by (apply Z.ltb_lt; lia).
    rewrite E. reflexivity.
Qed.

Lemma screen_shake_decay_witness :
  after update_shake 5 (add_screen_shake 2 5 still) = mkShake 0 0 /\
  get_screen_offset 1 (-2) (after update_shake 7 (add_screen_shake 2 5 still))
  = (0, 0)%Z.
Proof.
  split.
  - apply (proj1 (screen_shake_decay (add_screen_shake 2 5 still) 5)).
    reflexivity.
  - apply (proj1 (proj2 (screen_shake_decay (add_screen_shake 2 5 still) 7))).
    simpl. lia.
Defined.

Lemma shake_call_ok (c : ShakeCall) (s : Shake) :
  shake_ok s -> shake_ok (shake_call c s).
Proof.
  unfold shake_ok. intro H. destruct c; simpl.
  - right. lia.
  - right. lia.
  - unfold update_shake.
    destruct (0 <? shake_duration s)%Z eqn:E; [|exact H].
    apply Z.ltb_lt in E.
    destruct (shake_duration s - 1 <=? 0)%Z eqn:E1; simpl.
    + apply Z.leb_le in E1. left. lia.
    + apply Z.leb_gt in E1. right. lia.
Qed.

Lemma shake_calls_ok (cs : list ShakeCall) (s : Shake) :
  shake_ok s -> shake_ok (shake_calls cs s).
Proof.
  revert s. induction cs as [|c cs IH]; intros s H; simpl; [exact H|].
  apply IH, shake_call_ok, H.
Qed.

(** X18.  Through the calls the code makes ([add_note_hit_effect],
    [add_combo_effect], [update_effects]) the screen is either still or
    shakes with an intensity of at most 5 and a duration of at most 10; ten
    calls of [update_effects] without a new effect always bring it to
    rest. *)
Theorem screen_shake_bounded (cs : list ShakeCall) :
  shake_ok (shake_calls cs still) /\
  after update_shake 10 (shake_calls cs still) = still.
Proof.
  pose proof (shake_calls_ok cs still (or_introl (conj eq_refl eq_refl))) as H.
  split; [exact H|].
  destruct H as [[Hi Hd]|[Hi Hd]].
  - rewrite after_update_shake_done by lia.
    destruct (shake_calls cs still) as [i d]. simpl in *. subst. reflexivity.
  - rewrite shake_decay by lia.
    assert (E : (Z.of_nat 10 <? shake_duration (shake_calls cs still))%Z = false)
      by (apply Z.ltb_ge; lia).
    rewrite E. reflexivity.
Qed.

End FxFacts.

(** ** Menus and game states *)

Module MenuFacts.
Import Menu.

Lemma py_mod_range (a n : Z) :
  (0 < n)%Z -> exists i, py_mod a n = Some i /\ (0 <= i < n)%Z /\ i = (a mod n)%Z.
Proof.
  intro H. unfold py_mod.
  assert (E : (n =? 0)%Z = false) by (apply Z.eqb_neq; lia).
  rewrite E. exists (a mod n)%Z. split; [reflexivity|].
  split; [apply Z.mod_pos_bound; assumption|reflexivity].
Qed.

Lemma options_length_pos (m : MenuSystem) :
  (0 <= selected_option m < Z.of_nat (List.length (options m)))%Z ->
  (0 < Z.of_nat (List.length (options m)))%Z.
Proof. lia. Qed.

Lemma py_index_in_range {A : Type} (l : list A) (i : Z) :
  (0 <= i < Z.of_nat (List.length l))%Z -> exists a, py_index l i = Some a.
Proof.
  intro H. unfold py_index.
  assert (E : (0 <=? i)%Z = true) by (apply Z.leb_le; lia).
  rewrite E.
  destruct (nth_error l (Z.to_nat i)) as [a|] eqn:En; [exists a; reflexivity|].
  apply nth_error_None in En. lia.
Qed.

Lemma selection_ok_zero (name : MenuName) (songs : list string) :
  selection_ok (mkMenu name 0 songs).
Proof.
  unfold selection_ok, options. simpl.
  destruct name; simpl; try (left; lia).
  destruct songs; [right; split; reflexivity|left; simpl; lia].
Qed.

Lemma options_moved (m : MenuSystem) (i : Z) :
  options (mkMenu (current_menu m) i (song_options m)) = options m.
Proof. unfold options. simpl. destruct (current_menu m); reflexivity. Qed.

Lemma activate_ok (m : MenuSystem) :
  selection_ok m ->
  exists s, activate_menu_option m = Returns s (menu_after (activate_menu_option m))
            /\ selection_ok (menu_after (activate_menu_option m)).
Proof.
  intro H. unfold activate_menu_option.
  destruct (selected_option m <? Z.of_nat (List.length (options m)))%Z eqn:E;
    [|exists "none"%string; split; [reflexivity|exact H]].
  apply Z.ltb_lt in E.
  assert (Hr : (0 <= selected_option m < Z.of_nat (List.length (options m)))%Z).
  { destruct H as [H|[H1 H2]]; [exact H|]. rewrite H1 in E. simpl in E. lia. }
  destruct (py_index_in_range _ _ Hr) as [sel Hsel]. rewrite Hsel.
  destruct (current_menu m) eqn:Ec.
  - repeat match goal with |- context [if ?b then _ else _] => destruct b end;
      eexists; (split; [reflexivity|]); simpl;
      try exact H; apply selection_ok_zero.
  - destruct (sel =? "Back")%string;
      eexists; (split; [reflexivity|]); simpl;
      try exact H; apply selection_ok_zero.
  - destruct (sel =? "Back")%string;
      eexists; (split; [reflexivity|]); simpl;
      try exact H; apply selection_ok_zero.
Qed.

(** X19.  From a menu whose selection is valid (an index of the options of
    the current menu, or 0 when that menu has no option), every event is
    handled with a valid selection afterwards, and the only exception is the
    [ZeroDivisionError] of UP or DOWN in a menu without options, as the song
    menu of [__init__] is; no event raises [IndexError]. *)
Theorem menu_selection_valid (ev : Event) (m : MenuSystem) :
  selection_ok m ->
  (handle_menu_input ev m = Raises ZeroDivisionError m /\
   options m = [] /\ (ev = KEYDOWN K_UP \/ ev = KEYDOWN K_DOWN))
  \/
  (exists s m', handle_menu_input ev m = Returns s m' /\ selection_ok m' /\
                song_options m' = song_options m /\
                ~ (options m = [] /\ (ev = KEYDOWN K_UP \/ ev = KEYDOWN K_DOWN))).
Proof.
  intro H.
  assert (Hmove : forall d : Z,
    (options m = [] /\
     py_mod (selected_option m + d) (Z.of_nat (List.length (options m))) = None)
    \/
    (options m <> [] /\
     exists i, py_mod (selected_option m + d) (Z.of_nat (List.length (options m)))
               = Some i /\
               selection_ok (mkMenu (current_menu m) i (song_options m)))).
  { intro d. destruct (options m) as [|o os] eqn:Eo.
    - left. split; reflexivity.
    - right. split; [discriminate|].
      destruct (py_mod_range (selected_option m + d)
                  (Z.of_nat (List.length (o :: os)))) as (i & Hi & Hr & _);
        [simpl; lia|].
      exists i. split; [exact Hi|]. left.
      rewrite options_moved, Eo. exact Hr. }
  destruct ev as [[| | | |]|].
  - unfold handle_menu_input.
    change (selected_option m - 1)%Z with (selected_option m + -1)%Z.
    destruct (Hmove (-1)%Z) as [[He Hn]|[Hne (i & Hi & Hok)]].
    + left. rewrite Hn. repeat split; trivial. left. reflexivity.
    + right. rewrite Hi. exists "none"%string, (mkMenu (current_menu m) i (song_options m)).
      repeat split; trivial. intros [He _]. contradiction.
  - unfold handle_menu_input. destruct (Hmove 1%Z) as [[He Hn]|[Hne (i & Hi & Hok)]].
    + left. rewrite Hn. repeat split; trivial. right. reflexivity.
    + right. rewrite Hi. exists "none"%string, (mkMenu (current_menu m) i (song_options m)).
      repeat split; trivial. intros [He _]. contradiction.
  - right. simpl. destruct (activate_ok m H) as (s & Hs & Hok).
    exists s, (menu_after (activate_menu_option m)).
    repeat split; trivial.
    + unfold activate_menu_option.
      repeat match goal with
             | |- context [if ?b then _ else _] => destruct b
             | |- context [match ?x with _ => _ end] => destruct x
             end; reflexivity.
    + intros [_ [E|E]]; discriminate.
  - right. simpl. destruct (current_menu m) eqn:Ec.
    + exists "exit"%string, m. repeat split; trivial.
      intros [_ [E|E]]; discriminate.
    + exists "none"%string, (mkMenu main 0 (song_options m)).
      repeat split; trivial; [apply selection_ok_zero|].
      intros [_ [E|E]]; discriminate.
    + exists "none"%string, (mkMenu main 0 (song_options m)).
      repeat split; trivial; [apply selection_ok_zero|].
      intros [_ [E|E]]; discriminate.
  - right. exists "none"%string, m. repeat split; trivial.
    intros [_ [E|E]]; discriminate.
  - right. exists "none"%string, m. repeat split; trivial.
    intros [_ [E|E]]; discriminate.
Qed.

Lemma menu_selection_valid_witness :
  handle_menu_input (KEYDOWN K_DOWN) (mkMenu song_selection 0 [])
  = Raises ZeroDivisionError (mkMenu song_selection 0 []) \/
  exists s m', handle_menu_input (KEYDOWN K_DOWN) (mkMenu song_selection 0 [])
               = Returns s m'.
Proof.
  destruct (menu_selection_valid (KEYDOWN K_DOWN) (mkMenu song_selection 0 []))
    as [(H & _)|(s & m' & H & _)].
  - right. split; reflexivity.
  - left. exact H.
  - right. exists s, m'. exact H.
Defined.

Lemma menu_eta (m : MenuSystem) :
  mkMenu (current_menu m) (selected_option m) (song_options m) = m.
Proof. destruct m; reflexivity. Qed.

(** X20.  In a menu with options and a valid selection, UP and DOWN undo
    each other; UP on the first option selects the last one and DOWN on the
    last option selects the first. *)
Theorem menu_up_down_inverse (m : MenuSystem) :
  (0 <= selected_option m < Z.of_nat (List.length (options m)))%Z ->
  let n := Z.of_nat (List.length (options m)) in
  let up := mkMenu (current_menu m) ((selected_option m - 1) mod n) (song_options m) in
  let down := mkMenu (current_menu m) ((selected_option m + 1) mod n) (song_options m) in
  handle_menu_input (KEYDOWN K_UP) m = Returns "none" up /\
  handle_menu_input (KEYDOWN K_DOWN) m = Returns "none" down /\
  handle_menu_input (KEYDOWN K_DOWN) up = Returns "none" m /\
  handle_menu_input (KEYDOWN K_UP) down = Returns "none" m /\
  (selected_option m = 0%Z -> selected_option up = (n - 1)%Z) /\
  (selected_option m = (n - 1)%Z -> selected_option down = 0%Z).
Proof.
  intros Hr n up down.
  assert (Hn : (n =? 0)%Z = false) by (apply Z.eqb_neq; unfold n; lia).
  assert (Hup : options up = options m) by apply options_moved.
  assert (Hdown : options down = options m) by apply options_moved.
  unfold handle_menu_input, py_mod.
  rewrite Hup, Hdown. fold n. rewrite Hn.
  cbn [selected_option current_menu song_options up down].
  assert (E1 : (((selected_option m - 1) mod n + 1) mod n = selected_option m)%Z).
  { rewrite Z.add_mod_idemp_l by lia.
    replace (selected_option m - 1 + 1)%Z with (selected_option m) by lia.
    apply Z.mod_small. exact Hr. }
  assert (E2 : (((selected_option m + 1) mod n - 1) mod n = selected_option m)%Z).
  { rewrite Zminus_mod_idemp_l.
    replace (selected_option m + 1 - 1)%Z with (selected_option m) by lia.
    apply Z.mod_small. exact Hr. }
  rewrite E1, E2, menu_eta.
  repeat split.
  - intro H0. rewrite H0. replace (0 - 1)%Z with (-1 * n + (n - 1))%Z by lia.
    rewrite Z.add_comm, Z.mod_add by lia. apply Z.mod_small. lia.
  - intro Hl. rewrite Hl. replace (n - 1 + 1)%Z with n by lia.
    apply Z.mod_same. lia.
Qed.

Lemma menu_up_down_inverse_witness :
  handle_menu_input (KEYDOWN K_UP) init = Returns "none" (mkMenu main 3 []) /\
  handle_menu_input (KEYDOWN K_DOWN) (mkMenu main 3 []) = Returns "none" init.
Proof.
  destruct (menu_up_down_inverse init) as (H1 & _ & H3 & _).
  - simpl. lia.
  - split; [exact H1|exact H3].
Defined.

(** X21.  What RETURN does.  In the main menu the four options return
    ["start_game"], open the song menu, open the settings menu and return
    ["exit"].  In the settings menu the first four options return
    ["setting_resolution"], ["setting_fullscreen"], ["setting_audio_volume"]
    and ["setting_performance_mode"] and leave the menu as it is, and the
    fifth goes back to the main menu.  In the song menu an option other than
    ["Back"] returns ["select_song_"] followed by its index.  A menu is only
    ever entered with the selection at 0. *)
Theorem menu_return_actions (songs : list string) :
  (handle_menu_input (KEYDOWN K_RETURN) (mkMenu main 0 songs)
     = Returns "start_game" (mkMenu main 0 songs) /\
   handle_menu_input (KEYDOWN K_RETURN) (mkMenu main 1 songs)
     = Returns "none" (mkMenu song_selection 0 songs) /\
   handle_menu_input (KEYDOWN K_RETURN) (mkMenu main 2 songs)
     = Returns "none" (mkMenu settings 0 songs) /\
   handle_menu_input (KEYDOWN K_RETURN) (mkMenu main 3 songs)
     = Returns "exit" (mkMenu main 3 songs)) /\
  (handle_menu_input (KEYDOWN K_RETURN) (mkMenu settings 0 songs)
     = Returns "setting_resolution" (mkMenu settings 0 songs) /\
   handle_menu_input (KEYDOWN K_RETURN) (mkMenu settings 1 songs)
     = Returns "setting_fullscreen" (mkMenu settings 1 songs) /\
   handle_menu_input (KEYDOWN K_RETURN) (mkMenu settings 2 songs)
     = Returns "setting_audio_volume" (mkMenu settings 2 songs) /\
   handle_menu_input (KEYDOWN K_RETURN) (mkMenu settings 3 songs)
     = Returns "setting_performance_mode" (mkMenu settings 3 songs) /\
   handle_menu_input (KEYDOWN K_RETURN) (mkMenu settings 4 songs)
     = Returns "none" (mkMenu main 0 songs)) /\
  (forall (i : Z) (song : string),
     (0 <= i)%Z -> nth_error songs (Z.to_nat i) = Some song ->
     handle_menu_input (KEYDOWN K_RETURN) (mkMenu song_selection i songs)
     = if (song =? "Back")%string
       then Returns "none" (mkMenu main 0 songs)
       else Returns ("select_song_" ++ str i) (mkMenu song_selection i songs)) /\
  (forall (ev : Event) (m : MenuSystem),
     current_menu (menu_after (handle_menu_input ev m)) <> current_menu m ->
     selected_option (menu_after (handle_menu_input ev m)) = 0%Z).
Proof.
  split; [repeat split|]. split; [repeat split|]. split.
  - intros i song Hi Hs. simpl. unfold activate_menu_option, options. simpl.
    assert (Hlen : (Z.to_nat i < List.length songs)%nat)
      by (apply nth_error_Some; congruence).
    assert (E : (i <? Z.of_nat (List.length songs))%Z = true)
      by (apply Z.ltb_lt; lia).
    rewrite E. unfold py_index.
    assert (E0 : (0 <=? i)%Z = true) by (apply Z.leb_le; lia).
    rewrite E0, Hs. reflexivity.
  - intros ev m Hc.
    destruct ev as [[| | | |]|]; simpl in *;
      try (exfalso; apply Hc; reflexivity).
    + destruct (py_mod _ _); simpl in *; exfalso; apply Hc; reflexivity.
    + destruct (py_mod _ _); simpl in *; exfalso; apply Hc; reflexivity.
    + revert Hc. unfold activate_menu_option.
      repeat match goal with
             | |- context [if ?b then _ else _] => destruct b
             | |- context [match py_index ?a ?b with _ => _ end] =>
                 destruct (py_index a b)
             | |- context [match current_menu ?x with _ => _ end] =>
                 destruct (current_menu x) eqn:?
             end; simpl; intro Hc; try reflexivity;
        exfalso; apply Hc; congruence.
    + destruct (current_menu m) eqn:Ec; simpl in *;
        [exfalso; apply Hc; congruence|reflexivity|reflexivity].
Qed.

Lemma menu_return_actions_witness :
  handle_menu_input (KEYDOWN K_RETURN) (mkMenu song_selection 1 ["A - B"; "Back"]%string)
  = Returns "none" (mkMenu main 0 ["A - B"; "Back"]%string) /\
  handle_menu_input (KEYDOWN K_RETURN) (mkMenu song_selection 0 ["A - B"; "Back"]%string)
  = Returns "select_song_0" (mkMenu song_selection 0 ["A - B"; "Back"]%string).
Proof.
  split.
  - apply (proj1 (proj2 (proj2 (menu_return_actions ["A - B"; "Back"]%string)))
             1%Z "Back"%string); [lia|reflexivity].
  - apply (proj1 (proj2 (proj2 (menu_return_actions ["A - B"; "Back"]%string)))
             0%Z "A - B"%string); [lia|reflexivity].
Defined.

(** *** Game states *)

Lemma change_state_current (s : string) (t : Z) (g : GameStateManager) :
  current_state (change_state s t g) = s.
Proof.
  unfold change_state.
  destruct (s =? current_state g)%string eqn:E; simpl; [|reflexivity].
  apply String.eqb_eq in E. congruence.
Qed.

Lemma change_states_inv (cs : list (string * Z)) :
  forall g : GameStateManager,
    (g = new_states \/ previous_state g <> current_state g) ->
    (change_states cs g = new_states \/
     previous_state (change_states cs g) <> current_state (change_states cs g)) /\
    transition_duration (change_states cs g) = transition_duration g.
Proof.
  induction cs as [|[s t] cs IH]; intros g H; simpl; [split; [exact H|reflexivity]|].
  assert (H1 : change_state s t g = new_states \/
               previous_state (change_state s t g)
               <> current_state (change_state s t g)).
  { unfold change_state.
    destruct (s =? current_state g)%string eqn:E; simpl; [exact H|].
    right. apply String.eqb_neq in E. congruence. }
  destruct (IH _ H1) as [I1 I2]. split; [exact I1|].
  rewrite I2. unfold change_state.
  destruct (negb _); reflexivity.
Qed.

(** X22.  [change_state] always ends in the requested state, and a request
    for the current state changes nothing, the transition clock included.
    Through any sequence of requests, either nothing has changed since
    [__init__] or the previous state differs from the current one; the
    transition duration stays 500. *)
Theorem change_state_tracks (cs : list (string * Z)) (s : string) (t : Z) :
  let g := change_states cs new_states in
  current_state (change_state s t g) = s /\
  (s = current_state g -> change_state s t g = g) /\
  (s <> current_state g ->
   previous_state (change_state s t g) = current_state g /\
   state_transition_time (change_state s t g) = t) /\
  (g = new_states \/ previous_state g <> current_state g) /\
  transition_duration g = 500%Z.
Proof.
  intro g.
  destruct (change_states_inv cs new_states (or_introl eq_refl)) as [Hinv Hd].
  split; [apply change_state_current|].
  split; [|split; [|split; [exact Hinv|exact Hd]]].
  - intro E. unfold change_state. apply String.eqb_eq in E. rewrite E. reflexivity.
  - intro E. unfold change_state. apply String.eqb_neq in E. rewrite E.
    split; reflexivity.
Qed.



End MenuFacts.

(** ** Configuration *)

Module ConfigFacts.
Import Floats.
Import Config.

(** *** Dictionaries *)

Lemma lookup_insert_same (d : dict) (k : string) (v : value) :
  lookup (insert d k v) k = Some v.
Proof.
  induction d as [|[k' v'] d IH]; simpl.
  - rewrite String.eqb_refl. reflexivity.
  - destruct (k' =? k)%string eqn:E; simpl; rewrite E; [reflexivity|exact IH].
Qed.

Lemma lookup_insert_other (d : dict) (k k' : string) (v : value) :
  k' <> k -> lookup (insert d k v) k' = lookup d k'.
Proof.
  intro Hne. induction d as [|[k0 v0] d IH]; simpl.
  - destruct (k =? k')%string eqn:E; [|reflexivity].
    apply String.eqb_eq in E. congruence.
  - destruct (k0 =? k)%string eqn:E; simpl.
    + apply String.eqb_eq in E. subst k0.
      destruct (k =? k')%string eqn:E'; [|reflexivity].
      apply String.eqb_eq in E'. congruence.
    + rewrite IH. reflexivity.
Qed.

Lemma insert_same (d : dict) (k : string) (v : value) :
  lookup d k = Some v -> insert d k v = d.
Proof.
  induction d as [|[k' v'] d IH]; simpl; [discriminate|].
  destruct (k' =? k)%string eqn:E.
  - intro H. injection H as ->. reflexivity.
  - intro H. rewrite (IH H). reflexivity.
Qed.

(** *** Entries *)

Lemma set_entry_some (c : value) (s k : string) (x : value) (c' : value) :
  set_entry c s k x = Some c' ->
  entry c' s k = Some x /\
  (forall s' k', (s', k') <> (s, k) -> entry c' s' k' = entry c s' k') /\
  (forall s', s' <> s -> getitem c' s' = getitem c s').
Proof.
  unfold set_entry, entry, setitem, getitem.
  destruct c as [| | | | | |d]; try discriminate.
  destruct (lookup d s) as [sec|] eqn:Es; [|discriminate].
  destruct sec as [| | | | | |sd]; try discriminate.
  intro H. injection H as <-.
  split; [|split].
  - rewrite lookup_insert_same, lookup_insert_same. reflexivity.
  - intros s' k' Hne. destruct (string_dec s' s) as [->|Hs].
    + rewrite lookup_insert_same, Es.
      apply lookup_insert_other. congruence.
    + rewrite lookup_insert_other by assumption. reflexivity.
  - intros s' Hs. apply lookup_insert_other. assumption.
Qed.

Lemma set_entry_same (c : value) (s k : string) (x : value) :
  entry c s k = Some x -> set_entry c s k x = Some c.
Proof.
  unfold set_entry, entry, setitem, getitem.
  destruct c as [| | | | | |d]; try discriminate.
  destruct (lookup d s) as [sec|] eqn:Es; [|discriminate].
  destruct sec as [| | | | | |sd]; try discriminate.
  intro H. rewrite (insert_same sd k x H), (insert_same d s _ Es). reflexivity.
Qed.

Lemma set_entry_defined (c : value) (s k : string) (x y : value) :
  entry c s k = Some y -> exists c', set_entry c s k x = Some c'.
Proof.
  unfold set_entry, entry, setitem, getitem.
  destruct c as [| | | | | |d]; try discriminate.
  destruct (lookup d s) as [sec|] eqn:Es; [|discriminate].
  destruct sec as [| | | | | |sd]; try discriminate.
  intros _. eexists. reflexivity.
Qed.

(** *** The statements of [validate_config] one after the other *)

Lemma run_checks_some (cs : list (string * string * (value -> option value))) :
  NoDup (map check_key cs) ->
  forall c c' : value,
    run_checks cs c = Some c' ->
    (forall s k f, In (s, k, f) cs ->
       exists x x', entry c s k = Some x /\ f x = Some x' /\
                    entry c' s k = Some x') /\
    (forall s k, ~ In (s, k) (map check_key cs) -> entry c' s k = entry c s k) /\
    (forall s, ~ In s (map (fun c => fst (check_key c)) cs) ->
       getitem c' s = getitem c s).
Proof.
  induction cs as [|[[s0 k0] f0] cs IH]; intros Hnd c c' Hrun.
  - simpl in Hrun. injection Hrun as <-.
    split; [intros s k f []|split; reflexivity].
  - inversion Hnd as [|? ? Hnotin Hnd']; subst. simpl in Hrun.
    unfold amend in Hrun.
    destruct (entry c s0 k0) as [x0|] eqn:Ex; [|discriminate].
    destruct (f0 x0) as [x0'|] eqn:Ef; [|discriminate].
    destruct (set_entry c s0 k0 x0') as [c1|] eqn:Es; [|discriminate].
    destruct (set_entry_some _ _ _ _ _ Es) as (H1 & H2 & H3).
    destruct (IH Hnd' c1 c' Hrun) as (I1 & I2 & I3).
    split; [|split].
    + intros s k f [Heq|Hin].
      * injection Heq as <- <- <-. exists x0, x0'.
        repeat split; trivial. rewrite (I2 s0 k0 Hnotin). exact H1.
      * destruct (I1 s k f Hin) as (x & x' & Hx & Hf & Hx').
        exists x, x'. repeat split; trivial.
        rewrite <- Hx. symmetry. apply H2.
        intro Heq. injection Heq as -> ->. apply Hnotin.
        apply (in_map check_key _ _ Hin).
    + intros s k Hnot. rewrite I2.
      * apply H2. intro Heq. apply Hnot. left. simpl. congruence.
      * intro Hin. apply Hnot. right. exact Hin.
    + intros s Hnot. rewrite I3.
      * apply H3. intro Heq. apply Hnot. left. simpl. congruence.
      * intro Hin. apply Hnot. right. exact Hin.
Qed.

Lemma run_checks_none (cs : list (string * string * (value -> option value))) :
  NoDup (map check_key cs) ->
  forall (c : value) (s k : string) (f : value -> option value),
    In (s, k, f) cs ->
    (entry c s k = None \/ exists x, entry c s k = Some x /\ f x = None) ->
    run_checks cs c = None.
Proof.
  induction cs as [|[[s0 k0] f0] cs IH]; intros Hnd c s k f Hin Hbad;
    [destruct Hin|].
  inversion Hnd as [|? ? Hnotin Hnd']; subst. simpl. unfold amend.
  destruct Hin as [Heq|Hin].
  - injection Heq as -> -> ->.
    destruct Hbad as [Hn|(x & Hx & Hf)]; [rewrite Hn; reflexivity|].
    rewrite Hx, Hf. reflexivity.
  - destruct (entry c s0 k0) as [x0|] eqn:Ex; [|reflexivity].
    destruct (f0 x0) as [x0'|] eqn:Ef; [|reflexivity].
    destruct (set_entry c s0 k0 x0') as [c1|] eqn:Es; [|reflexivity].
    destruct (set_entry_some _ _ _ _ _ Es) as (_ & H2 & _).
    apply (IH Hnd' c1 s k f Hin).
    rewrite H2; [exact Hbad|].
    intro Heq. injection Heq as -> ->. apply Hnotin.
    apply (in_map check_key _ _ Hin).
Qed.

Lemma run_checks_fixed (cs : list (string * string * (value -> option value))) :
  forall c : value,
    (forall s k f, In (s, k, f) cs ->
       exists x, entry c s k = Some x /\ f x = Some x) ->
    run_checks cs c = Some c.
Proof.
  induction cs as [|[[s0 k0] f0] cs IH]; intros c H; [reflexivity|].
  simpl. unfold amend.
  destruct (H s0 k0 f0 (or_introl eq_refl)) as (x & Hx & Hf).
  rewrite Hx, Hf, (set_entry_same _ _ _ _ Hx).
  apply IH. intros s k f Hin. apply H. right. exact Hin.
Qed.

Lemma run_checks_defined (cs : list (string * string * (value -> option value))) :
  NoDup (map check_key cs) ->
  forall c : value,
    (forall s k f, In (s, k, f) cs ->
       exists x x', entry c s k = Some x /\ f x = Some x') ->
    exists c', run_checks cs c = Some c'.
Proof.
  induction cs as [|[[s0 k0] f0] cs IH]; intros Hnd c H;
    [exists c; reflexivity|].
  inversion Hnd as [|? ? Hnotin Hnd']; subst. simpl. unfold amend.
  destruct (H s0 k0 f0 (or_introl eq_refl)) as (x & x' & Hx & Hf).
  rewrite Hx, Hf.
  destruct (set_entry_defined c s0 k0 x' x Hx) as [c1 Hc1]. rewrite Hc1.
  apply (IH Hnd'). intros s k f Hin.
  destruct (H s k f (or_intror Hin)) as (y & y' & Hy & Hfy).
  exists y, y'. split; [|exact Hfy].
  destruct (set_entry_some _ _ _ _ _ Hc1) as (_ & H2 & _).
  rewrite H2; [exact Hy|].
  intro Heq. injection Heq as -> ->. apply Hnotin.
  apply (in_map check_key _ _ Hin).
Qed.

Lemma checks_nodup : NoDup (map check_key checks).
Proof.
  unfold checks, check_key. simpl.
  repeat (constructor; [simpl; intuition discriminate|]). constructor.
Qed.

(** *** What the computations return *)

Lemma num_lt_irrefl (n : num) : num_lt n n = false.
Proof.
  destruct n as [q|[]|]; try reflexivity.
  apply Qlt_bool_false_iff. lra.
Qed.

Lemma raise_to_post (floor : Z) (x x' : value) :
  raise_to floor x = Some x' ->
  (at_least (inject_Z floor) x' \/ (nan_valued x' /\ x' = x)) /\
  raise_to floor x' = Some x'.
Proof.
  unfold raise_to, at_least, nan_valued.
  destruct (as_num x) as [n|] eqn:En; [|discriminate].
  destruct (num_lt n (Fin (inject_Z floor))) eqn:E; intro H; injection H as <-.
  - cbn [as_num]. rewrite num_lt_irrefl.
    split; [|reflexivity].
    left. left. exists (inject_Z floor). split; [reflexivity|lra].
  - rewrite En, E. split; [|reflexivity].
    destruct n as [q|[]|]; cbn [num_lt] in E; try discriminate.
    + left. left. exists q. split; [reflexivity|].
      apply Qlt_bool_false_iff in E. exact E.
    + left. right. reflexivity.
    + right. split; reflexivity.
Qed.

Lemma clamp_post (lo hi x x' : value) (l h : Q) :
  as_num lo = Some (Fin l) -> as_num hi = Some (Fin h) -> l < h ->
  clamp lo hi x = Some x' ->
  within l h x' /\ clamp lo hi x' = Some x'.
Proof.
  intros Hlo Hhi Hlt. unfold clamp, py_min, py_max, within.
  rewrite Hlo, Hhi.
  destruct (as_num x) as [n|] eqn:En; [|discriminate].
  assert (Ehl : Qlt_bool h l = false) by (apply Qlt_bool_false_iff; lra).
  assert (Elh : Qlt_bool l h = true) by (apply Qlt_bool_iff; exact Hlt).
  assert (Ell : Qlt_bool l l = false) by (apply Qlt_bool_false_iff; lra).
  assert (Ehh : Qlt_bool h h = false) by (apply Qlt_bool_false_iff; lra).
  assert (Hh : Some hi = Some x' ->
               (exists q : Q, as_num x' = Some (Fin q) /\ l <= q /\ q <= h) /\
               match (match as_num x' with
                      | Some xn => Some (if num_lt xn (Fin h) then x' else hi)
                      | None => None
                      end) with
               | Some r =>
                   match as_num r with
                   | Some xn => Some (if num_lt (Fin l) xn then r else lo)
                   | None => None
                   end
               | None => None
               end = Some x').
  { intro H. injection H as <-.
    split; [exists h; repeat split; trivial; lra|].
    rewrite Hhi. cbn [num_lt]. rewrite Ehh, Hhi. cbn [num_lt].
    rewrite Elh. reflexivity. }
  assert (Hl : Some lo = Some x' ->
               (exists q : Q, as_num x' = Some (Fin q) /\ l <= q /\ q <= h) /\
               match (match as_num x' with
                      | Some xn => Some (if num_lt xn (Fin h) then x' else hi)
                      | None => None
                      end) with
               | Some r =>
                   match as_num r with
                   | Some xn => Some (if num_lt (Fin l) xn then r else lo)
                   | None => None
                   end
               | None => None
               end = Some x').
  { intro H. injection H as <-.
    split; [exists l; repeat split; trivial; lra|].
    rewrite Hlo. cbn [num_lt]. rewrite Elh, Hlo. cbn [num_lt].
    rewrite Ell. reflexivity. }
  destruct n as [q|[]|]; cbn [num_lt negb].
  - destruct (Qlt_bool q h) eqn:E1.
    + rewrite En. cbn [num_lt].
      destruct (Qlt_bool l q) eqn:E2; [|exact Hl].
      intro H. injection H as <-.
      apply Qlt_bool_iff in E1, E2.
      split; [exists q; repeat split; trivial; lra|].
      rewrite En. cbn [num_lt].
      apply Qlt_bool_iff in E1, E2. rewrite E1, En. cbn [num_lt].
      rewrite E2. reflexivity.
    + rewrite Hhi. cbn [num_lt]. rewrite Elh. exact Hh.
  - rewrite En. cbn [num_lt negb]. exact Hl.
  - rewrite Hhi. cbn [num_lt]. rewrite Elh. exact Hh.
  - rewrite Hhi. cbn [num_lt]. rewrite Elh. exact Hh.
Qed.

Lemma clamp_none (lo hi x : value) (l h : num) :
  as_num lo = Some l -> as_num hi = Some h ->
  (clamp lo hi x = None <-> as_num x = None).
Proof.
  intros Hlo Hhi. unfold clamp, py_min, py_max. rewrite Hlo, Hhi.
  destruct (as_num x) as [n|] eqn:En; [|split; reflexivity].
  destruct (num_lt n h); [rewrite En|rewrite Hhi]; split; discriminate.
Qed.

Lemma within_wider (l h l' h' : Q) (x : value) :
  l' <= l -> h <= h' -> within l h x -> within l' h' x.
Proof.
  intros Hl Hh (q & Hq & H1 & H2). exists q. repeat split; trivial; lra.
Qed.

Lemma fix_quality_post (x x' : value) :
  fix_quality x = Some x' -> quality_mode_ok x' /\ fix_quality x' = Some x'.
Proof.
  assert (Hauto : quality_mode_ok (VStr "auto") /\
                  fix_quality (VStr "auto") = Some (VStr "auto")).
  { split; [exists "auto"%string; split; [reflexivity|left; reflexivity]
           |reflexivity]. }
  unfold fix_quality at 1.
  destruct x as [| | | |s| |]; try (intro H; injection H as <-; exact Hauto).
  destruct (existsb (String.eqb s) valid_quality_modes) eqn:E;
    intro H; injection H as <-; [|exact Hauto].
  split; [|unfold fix_quality; rewrite E; reflexivity].
  exists s. split; [reflexivity|].
  apply existsb_exists in E. destruct E as (s' & Hin & Hs').
  apply String.eqb_eq in Hs'. subst s'. exact Hin.
Qed.

Lemma volume_post (x x' : value) :
  clamp (VFloat 0.0%float) (VFloat 1.0%float) x = Some x' ->
  within 0 1 x' /\ clamp (VFloat 0.0%float) (VFloat 1.0%float) x' = Some x'.
Proof.
  intro Hf.
  destruct (clamp_post (VFloat 0.0%float) (VFloat 1.0%float) x x'
              (Float64.to_Q 0.0%float) (Float64.to_Q 1.0%float)
              eq_refl eq_refl eq_refl Hf) as [H1 H2].
  split; [|exact H2].
  revert H1. apply within_wider; vm_compute; discriminate.
Qed.

Lemma note_speed_post (x x' : value) :
  clamp (VFloat 0.1%float) (VFloat 3.0%float) x = Some x' ->
  within (Float64.to_Q 0.1%float) 3 x' /\
  clamp (VFloat 0.1%float) (VFloat 3.0%float) x' = Some x'.
Proof.
  intro Hf.
  destruct (clamp_post (VFloat 0.1%float) (VFloat 3.0%float) x x'
              (Float64.to_Q 0.1%float) (Float64.to_Q 3.0%float)
              eq_refl eq_refl eq_refl Hf) as [H1 H2].
  split; [|exact H2].
  revert H1. apply within_wider; vm_compute; discriminate.
Qed.

(** The property each check establishes; all of them are stable. *)
Lemma check_post (s k : string) (f : value -> option value) (x x' : value) :
  In (s, k, f) checks -> f x = Some x' ->
  f x' = Some x' /\
  (k = "width"%string -> at_least 800 x' \/ (nan_valued x' /\ x' = x)) /\
  (k = "height"%string -> at_least 600 x' \/ (nan_valued x' /\ x' = x)) /\
  (s = "audio"%string -> within 0 1 x') /\
  (k = "note_speed_multiplier"%string ->
   within (Float64.to_Q 0.1%float) 3 x') /\
  (k = "hit_tolerance"%string -> within 10 100 x') /\
  (k = "quality_mode"%string -> quality_mode_ok x') /\
  (k = "particle_limit"%string -> within 10 500 x').
Proof.
  intros Hin Hf. unfold checks in Hin. cbn [In] in Hin.
  repeat (destruct Hin as [Heq|Hin];
    [injection Heq as <- <- <-|]); [..|destruct Hin].
  - destruct (raise_to_post _ _ _ Hf) as [H1 H2].
    repeat split; trivial; discriminate.
  - destruct (raise_to_post _ _ _ Hf) as [H1 H2].
    repeat split; trivial; discriminate.
  - destruct (volume_post _ _ Hf) as [H1 H2].
    repeat split; trivial; discriminate.
  - destruct (volume_post _ _ Hf) as [H1 H2].
    repeat split; trivial; discriminate.
  - destruct (volume_post _ _ Hf) as [H1 H2].
    repeat split; trivial; discriminate.
  - destruct (note_speed_post _ _ Hf) as [H1 H2].
    repeat split; trivial; discriminate.
  - destruct (clamp_post (VInt 10) (VInt 100) x x' 10 100 eq_refl eq_refl eq_refl Hf)
      as [H1 H2].
    repeat split; trivial; discriminate.
  - destruct (fix_quality_post _ _ Hf) as [H1 H2].
    repeat split; trivial; discriminate.
  - destruct (clamp_post (VInt 10) (VInt 500) x x' 10 500 eq_refl eq_refl eq_refl Hf)
      as [H1 H2].
    repeat split; trivial; discriminate.
Qed.

Ltac in_checks :=
  unfold checks; cbn [In]; repeat (try (left; reflexivity); right).

Lemma run_checks_entries (c c' : value) :
  run_checks checks c = Some c' ->
  forall s k f, In (s, k, f) checks ->
    exists x x', entry c s k = Some x /\ entry c' s k = Some x' /\
      f x' = Some x' /\
      (k = "width"%string -> at_least 800 x' \/ (nan_valued x' /\ x' = x)) /\
      (k = "height"%string -> at_least 600 x' \/ (nan_valued x' /\ x' = x)) /\
      (s = "audio"%string -> within 0 1 x') /\
      (k = "note_speed_multiplier"%string ->
       within (Float64.to_Q 0.1%float) 3 x') /\
      (k = "hit_tolerance"%string -> within 10 100 x') /\
      (k = "quality_mode"%string -> quality_mode_ok x') /\
      (k = "particle_limit"%string -> within 10 500 x').
Proof.
  intros Hrun s k f Hin.
  destruct (run_checks_some checks checks_nodup c c' Hrun) as (H & _ & _).
  destruct (H s k f Hin) as (x & x' & Hx & Hf & Hx').
  exists x, x'. split; [exact Hx|]. split; [exact Hx'|].
  apply (check_post s k f x x' Hin Hf).
Qed.

Lemma run_checks_valid (c c' : value) :
  run_checks checks c = Some c' -> valid c'.
Proof.
  intro Hrun. pose proof (run_checks_entries c c' Hrun) as Hentry.
  unfold valid, entry_is, nan_or_at_least.
  repeat split.
  - destruct (Hentry "display" "width" (raise_to 800))%string
      as (x0 & x & _ & Hx & _ & P & _); [in_checks|]. exists x.
    split; [exact Hx|]. destruct (P eq_refl) as [H|[H _]]; auto.
  - destruct (Hentry "display" "height" (raise_to 600))%string
      as (x0 & x & _ & Hx & _ & _ & P & _); [in_checks|]. exists x.
    split; [exact Hx|]. destruct (P eq_refl) as [H|[H _]]; auto.
  - destruct (Hentry "audio" "master_volume"
                (clamp (VFloat 0.0%float) (VFloat 1.0%float)))%string
      as (x0 & x & _ & Hx & _ & _ & _ & P & _); [in_checks|]. exists x. auto.
  - destruct (Hentry "audio" "music_volume"
                (clamp (VFloat 0.0%float) (VFloat 1.0%float)))%string
      as (x0 & x & _ & Hx & _ & _ & _ & P & _); [in_checks|]. exists x. auto.
  - destruct (Hentry "audio" "sfx_volume"
                (clamp (VFloat 0.0%float) (VFloat 1.0%float)))%string
      as (x0 & x & _ & Hx & _ & _ & _ & P & _); [in_checks|]. exists x. auto.
  - destruct (Hentry "gameplay" "note_speed_multiplier"
                (clamp (VFloat 0.1%float) (VFloat 3.0%float)))%string
      as (x0 & x & _ & Hx & _ & _ & _ & _ & P & _); [in_checks|].
    exists x. auto.
  - destruct (Hentry "gameplay" "hit_tolerance" (clamp (VInt 10) (VInt 100)))%string
      as (x0 & x & _ & Hx & _ & _ & _ & _ & _ & P & _); [in_checks|].
    exists x. auto.
  - destruct (Hentry "performance" "quality_mode" fix_quality)%string
      as (x0 & x & _ & Hx & _ & _ & _ & _ & _ & _ & P & _); [in_checks|].
    exists x. auto.
  - destruct (Hentry "performance" "particle_limit" (clamp (VInt 10) (VInt 500)))%string
      as (x0 & x & _ & Hx & _ & _ & _ & _ & _ & _ & _ & P); [in_checks|].
    exists x. auto.
Qed.

Lemma default_config_valid : valid default_config.
Proof.
  unfold valid, entry_is, nan_or_at_least.
  repeat split; eexists; (split; [reflexivity|]);
    try (left; left; eexists; split; [reflexivity|discriminate]);
    try (eexists; split; [reflexivity|split; vm_compute; discriminate]).
  exists "auto"%string. split; [reflexivity|left; reflexivity].
Qed.

Lemma default_display (k : string) (floor : Q) :
  (k = "width"%string /\ floor = 800) \/ (k = "height"%string /\ floor = 600) ->
  entry_is default_config "display" k (at_least floor).
Proof.
  intros [[-> ->]|[-> ->]]; eexists; (split; [reflexivity|]);
    left; eexists; (split; [reflexivity|discriminate]).
Qed.

Lemma validate_config_display (c : value) (k : string) (floor : Z) (x : value) :
  (k = "width"%string /\ floor = 800%Z) \/
  (k = "height"%string /\ floor = 600%Z) ->
  entry c "display" k = Some x -> ~ nan_valued x ->
  entry_is (validate_config c) "display" k (at_least (inject_Z floor)).
Proof.
  intros Hk Hx Hnan. unfold validate_config.
  destruct (run_checks checks c) as [c'|] eqn:E.
  - pose proof (run_checks_entries c c' E) as Hentry.
    destruct Hk as [[-> ->]|[-> ->]].
    + destruct (Hentry "display" "width" (raise_to 800))%string
        as (x0 & x' & Hx0 & Hx' & _ & P & _); [in_checks|].
      exists x'. split; [exact Hx'|].
      destruct (P eq_refl) as [H|[H ->]]; [exact H|].
      exfalso. apply Hnan. congruence.
    + destruct (Hentry "display" "height" (raise_to 600))%string
        as (x0 & x' & Hx0 & Hx' & _ & _ & P & _); [in_checks|].
      exists x'. split; [exact Hx'|].
      destruct (P eq_refl) as [H|[H ->]]; [exact H|].
      exfalso. apply Hnan. congruence.
  - apply default_display.
    destruct Hk as [[-> ->]|[-> ->]]; [left|right]; split; reflexivity.
Qed.

(** X24.  Whatever it is given, [validate_config] returns a configuration
    whose nine checked entries are there, seven of them in their bounds:
    the three volumes between 0 and 1, the note speed multiplier between
    0.1 and 3, the hit tolerance between 10 and 100, the quality mode one of
    auto, high, medium, low, and the particle limit between 10 and 500 (a
    NaN or an infinity there is replaced by a bound).  The width is at
    least 800 and the height at least 600, the positive infinity included,
    unless the entry was a NaN: [nan < 800] is false, and the NaN is
    returned as it is. *)
Theorem validate_config_valid (c : value) :
  valid (validate_config c) /\
  (forall x, entry c "display" "width" = Some x -> ~ nan_valued x ->
     entry_is (validate_config c) "display" "width" (at_least 800)) /\
  (forall x, entry c "display" "height" = Some x -> ~ nan_valued x ->
     entry_is (validate_config c) "display" "height" (at_least 600)) /\
  entry (validate_config nan_width) "display" "width" = Some (VFloat nan) /\
  entry (validate_config infinite_width) "display" "width"
  = Some (VFloat infinity) /\
  entry (validate_config infinite_width) "audio" "master_volume"
  = Some (VFloat 0.0%float).
Proof.
  split; [|split; [|split; [|split; [|split]]]]; try reflexivity.
  - unfold validate_config.
    destruct (run_checks checks c) as [c'|] eqn:E;
      [apply (run_checks_valid c c' E)|apply default_config_valid].
  - intros x Hx Hnan.
    apply (validate_config_display c "width" 800 x); auto.
  - intros x Hx Hnan.
    apply (validate_config_display c "height" 600 x); auto.
Qed.

Lemma check_fails (s k : string) (f : value -> option value) (x : value) :
  In (s, k, f) checks ->
  (f x = None <-> as_num x = None /\ k <> "quality_mode"%string).
Proof.
  intro Hin. unfold checks in Hin. cbn [In] in Hin.
  repeat (destruct Hin as [Heq|Hin];
    [injection Heq as <- <- <-|]); [..|destruct Hin];
    try (unfold raise_to; destruct (as_num x); split;
         [discriminate|intros [H _]; discriminate
         |intros _; split; [reflexivity|discriminate]|reflexivity]);
    try (match goal with
         | |- clamp ?lo ?hi _ = None <-> _ =>
             rewrite (clamp_none lo hi x _ _ eq_refl eq_refl)
         end;
         split; [intro H; split; [exact H|discriminate]|intros [H _]; exact H]).
  split; [|intros [_ H]; contradiction].
  unfold fix_quality. destruct x; try discriminate.
  destruct (existsb _ _); discriminate.
Qed.

Lemma run_checks_none_iff (c : value) :
  run_checks checks c = None <-> malformed c.
Proof.
  split.
    - intro Hnone.
      assert (Hd := run_checks_defined checks checks_nodup c).
      unfold malformed.
      assert (Hcases : forall cs : list (string * string * (value -> option value)),
        (forall s k f, In (s, k, f) cs ->
           exists x x', entry c s k = Some x /\ f x = Some x') \/
        (exists s k f, In (s, k, f) cs /\
           (entry c s k = None \/ exists x, entry c s k = Some x /\ f x = None))).
      { induction cs as [|[[s0 k0] f0] cs IH].
        - left. intros s k f [].
        - destruct (entry c s0 k0) as [x|] eqn:Ex.
          + destruct (f0 x) as [x'|] eqn:Ef.
            * destruct IH as [IH|(s & k & f & Hin & Hbad)].
              -- left. intros s k f [Heq|Hin];
                   [injection Heq as <- <- <-; exists x, x'; split; assumption
                   |apply IH, Hin].
              -- right. exists s, k, f. split; [right; exact Hin|exact Hbad].
            * right. exists s0, k0, f0. split; [left; reflexivity|].
              right. exists x. split; assumption.
          + right. exists s0, k0, f0. split; [left; reflexivity|].
            left. exact Ex. }
      destruct (Hcases checks) as [Hall|Hbad]; [|exact Hbad].
      destruct (Hd Hall) as [c' Hc']. congruence.
    - intros (s & k & f & Hin & Hbad).
      apply (run_checks_none checks checks_nodup c s k f Hin Hbad).
Qed.

(** X25.  One bad entry costs the whole configuration: when one of the
    nine checked entries is missing, or is not a number where one is
    compared, the statement raises and [validate_config] returns the
    default configuration, whatever else the configuration holds; and it
    takes that way out in no other case.  So it does for the configuration of
    the test suite, which has a display section only. *)
Theorem validate_config_fallback (c : value) :
  (run_checks checks c = None <-> malformed c) /\
  (malformed c -> validate_config c = default_config) /\
  (forall s k f x, In (s, k, f) checks ->
     (f x = None <-> as_num x = None /\ k <> "quality_mode"%string)) /\
  validate_config small_display = default_config /\
  validate_config text_width = default_config.
Proof.
  assert (Hiff := run_checks_none_iff c).
  split; [exact Hiff|]. split; [|split; [|split; reflexivity]].
  - intro Hm. unfold validate_config. rewrite (proj2 Hiff Hm). reflexivity.
  - intros s k f x Hin. apply (check_fails s k f x Hin).
Qed.

Lemma validate_config_fallback_witness :
  validate_config (VDict [("display", VDict [("width", VInt 1920)])]%string)
  = default_config.
Proof.
  apply (proj1 (proj2 (validate_config_fallback
           (VDict [("display", VDict [("width", VInt 1920)])]%string)))).
  exists "display"%string, "height"%string, (raise_to 600).
  split; [in_checks|left; reflexivity].
Defined.

(** X26.  [validate_config] is idempotent: a configuration it has returned
    is returned unchanged. *)
Theorem validate_config_idempotent (c : value) :
  validate_config (validate_config c) = validate_config c.
Proof.
  assert (Hre : forall c', run_checks checks c = Some c' ->
                           validate_config c' = c').
  { intros c' E. unfold validate_config.
    rewrite (run_checks_fixed checks c'); [reflexivity|].
    intros s k f Hin.
    destruct (run_checks_some checks checks_nodup c c' E) as (H & _ & _).
    destruct (H s k f Hin) as (x & x' & _ & Hf & Hx').
    exists x'. split; [exact Hx'|].
    apply (check_post s k f x x' Hin Hf). }
  unfold validate_config at 2 3.
  destruct (run_checks checks c) as [c'|] eqn:E;
    [apply Hre; reflexivity|reflexivity].
Qed.

(** X27.  On a configuration that is not malformed, [validate_config]
    writes the nine checked entries and nothing else: each of them becomes
    what its check computes from it, every other entry keeps its value, and
    so does every section other than display, audio, gameplay and
    performance. *)
Theorem validate_config_writes (c : value) :
  ~ malformed c ->
  (forall s k f, In (s, k, f) checks ->
     exists x x', entry c s k = Some x /\ f x = Some x' /\
                  entry (validate_config c) s k = Some x') /\
  (forall s k, ~ In (s, k) (map check_key checks) ->
     entry (validate_config c) s k = entry c s k) /\
  (forall s, ~ In s checked_sections ->
     getitem (validate_config c) s = getitem c s).
Proof.
  intro Hok. unfold validate_config.
  destruct (run_checks checks c) as [c'|] eqn:E.
  - destruct (run_checks_some checks checks_nodup c c' E) as (H1 & H2 & H3).
    split; [exact H1|]. split; [exact H2|].
    intros s Hs. apply H3. intro Hin. apply Hs.
    unfold checks, check_key, checked_sections in *. simpl in *.
    intuition (subst; auto).
  - exfalso. apply Hok.
    apply (proj1 (run_checks_none_iff c) E).
Qed.


Lemma validate_config_writes_witness :
  entry (validate_config wild) "mods" "skin" = entry wild "mods" "skin".
Proof.
  apply (proj1 (proj2 (validate_config_writes wild
           (fun H => match proj2 (run_checks_none_iff wild) H with
                     | eq_refl => I
                     end)))).
  unfold checks, check_key. simpl. intuition discriminate.
Defined.

(** *** [get] and [set] *)

(** X28.  [get] reads what [set] has written: after [set(s, k, v)] on a
    configuration in which the section is missing or is a dictionary,
    [get(s, k, d)] is [v]; on any other configuration [set] writes nothing
    and [get(s, k, d)] is the default [d].  In both cases [get] on another
    section or key gives what it gave before. *)
Theorem get_after_set (config : value) (s k : string) (v d : value) :
  (writable config s -> get (set config s k v) s k d = v) /\
  (~ writable config s ->
   set config s k v = config /\ get config s k d = d) /\
  (forall s' k', (s', k') <> (s, k) ->
     get (set config s k v) s' k' d = get config s' k' d).
Proof.
  split; [|split].
  - intros (dct & -> & [Hn|(sec & Hs)]); unfold set, get.
    + rewrite Hn, lookup_insert_same, !lookup_insert_same. reflexivity.
    + rewrite Hs, Hs, !lookup_insert_same. reflexivity.
  - intro Hw. destruct config as [| | | | | |dct]; try (split; reflexivity).
    unfold set, get.
    destruct (lookup dct s) as [sec|] eqn:Es.
    + rewrite Es. destruct sec as [| | | | | |sd]; try (split; reflexivity).
      exfalso. apply Hw. exists dct. split; [reflexivity|].
      right. exists sd. exact Es.
    + exfalso. apply Hw. exists dct. split; [reflexivity|]. left. exact Es.
  - intros s' k' Hne.
    destruct config as [| | | | | |dct]; try reflexivity.
    unfold set, get.
    destruct (lookup dct s) as [sec|] eqn:Es.
    + rewrite Es. destruct sec as [| | | | | |sd]; try reflexivity.
      destruct (string_dec s' s) as [->|Hs].
      * rewrite lookup_insert_same, Es.
        rewrite lookup_insert_other by congruence. reflexivity.
      * rewrite lookup_insert_other by assumption. reflexivity.
    + rewrite lookup_insert_same.
      destruct (string_dec s' s) as [->|Hs].
      * rewrite lookup_insert_same, Es. simpl.
        destruct (k =? k')%string eqn:Ek; [|reflexivity].
        apply String.eqb_eq in Ek. congruence.
      * rewrite !lookup_insert_other by assumption. reflexivity.
Qed.

Lemma get_after_set_witness :
  get (set default_config "mods" "skin" (VStr "retro")) "mods" "skin" VNone
  = VStr "retro" /\
  get (set small_display "display" "width" (VInt 5)) "display" "width" VNone
  = VInt 5.
Proof.
  split.
  - apply (proj1 (get_after_set default_config "mods" "skin" (VStr "retro") VNone)).
    eexists. split; [reflexivity|]. left. reflexivity.
  - apply (proj1 (get_after_set small_display "display" "width" (VInt 5) VNone)).
    eexists. split; [reflexivity|]. right. eexists. reflexivity.
Defined.

(** *** [merge_configs] *)

Lemma merge_items_lookup (loaded : dict) :
  NoDup (map fst loaded) ->
  forall (result : dict) (k : string),
    lookup (merge_items merge_value loaded result) k
    = match lookup loaded k with
      | Some v => Some (merged (lookup result k) v)
      | None => lookup result k
      end.
Proof.
  induction loaded as [|[key v] rest IH]; intros Hnd result k; [reflexivity|].
  inversion Hnd as [|? ? Hnotin Hnd']; subst.
  cbn [merge_items lookup]. fold (merge_items merge_value).
  set (result' := match lookup result key with
                  | Some (VDict r) =>
                      match v with
                      | VDict _ => insert result key (merge_value (VDict r) v)
                      | _ => insert result key v
                      end
                  | _ => insert result key v
                  end).
  assert (Hr : result' = insert result key (merged (lookup result key) v)).
  { unfold result', merged, merge_configs.
    destruct (lookup result key) as [[| | | | | |r]|]; try reflexivity.
    destruct v; reflexivity. }
  rewrite (IH Hnd' result' k), Hr.
  destruct (key =? k)%string eqn:E.
  - apply String.eqb_eq in E. subst k.
    assert (Hnone : lookup rest key = None).
    { clear - Hnotin. induction rest as [|[k0 v0] rest IH]; [reflexivity|].
      simpl in *. destruct (k0 =? key)%string eqn:E.
      - apply String.eqb_eq in E. exfalso. apply Hnotin. left. exact E.
      - apply IH. intro H. apply Hnotin. right. exact H. }
    rewrite Hnone. apply lookup_insert_same.
  - apply String.eqb_neq in E.
    rewrite lookup_insert_other by congruence. reflexivity.
Qed.

(** X29.  [merge_configs(default, loaded)] looked up at a key: a key that
    [loaded] does not have keeps the default; a key that it has gets the
    loaded value, except that two dictionaries are merged in the same way.
    So no key of either side is lost, and merging an empty [loaded] gives
    the default back. *)
Theorem merge_configs_lookup (default loaded : dict) (k : string) :
  NoDup (map fst loaded) ->
  lookup (merge_configs default loaded) k
  = match lookup loaded k with
    | Some v => Some (merged (lookup default k) v)
    | None => lookup default k
    end /\
  (lookup default k <> None \/ lookup loaded k <> None ->
   lookup (merge_configs default loaded) k <> None) /\
  merge_configs default [] = default.
Proof.
  intro Hnd.
  pose proof (merge_items_lookup loaded Hnd default k) as H.
  fold (merge_configs default loaded) in H.
  split; [exact H|]. split; [|reflexivity].
  rewrite H. destruct (lookup loaded k); [discriminate|].
  intros [Hd|Hl]; [exact Hd|congruence].
Qed.

Lemma merge_configs_lookup_witness :
  lookup (merge_configs
            [("display", VDict [("width", VInt 1200); ("vsync", VBool true)]);
             ("audio", VInt 1)]
            [("display", VDict [("width", VInt 800)]); ("mods", VNone)])%string
         "display"
  = Some (VDict [("width", VInt 800); ("vsync", VBool true)])%string.
Proof.
  refine (eq_trans (proj1 (merge_configs_lookup _ _ "display"%string _)) _).
  - repeat constructor; simpl; intuition discriminate.
  - reflexivity.
Defined.

End ConfigFacts.

(** ** The song library *)

Module SongsFacts.
Import Songs.

Section Dedup.

Variable lower : string -> string.

Lemma identifier_eqb_eq (a b : string * Z) :
  identifier_eqb a b = true <-> a = b.
Proof.
  unfold identifier_eqb. destruct a as [a1 a2], b as [b1 b2]. simpl.
  rewrite andb_true_iff, String.eqb_eq, Z.eqb_eq.
  split; [intros [-> ->]; reflexivity|intro H; injection H; auto].
Qed.

Lemma seen_iff (i : string * Z) (seen : list (string * Z)) :
  existsb (identifier_eqb i) seen = true <-> In i seen.
Proof.
  rewrite existsb_exists. split.
  - intros (j & Hj & E). apply identifier_eqb_eq in E. subst j. exact Hj.
  - intro H. exists i. split; [exact H|apply identifier_eqb_eq; reflexivity].
Qed.

Lemma dedup_loop_fresh (songs : list Song) :
  forall (seen : list (string * Z)) (unique : list Song),
    dedup_loop lower songs seen unique = unique ++ fresh lower seen songs.
Proof.
  induction songs as [|s rest IH]; intros seen unique; simpl.
  - rewrite app_nil_r. reflexivity.
  - destruct (existsb _ seen); [apply IH|].
    rewrite IH, <- app_assoc. reflexivity.
Qed.

Lemma fresh_subseq (songs : list Song) :
  forall seen, Chart.subseq (fresh lower seen songs) songs.
Proof.
  induction songs as [|s rest IH]; intro seen; simpl; [constructor|].
  destruct (existsb _ seen);
    [apply Chart.subseq_skip|apply Chart.subseq_keep]; apply IH.
Qed.

Lemma fresh_not_seen (songs : list Song) :
  forall seen s, In s (fresh lower seen songs) ->
                 ~ In (identifier lower s) seen.
Proof.
  induction songs as [|s0 rest IH]; intros seen s Hin; simpl in Hin;
    [destruct Hin|].
  destruct (existsb _ seen) eqn:E; [apply (IH seen s Hin)|].
  destruct Hin as [->|Hin].
  - intro H. apply seen_iff in H. congruence.
  - intro H. apply (IH _ s Hin). right. exact H.
Qed.

Lemma fresh_nodup (songs : list Song) :
  forall seen, NoDup (map (identifier lower) (fresh lower seen songs)).
Proof.
  induction songs as [|s rest IH]; intro seen; simpl; [constructor|].
  destruct (existsb _ seen) eqn:E; [apply IH|].
  simpl. constructor; [|apply IH].
  intro Hin. apply in_map_iff in Hin. destruct Hin as (s' & Hid & Hs').
  apply (fresh_not_seen _ _ _ Hs'). left. symmetry. exact Hid.
Qed.

Lemma fresh_covers (songs : list Song) :
  forall seen s, In s songs ->
    In (identifier lower s) seen \/
    exists s', In s' (fresh lower seen songs) /\
               identifier lower s' = identifier lower s.
Proof.
  induction songs as [|s0 rest IH]; intros seen s Hin; [destruct Hin|].
  simpl. destruct (existsb _ seen) eqn:E.
  - destruct Hin as [->|Hin]; [left; apply seen_iff, E|apply IH, Hin].
  - destruct Hin as [->|Hin].
    + right. exists s. split; [left; reflexivity|reflexivity].
    + destruct (IH (identifier lower s0 :: seen) s Hin) as [[Heq|Hs]|(s' & H1 & H2)].
      * right. exists s0. split; [left; reflexivity|exact Heq].
      * left. exact Hs.
      * right. exists s'. split; [right; exact H1|exact H2].
Qed.

Lemma fresh_fixed (songs : list Song) :
  forall seen,
    NoDup (map (identifier lower) songs) ->
    (forall s, In s songs -> ~ In (identifier lower s) seen) ->
    fresh lower seen songs = songs.
Proof.
  induction songs as [|s rest IH]; intros seen Hnd Hseen; [reflexivity|].
  inversion Hnd as [|? ? Hnotin Hnd']; subst. simpl.
  destruct (existsb _ seen) eqn:E.
  - apply seen_iff in E. exfalso. apply (Hseen s); [left; reflexivity|exact E].
  - f_equal. apply IH; [exact Hnd'|].
    intros s' Hs' [Heq|Hin].
    + apply Hnotin. rewrite Heq. apply in_map. exact Hs'.
    + apply (Hseen s'); [right; exact Hs'|exact Hin].
Qed.

Lemma fresh_head (seen : list (string * Z)) (s : Song) (rest : list Song) :
  ~ In (identifier lower s) seen ->
  fresh lower seen (s :: rest) = s :: fresh lower (identifier lower s :: seen) rest.
Proof.
  intro H. simpl. destruct (existsb _ seen) eqn:E; [|reflexivity].
  apply seen_iff in E. contradiction.
Qed.

(** X30.  [remove_duplicate_songs] keeps, in their order, the first song
    of every identifier (file name in lower case, size) and drops the later
    ones: its result is the input with some songs left out, no two songs of
    it share an identifier, every song of the input has a song with its
    identifier in it, and the first song of the input is kept.  On its own
    result, and on any list without two songs of one identifier, it changes
    nothing. *)
Theorem remove_duplicate_songs_first (songs : list Song) :
  Chart.subseq (remove_duplicate_songs lower songs) songs /\
  NoDup (map (identifier lower) (remove_duplicate_songs lower songs)) /\
  (forall s, In s songs ->
     exists s', In s' (remove_duplicate_songs lower songs) /\
                identifier lower s' = identifier lower s) /\
  hd_error (remove_duplicate_songs lower songs) = hd_error songs /\
  remove_duplicate_songs lower (remove_duplicate_songs lower songs)
  = remove_duplicate_songs lower songs /\
  (NoDup (map (identifier lower) songs) ->
   remove_duplicate_songs lower songs = songs).
Proof.
  unfold remove_duplicate_songs. rewrite !dedup_loop_fresh. simpl.
  split; [apply fresh_subseq|].
  split; [apply fresh_nodup|].
  split; [|split; [|split]].
  - intros s Hin. destruct (fresh_covers songs [] s Hin) as [[]|H]. exact H.
  - destruct songs as [|s rest]; [reflexivity|].
    rewrite fresh_head by (intros []). reflexivity.
  - apply fresh_fixed; [apply fresh_nodup|intros s _ []].
  - intro Hnd. apply fresh_fixed; [exact Hnd|intros s _ []].
Qed.

End Dedup.

Lemma remove_duplicate_songs_first_witness :
  remove_duplicate_songs ascii_lower
    [mkSong "a/Song.mp3" "Song.mp3" "Song" "" "" 0 200000 ".mp3";
     mkSong "b/song.MP3" "song.MP3" "song" "" "" 0 300000 ".mp3"]
  = [mkSong "a/Song.mp3" "Song.mp3" "Song" "" "" 0 200000 ".mp3";
     mkSong "b/song.MP3" "song.MP3" "song" "" "" 0 300000 ".mp3"].
Proof.
  apply (proj2 (proj2 (proj2 (proj2 (proj2
    (remove_duplicate_songs_first ascii_lower
       [mkSong "a/Song.mp3" "Song.mp3" "Song" "" "" 0 200000 ".mp3";
        mkSong "b/song.MP3" "song.MP3" "song" "" "" 0 300000 ".mp3"])))))).
  repeat constructor; simpl; intuition discriminate.
Defined.

End SongsFacts.
